(** * News-bot: the scoring, deduplication and digest pipeline of api/cron.js

    The repository holds two variants of the same serverless handler:
    - the digest variant (one Slack message for the whole run), and
    - the per-article variant of [src/api/cron.js] (one message per article).
    They share the helpers and differ in the keyword sets of the scorer and
    in what the handler does with the scored articles.

    How the JavaScript is embedded:
    - a string is a [string], one character per UTF-16 code unit, for the
      code units below U+0100;
    - the numbers the code uses as integers are [Z] (scores, indices that
      may be -1) or [nat] (counts);
    - an asynchronous function is a computation in the monad [M]: it reads
      the [World] (feeds, replies of the network, digest, date), appends the
      requests it sends to a [History], and returns or throws;
    - [MIN_SCORE], [POST_MAX_PER_RUN] and [RSS_FEEDS] are taken as already
      parsed from the environment ([Config]); the threshold [MIN_SCORE]
      and the cap [POST_MAX] are JavaScript numbers ([Num]: a number may be
      a fraction, an infinity or NaN), base URL and tokens only count as
      present or missing. *)

From Stdlib Require Import QArith Qround.
From Stdlib Require Import String Ascii List ZArith Lia Bool Arith.
From Stdlib Require Import Sorted Permutation DecimalString.
Import ListNotations.
Open Scope string_scope.
Open Scope Z_scope.

(** ** Strings as the JavaScript runtime sees them *)

(** [\s] of a regular expression and the characters removed by [trim]:
    TAB, LF, VT, FF, CR, SPACE and NBSP (the members below U+0100). *)
Definition is_space (c : ascii) : bool :=
  let n := nat_of_ascii c in
  ((9 <=? n) && (n <=? 13) || (n =? 32) || (n =? 160))%nat.

(** The character class [[.?!]]. *)
Definition is_terminator (c : ascii) : bool :=
  let n := nat_of_ascii c in
  ((n =? 46) || (n =? 63) || (n =? 33))%nat.

Definition lower_char (c : ascii) : ascii :=
  let n := nat_of_ascii c in
  if ((65 <=? n) && (n <=? 90))%nat then ascii_of_nat (n + 32)
  else if ((192 <=? n) && (n <=? 222) && negb (n =? 215))%nat
       then ascii_of_nat (n + 32)
       else c.

(** [String.prototype.toLowerCase]. *)
Fixpoint toLowerCase (s : string) : string :=
  match s with
  | EmptyString => EmptyString
  | String c s' => String (lower_char c) (toLowerCase s')
  end.

(** [String.prototype.includes]: does [pat] occur somewhere in [s]? *)
Fixpoint includes (s pat : string) : bool :=
  prefix pat s ||
  match s with
  | EmptyString => false
  | String _ s' => includes s' pat
  end.

Fixpoint str_take (n : nat) (s : string) : string :=
  match n, s with
  | S n', String c s' => String c (str_take n' s')
  | _, _ => EmptyString
  end.

Fixpoint str_drop (n : nat) (s : string) : string :=
  match n, s with
  | S n', String _ s' => str_drop n' s'
  | _, _ => s
  end.

(** [s.slice(from, to)] and [s.slice(from)] for indices that are not
    negative (the only way the handler calls them). *)
Definition slice (s : string) (from to : Z) : string :=
  str_take (Z.to_nat to - Z.to_nat from) (str_drop (Z.to_nat from) s).

Definition slice_from (s : string) (from : Z) : string :=
  str_drop (Z.to_nat from) s.

(** First occurrence of [pat] in [s], counted from [pos]; [-1] when there
    is none. *)
Fixpoint search (pat s : string) (pos : Z) : Z :=
  if prefix pat s then pos
  else match s with
       | EmptyString => -1
       | String _ s' => search pat s' (pos + 1)
       end.

(** [s.indexOf(pat, from)]. *)
Definition indexOf (s pat : string) (from : nat) : Z :=
  let start := Nat.min from (String.length s) in
  search pat (str_drop start s) (Z.of_nat start).

Fixpoint trimStart (s : string) : string :=
  match s with
  | EmptyString => EmptyString
  | String c s' => if is_space c then trimStart s' else s
  end.

Fixpoint trimEnd (s : string) : string :=
  match s with
  | EmptyString => EmptyString
  | String c s' =>
      let t := trimEnd s' in
      if is_space c && (t =? "")%string then EmptyString else String c t
  end.

(** [String.prototype.trim]. *)
Definition trim (s : string) : string := trimEnd (trimStart s).

(** [s.replace(/\s+/g, " ")]: every maximal run of white space becomes one
    SPACE.  [in_run] tells that the previous character was white space. *)
Fixpoint collapse_from (in_run : bool) (s : string) : string :=
  match s with
  | EmptyString => EmptyString
  | String c s' =>
      if is_space c
      then if in_run then collapse_from true s'
           else String " " (collapse_from true s')
      else String c (collapse_from false s')
  end.

Definition collapse_whitespace (s : string) : string := collapse_from false s.

(** [s.split(/(?<=[.?!])\s+/)].  A separator is a maximal run of white space
    whose left neighbour is one of [.?!]; the scanner is either inside a
    piece (remembering whether the last character was a terminator) or
    inside a separator. *)
Inductive scan := InPiece (after_terminator : bool) | InSeparator.

(** Returns the rest of the current piece and the pieces after it. *)
Fixpoint split_scan (m : scan) (s : string) : string * list string :=
  match s with
  | EmptyString => (EmptyString, [])
  | String c s' =>
      match m with
      | InSeparator =>
          if is_space c then split_scan InSeparator s'
          else let (p, r) := split_scan (InPiece (is_terminator c)) s' in
               (String c p, r)
      | InPiece true =>
          if is_space c
          then let (p, r) := split_scan InSeparator s' in
               (EmptyString, p :: r)
          else let (p, r) := split_scan (InPiece (is_terminator c)) s' in
               (String c p, r)
      | InPiece false =>
          let (p, r) := split_scan (InPiece (is_terminator c)) s' in
          (String c p, r)
      end
  end.

Definition split_sentences (s : string) : list string :=
  let (p, r) := split_scan (InPiece false) s in p :: r.

(** JavaScript truthiness of a string ([Boolean(s)], [!s]). *)
Definition truthy_string (s : string) : bool := negb (s =? "")%string.

(** ** Summary condenser: [makeSummaryBullets] *)

(** The sentences of a cleaned summary,
    [cleaned.split(...).map((s) => s.trim()).filter(Boolean)]. *)
Definition sentences_of (cleaned : string) : list string :=
  filter truthy_string (map trim (split_sentences cleaned)).

(** [summary.replace(/\s+/g, " ").trim()]. *)
Definition clean (summary : string) : string :=
  trim (collapse_whitespace summary).

(** [maxBullets] is a count; its default in the source is 2. *)
Definition makeSummaryBullets (summary : string) (maxBullets : nat)
  : list string :=
  if negb (truthy_string summary) then []
  else
    let cleaned := clean summary in
    if negb (truthy_string cleaned) then []
    else
      let sentences := sentences_of cleaned in
      if (maxBullets <=? List.length sentences)%nat
      then firstn maxBullets sentences
      else
        if ((List.length sentences =? 1)%nat
            && (180 <? String.length cleaned)%nat)%bool
        then
          let mid := (String.length cleaned / 2)%nat in
          let splitIdx := indexOf cleaned " " mid in
          if splitIdx >? -1
          then [ trim (slice cleaned 0 splitIdx);
                 trim (slice_from cleaned splitIdx) ]
          else sentences
        else sentences.

(** ** Relevance scorer: [scoreArticle] *)

(** [for (const t of terms) if (txt.includes(t)) s += weight]. *)
Definition add_matches (weight : Z) (terms : list string) (txt : string)
  (s : Z) : Z :=
  fold_left (fun s t => if includes txt t then s + weight else s) terms s.

Definition score_with (high infra : list string)
  (title contentSnippet : string) : Z :=
  let txt := toLowerCase (title ++ " " ++ contentSnippet) in
  let s := 0 in
  let s := add_matches 3 high txt s in
  let s := add_matches 2 infra txt s in
  s.

(** ** Articles *)

(** What the parser yields for one feed entry; an absent property is [None]. *)
Record Entry := {
  entry_title : option string;
  entry_link : option string;
  entry_guid : option string;
  entry_contentSnippet : option string;
  entry_content : option string;
  entry_isoDate : option string;
  entry_pubDate : option string
}.

Record Feed := {
  feed_title : option string;
  feed_items : option (list Entry)
}.

Record Article := {
  title : string;
  url : string;
  summary : string;
  source : string;
  published : string
}.

(** [{ ...it, score }]. *)
Record Scored := {
  article : Article;
  score : Z
}.

(** [{ ...it, _redisKey: key }]. *)
Record Fresh := {
  scored_item : Scored;
  _redisKey : string
}.

(** The nullish coalescing operator [a ?? b]. *)
Definition coalesce {A : Type} (a : option A) (b : A) : A :=
  match a with
  | Some v => v
  | None => b
  end.

(** The body of the loop over [feed.items ?? []]. *)
Definition articles_of_feed (feedUrl : string) (feed : Feed) : list Article :=
  let source := coalesce (feed_title feed) feedUrl in
  flat_map
    (fun it =>
       let link := coalesce (entry_link it) (coalesce (entry_guid it) "") in
       if negb (truthy_string link) then []
       else [ {| title := coalesce (entry_title it) "";
                 url := link;
                 summary := coalesce (entry_contentSnippet it)
                              (coalesce (entry_content it) "");
                 source := source;
                 published := coalesce (entry_isoDate it)
                                (coalesce (entry_pubDate it) "") |} ])
    (coalesce (feed_items feed) []).

(** ** [Array.prototype.sort] with a comparator

    The sort of the language is stable; for a comparator that is a weak
    order its result is determined.  It is embedded as the stable insertion
    sort: [x] goes before the first [y] with [cmp x y <= 0]. *)
Fixpoint sort_insert {A : Type} (cmp : A -> A -> Z) (x : A) (l : list A)
  : list A :=
  match l with
  | [] => [x]
  | y :: l' => if cmp x y <=? 0 then x :: l else y :: sort_insert cmp x l'
  end.

Fixpoint array_sort {A : Type} (cmp : A -> A -> Z) (l : list A) : list A :=
  match l with
  | [] => []
  | x :: l' => sort_insert cmp x (array_sort cmp l')
  end.

(** ** Numbers read from the environment *)

(** A JavaScript number, as [Number(process.env.MIN_SCORE ?? "3")] and
    [Number(process.env.POST_MAX_PER_RUN ?? "10")] give one: NaN, an
    infinity, or a finite value (a double is a rational). *)
Inductive Num :=
| NaN
| NegInfinity
| PosInfinity
| Finite (q : Q).

Definition num_of_Z (z : Z) : Num := Finite (inject_Z z).

Coercion num_of_Z : Z >-> Num.

(** [z >= x] for an integer [z], as JavaScript evaluates it: a comparison
    with NaN is false. *)
Definition js_ge (z : Z) (x : Num) : bool :=
  match x with
  | NaN => false
  | NegInfinity => true
  | PosInfinity => false
  | Finite q => Qle_bool q (inject_Z z)
  end.

(** [n >= cap] for a count [n]: [fresh.length >= POST_MAX] and
    [posted >= POST_MAX]. *)
Definition reaches (n : nat) (cap : Num) : bool := js_ge (Z.of_nat n) cap.

(** ** Scoring and filtering *)

(** [it] with the score the scorer gives it. *)
Definition scored_by (scoreArticle : string -> string -> Z) (it : Article)
  : Scored :=
  {| article := it; score := scoreArticle (title it) (summary it) |}.

(** The "Score, filter, and sort" statement of both handlers;
    [scoreArticle] is the scorer of the variant and [min_score] is
    [MIN_SCORE]. *)
Definition scoreAndFilter (scoreArticle : string -> string -> Z)
  (min_score : Num) (items : list Article) : list Scored :=
  array_sort (fun a b => score b - score a)
    (filter (fun it => js_ge (score it) min_score)
       (map (scored_by scoreArticle) items)).

(** ** The outside world: JSON, HTTP, the monad of the handler *)

#[warnings="-register-all"] Inductive JsVal :=
| JUndefined
| JNull
| JBool (b : bool)
| JNum (n : Z)
| JStr (s : string)
| JArr (items : list JsVal)
| JObj (fields : list (string * JsVal)).

(** Truthiness, as [if (seen)] and [!data.ok] test it. *)
Definition truthy (v : JsVal) : bool :=
  match v with
  | JUndefined | JNull => false
  | JBool b => b
  | JNum n => negb (n =? 0)
  | JStr s => truthy_string s
  | JArr _ | JObj _ => true
  end.

Fixpoint assoc (k : string) (fields : list (string * JsVal)) : JsVal :=
  match fields with
  | [] => JUndefined
  | (k', v) :: rest => if (k =? k')%string then v else assoc k rest
  end.

Inductive Exn :=
| FetchFailed                               (* [fetch] rejected *)
| JsonSyntaxError                           (* [r.json()] rejected *)
| TypeError                                 (* property read on null *)
| SlackPostFailed (status : Z) (data : JsVal).

Inductive Outcome (A : Type) :=
| Returned (a : A)
| Threw (e : Exn).
Arguments Returned {A} a.
Arguments Threw {A} e.

(** One rendered section of a Slack message; the fixed decoration of the
    mrkdwn text (bullets, asterisks, link syntax) is left out. *)
Inductive Block :=
| HeaderBlock (today : string)
| Divider
| ItemSection (title : string) (bullets : list string)
    (url source : string) (score : Z)
| ArticleTitle (title : string)
| ArticleBody (summary url : string)
| ArticleContext (source : string) (score : Z).

Inductive Fallback :=
| DigestLines (lines : list (string * string))   (* title, url per item *)
| ArticleLine (title url : string).

(** The three HTTP requests the handlers send. *)
Inductive Request :=
| KvGet (key : string)                           (* GET /get/key *)
| KvSetEx (key value : string) (ex : Z)          (* POST /set/key/value?ex= *)
| SlackPost (text : Fallback) (blocks : list Block).

Record Response := {
  ok : bool;
  status : Z;
  json_body : option JsVal         (* [None]: the body is not JSON *)
}.

Inductive FetchOutcome :=
| Rejected
| Got (r : Response).

Definition History := list Request.

(** Everything the run reads from outside.  A reply may depend on the
    requests sent before it, so that a store can be described. *)
Record World := {
  sha1 : string -> list Byte.byte;               (* crypto.subtle.digest *)
  parseURL : string -> option Feed;              (* [None]: it throws *)
  reply : History -> Request -> FetchOutcome;
  today : string                                 (* toISOString().slice(0, 10) *)
}.

(** Module-level constants read from [process.env]. *)
Record Config := {
  SLACK_BOT_TOKEN : option string;
  SLACK_CHANNEL_ID : option string;
  UPSTASH_REDIS_REST : option string;
  UPSTASH_REDIS_TOKEN : option string;
  MIN_SCORE : Num;
  POST_MAX : Num;
  RSS_FEEDS : list string
}.

(** An asynchronous computation: it reads the world, extends the history of
    requests sent, and returns or throws. *)
Definition M (A : Type) : Type := World -> History -> Outcome A * History.

Definition ret {A : Type} (a : A) : M A := fun _ h => (Returned a, h).

Definition throw {A : Type} (e : Exn) : M A := fun _ h => (Threw e, h).

Definition bind {A B : Type} (m : M A) (k : A -> M B) : M B :=
  fun W h =>
    match m W h with
    | (Returned a, h') => k a W h'
    | (Threw e, h') => (Threw e, h')
    end.

(** [p.catch(handler)]. *)
Definition catch {A : Type} (m : M A) (handler : Exn -> M A) : M A :=
  fun W h =>
    match m W h with
    | (Returned a, h') => (Returned a, h')
    | (Threw e, h') => handler e W h'
    end.

Notation "x <- m ;; k" := (bind m (fun x => k))
  (at level 61, m at next level, right associativity).

(** [await fetch(...)]: the request is sent, then answered or rejected. *)
Definition fetch (req : Request) : M Response :=
  fun W h =>
    match reply W h req with
    | Rejected => (Threw FetchFailed, (h ++ [req])%list)
    | Got r => (Returned r, (h ++ [req])%list)
    end.

(** [await r.json()]. *)
Definition json (r : Response) : M JsVal :=
  match json_body r with
  | Some v => ret v
  | None => throw JsonSyntaxError
  end.

(** The property read [v.name]. *)
Definition get_prop (v : JsVal) (name : string) : M JsVal :=
  match v with
  | JUndefined | JNull => throw TypeError
  | JObj fields => ret (assoc name fields)
  | _ => ret JUndefined
  end.

(** [Promise.all(xs.map(f))] for asynchronous functions that send their
    request before they first suspend: every request is sent, in order; the
    result is the list of values, or a rejection if one of them rejected. *)
Fixpoint promise_all {A : Type} (ps : list (M A)) : M (list A) :=
  fun W h =>
    match ps with
    | [] => (Returned [], h)
    | p :: ps' =>
        let (o, h1) := p W h in
        let (os, h2) := promise_all ps' W h1 in
        (match o, os with
         | Returned a, Returned l => Returned (a :: l)
         | Threw e, _ => Threw e
         | Returned _, Threw e => Threw e
         end, h2)
    end.

(** ** Helpers shared by the two variants *)

Definition hex_digit (n : N) : ascii :=
  if (n <? 10)%N then ascii_of_N (48 + n) else ascii_of_N (87 + n).

(** [b.toString(16).padStart(2, "0")]. *)
Definition hex_byte (b : Byte.byte) : string :=
  let n := Byte.to_N b in
  String (hex_digit (n / 16)) (String (hex_digit (n mod 16)) EmptyString).

(** The hexadecimal digest [sha1Hex] resolves to. *)
Definition fingerprint (W : World) (input : string) : string :=
  String.concat "" (map hex_byte (sha1 W input)).

Definition sha1Hex (input : string) : M string :=
  fun W h => (Returned (fingerprint W input), h).

Definition upstashGet (key : string) : M JsVal :=
  r <- fetch (KvGet key) ;;
  if negb (ok r) then ret JNull
  else
    data <- json r ;;
    get_prop data "result".

Definition upstashSetEx (key value : string) (exSeconds : Z) : M bool :=
  r <- fetch (KvSetEx key value exSeconds) ;;
  ret (ok r).

(** The articles the "Fetch RSS items" loop gathers, with its [try]/[catch]
    around each feed. *)
Definition feed_articles (W : World) (feeds : list string) : list Article :=
  flat_map
    (fun feedUrl =>
       match parseURL W feedUrl with
       | Some feed => articles_of_feed feedUrl feed
       | None => []
       end)
    feeds.

Definition fetchFeeds (feeds : list string) : M (list Article) :=
  fun W h => (Returned (feed_articles W feeds), h).

(** The "Basic env check": the names [k] with [!process.env[k]]. *)
Definition missing_env (cfg : Config) : list string :=
  flat_map
    (fun kv : string * option string =>
       if truthy_string (coalesce (snd kv) "") then [] else [fst kv])
    [ ("SLACK_BOT_TOKEN", SLACK_BOT_TOKEN cfg);
      ("SLACK_CHANNEL_ID", SLACK_CHANNEL_ID cfg);
      ("UPSTASH_REDIS_REST", UPSTASH_REDIS_REST cfg);
      ("UPSTASH_REDIS_TOKEN", UPSTASH_REDIS_TOKEN cfg) ].

(** What the handler sends back: [res.status(code).send(body)]. *)
Record Reply := {
  code : Z;
  body : string
}.

Definition string_of_nat (n : nat) : string :=
  NilZero.string_of_uint (Nat.to_uint n).

(** The end of both Slack posters:
    [const data = await r.json().catch(() => ({}));
     if (!r.ok || !data.ok) throw new Error(...)]. *)
Definition check_slack (r : Response) : M unit :=
  data <- catch (json r) (fun _ => ret (JObj [])) ;;
  if negb (ok r) then throw (SlackPostFailed (status r) data)
  else
    accepted <- get_prop data "ok" ;;
    if negb (truthy accepted) then throw (SlackPostFailed (status r) data)
    else ret tt.

(** Seven days, in seconds. *)
Definition retention : Z := 7 * 86400.

(** ** The digest variant *)
Module Digest.

Definition high : list string :=
  [ "funding"; "raises"; "acquisition"; "acqui"; "outage"; "breach";
    "open source"; "partnership"; "launch"; "announced"; "milestone";
    "data center"; "datacentre"; "colocation"; "colo"; "hyperscale";
    "megawatt"; "grid"; "cooling"; "liquid cooling" ].

Definition infra : list string :=
  [ "h100"; "h200"; "mi300"; "gpu"; "accelerator"; "nvidia"; "amd"; "intel" ].

Definition scoreArticle (title contentSnippet : string) : Z :=
  score_with high infra title contentSnippet.

(** The blocks of the digest: header, divider, then a section and a divider
    per item. *)
Definition digest_blocks (today : string) (items : list Fresh) : list Block :=
  (HeaderBlock today :: Divider ::
   flat_map
     (fun it =>
        let a := article (scored_item it) in
        [ ItemSection (slice (title a) 0 300)
            (makeSummaryBullets (summary a) 2)
            (url a) (source a) (score (scored_item it));
          Divider ])
     items)%list.

Definition fallbackText (items : list Fresh) : Fallback :=
  DigestLines
    (map (fun it => (title (article (scored_item it)),
                     url (article (scored_item it)))) items).

Definition postDigestToSlack (items : list Fresh) : M unit :=
  if (List.length items =? 0)%nat then ret tt
  else
    fun W h =>
      (r <- fetch (SlackPost (fallbackText items)
                     (digest_blocks (today W) items)) ;;
       check_slack r) W h.

(** The loop "Collect new, unseen items up to POST_MAX"; [fresh] is the
    array built so far. *)
Fixpoint collectFresh (post_max : Num) (scored : list Scored)
  (fresh : list Fresh) : M (list Fresh) :=
  match scored with
  | [] => ret fresh
  | it :: rest =>
      key <- sha1Hex (url (article it)) ;;
      seen <- upstashGet key ;;
      if truthy seen then collectFresh post_max rest fresh
      else
        let fresh := (fresh ++ [ {| scored_item := it; _redisKey := key |} ])%list in
        if reaches (List.length fresh) post_max then ret fresh
        else collectFresh post_max rest fresh
  end.

(** The "Mark all as seen for 7 days" statement. *)
Definition markSeen (fresh : list Fresh) : M (list bool) :=
  promise_all (map (fun it => upstashSetEx (_redisKey it) "1" retention) fresh).

Definition handler (cfg : Config) : M Reply :=
  let missing := missing_env cfg in
  if negb (List.length missing =? 0)%nat
  then ret {| code := 500;
              body := "Missing env vars: " ++ String.concat ", " missing |}
  else
    items <- fetchFeeds (RSS_FEEDS cfg) ;;
    let scored := scoreAndFilter scoreArticle (MIN_SCORE cfg) items in
    fresh <- collectFresh (POST_MAX cfg) scored [] ;;
    if (List.length fresh =? 0)%nat
    then ret {| code := 200; body := "OK - no new items" |}
    else
      _ <- postDigestToSlack fresh ;;
      _ <- markSeen fresh ;;
      ret {| code := 200;
             body := "OK - posted digest with "
                     ++ string_of_nat (List.length fresh) ++ " items" |}.

End Digest.

(** ** The per-article variant, [src/api/cron.js] *)
Module PerArticle.

Definition high : list string :=
  [ "funding"; "raises"; "acquisition"; "acqui"; "breach"; "open source";
    "partnership"; "launch"; "announced"; "data center"; "datacentre";
    "colocation"; "colo"; "hyperscale"; "megawatt"; "grid"; "cooling";
    "liquid cooling" ].

Definition infra : list string :=
  [ "h100"; "h200"; "mi300"; "gpu"; "accelerator"; "nvidia"; "amd"; "intel";
    "groq"; "google"; "gb300"; "gb200"; "rubin"; "alphabet"; "softbank";
    "oracle"; "aws"; "meta" ].

Definition scoreArticle (title contentSnippet : string) : Z :=
  score_with high infra title contentSnippet.

Definition postToSlack (title url summary source : string) (score : Z)
  : M unit :=
  r <- fetch (SlackPost (ArticleLine title url)
                [ ArticleTitle (slice title 0 300);
                  ArticleBody (slice summary 0 700) url;
                  ArticleContext source score ]) ;;
  check_slack r.

(** The loop "Post each new article as its own Slack message". *)
Fixpoint postEach (post_max : Num) (scored : list Scored) (posted : nat)
  : M nat :=
  match scored with
  | [] => ret posted
  | it :: rest =>
      key <- sha1Hex (url (article it)) ;;
      seen <- upstashGet key ;;
      if truthy seen then postEach post_max rest posted
      else
        _ <- postToSlack (title (article it)) (url (article it))
               (summary (article it)) (source (article it)) (score it) ;;
        _ <- upstashSetEx key "1" retention ;;
        let posted := (posted + 1)%nat in
        if reaches posted post_max then ret posted
        else postEach post_max rest posted
  end.

Definition handler (cfg : Config) : M Reply :=
  let missing := missing_env cfg in
  if negb (List.length missing =? 0)%nat
  then ret {| code := 500;
              body := "Missing env vars: " ++ String.concat ", " missing |}
  else
    items <- fetchFeeds (RSS_FEEDS cfg) ;;
    let scored := scoreAndFilter scoreArticle (MIN_SCORE cfg) items in
    posted <- postEach (POST_MAX cfg) scored 0%nat ;;
    ret {| code := 200; body := "OK - posted " ++ string_of_nat posted |}.

End PerArticle.


(** ** Notions used to state the properties *)

(** The integer [z] is at least the number [x]: nothing is at least NaN
    or +Infinity, everything is at least -Infinity. *)
Definition no_less (z : Z) (x : Num) : Prop :=
  match x with
  | Finite q => (q <= inject_Z z)%Q
  | NegInfinity => True
  | NaN | PosInfinity => False
  end.

(** The number of terms of a keyword set that occur in the text. *)
Definition matches (txt : string) (terms : list string) : nat :=
  List.length (filter (includes txt) terms).

(** The text made of all the terms of both sets, one after the other. *)
Definition every_term (high infra : list string) : string :=
  String.concat " " (high ++ infra).

(** A list in descending order of [key]. *)
Definition descending {A : Type} (key : A -> Z) (l : list A) : Prop :=
  StronglySorted (fun a b => key a >= key b) l.

(** The elements of [l] whose key is [k], in the order of [l]. *)
Definition with_key {A : Type} (key : A -> Z) (k : Z) (l : list A) : list A :=
  filter (fun x => key x =? k) l.

(** [it] with the cache key the loop attaches to it. *)
Definition keyed (W : World) (it : Scored) : Fresh :=
  {| scored_item := it; _redisKey := fingerprint W (url (article it)) |}.

(** The cache read the loop sends for [it]. *)
Definition query (W : World) (it : Scored) : Request :=
  KvGet (fingerprint W (url (article it))).

(** The cache write [markSeen] sends for [it]. *)
Definition mark_request (it : Fresh) : Request :=
  KvSetEx (_redisKey it) "1" retention.

(** The cache answers every read, and the answer is truthy exactly for the
    keys of [seen]. *)
Definition cache_answers (W : World) (seen : string -> bool) : Prop :=
  forall (h : History) (key : string),
    exists v : JsVal,
      upstashGet key W h = (Returned v, (h ++ [KvGet key])%list)
      /\ truthy v = seen key.

Definition unseen (W : World) (seen : string -> bool) (it : Scored) : bool :=
  negb (seen (fingerprint W (url (article it)))).

Definition is_read (req : Request) : bool :=
  match req with KvGet _ => true | _ => false end.

Definition is_write (req : Request) : bool :=
  match req with KvSetEx _ _ _ => true | _ => false end.

Definition is_slack (req : Request) : bool :=
  match req with SlackPost _ _ => true | _ => false end.

(** ** A small world to run the handlers in *)

(** A stand-in for the digest: the bytes of the input. *)
Definition example_digest (s : string) : list Byte.byte :=
  map byte_of_ascii (list_ascii_of_string s).

Definition example_entry (t link snippet : string) : Entry :=
  {| entry_title := Some t; entry_link := Some link; entry_guid := None;
     entry_contentSnippet := Some snippet; entry_content := None;
     entry_isoDate := None; entry_pubDate := None |}.

Definition example_feed : Feed :=
  {| feed_title := Some "Example";
     feed_items :=
       Some [ example_entry "Nvidia raises funding" "a" "One. Two. Three.";
              example_entry "Weather" "c" "Rain.";
              example_entry "GPU launch announced" "b" "" ] |}.

Definition kv_result (v : JsVal) : FetchOutcome :=
  Got {| ok := true; status := 200;
         json_body := Some (JObj [("result", v)]) |}.

Definition slack_accepts : FetchOutcome :=
  Got {| ok := true; status := 200;
         json_body := Some (JObj [("ok", JBool true)]) |}.

Definition server_error : FetchOutcome :=
  Got {| ok := false; status := 500; json_body := None |}.

(** Reads are answered by [get], writes by [set], Slack accepts. *)
Definition example_world (get set : string -> FetchOutcome) : World :=
  {| sha1 := example_digest;
     parseURL := fun u => if (u =? "feed")%string then Some example_feed
                          else None;
     reply := fun _ req =>
                match req with
                | KvGet k => get k
                | KvSetEx k _ _ => set k
                | SlackPost _ _ => slack_accepts
                end;
     today := "2025-01-01" |}.

(** A store that holds the keys of [seen]. *)
Definition store_get (seen : list string) (k : string) : FetchOutcome :=
  kv_result (if existsb (String.eqb k) seen then JStr "1" else JNull).

Definition store_set (k : string) : FetchOutcome := kv_result (JStr "OK").

Definition example_config (post_max : Z) : Config :=
  {| SLACK_BOT_TOKEN := Some "xoxb"; SLACK_CHANNEL_ID := Some "C0";
     UPSTASH_REDIS_REST := Some "https://kv.example"; 
     UPSTASH_REDIS_TOKEN := Some "t";
     MIN_SCORE := 3; POST_MAX := post_max; RSS_FEEDS := ["feed"; "down"] |}.

(** Nothing is seen yet. *)
Definition empty_store_world : World := example_world (store_get []) store_set.

(** The article at "a" (key "61") is seen. *)
Definition a_seen_world : World := example_world (store_get ["61"]) store_set.

Definition a_seen (key : string) : bool := existsb (String.eqb key) ["61"].

(** The store cannot be reached for reads. *)
Definition unreachable_world : World :=
  example_world (fun _ => Rejected) store_set.

(** The write for key "61" is answered with a 500, the others succeed. *)
Definition failing_write_world : World :=
  example_world (store_get [])
    (fun k => if (k =? "61")%string then server_error else store_set k).

(** The store cannot be reached for writes. *)
Definition rejected_write_world : World :=
  example_world (store_get []) (fun _ => Rejected).

(** The two articles of the example feed that pass the threshold. *)
Definition example_scored : list Scored :=
  scoreAndFilter Digest.scoreArticle 3 (feed_articles empty_store_world ["feed"]).

(** The room left under the cap when [n] items are already collected; the
    cap is tested after an item is added, so there is always room for one. *)
Definition room (pm : Z) (n : nat) : nat := Z.to_nat (Z.max 1 (pm - Z.of_nat n)).

(** Reads are answered with a 500. *)
Definition erroring_store_world : World :=
  example_world (fun _ => server_error) store_set.

(** Both articles above the threshold are seen. *)
Definition all_seen_world : World :=
  example_world (store_get ["61"; "62"]) store_set.

(** The list the handler hands to its loop: the articles of all feeds,
    scored, filtered and sorted. *)
Definition scored_articles (cfg : Config) (W : World) : list Scored :=
  scoreAndFilter Digest.scoreArticle (MIN_SCORE cfg)
    (feed_articles W (RSS_FEEDS cfg)).

(** The one request [postDigestToSlack] sends for [fresh]. *)
Definition digest_post (W : World) (fresh : list Fresh) : Request :=
  SlackPost (Digest.fallbackText fresh) (Digest.digest_blocks (today W) fresh).

Definition no_new_items : Reply := {| code := 200; body := "OK - no new items" |}.

Definition posted_digest (n : nat) : Reply :=
  {| code := 200;
     body := "OK - posted digest with " ++ string_of_nat n ++ " items" |}.

(** ** Shapes of strings *)

(** Every character is white space (so also the empty string). *)
Fixpoint all_space (s : string) : bool :=
  match s with
  | EmptyString => true
  | String c s' => is_space c && all_space s'
  end.

Definition starts_with_space (s : string) : bool :=
  match s with
  | EmptyString => false
  | String c _ => is_space c
  end.

Fixpoint ends_with_space (s : string) : bool :=
  match s with
  | EmptyString => false
  | String c EmptyString => is_space c
  | String _ s' => ends_with_space s'
  end.

(** A bullet as C10 wants it: not empty, no white space at either end. *)
Definition neat (b : string) : Prop :=
  b <> "" /\ starts_with_space b = false /\ ends_with_space b = false.

(** What collapsing and trimming leave: the only white space is single
    SPACE characters between other characters.  [prev] tells that the
    character before [s] is white space (or that [s] starts the string), so
    that [tidy_from true] also excludes the empty string. *)
Fixpoint tidy_from (prev : bool) (s : string) : bool :=
  match s with
  | EmptyString => negb prev
  | String c s' =>
      if is_space c
      then Ascii.eqb c " " && negb prev && tidy_from true s'
      else tidy_from false s'
  end.

(** The same, without leading and trailing constraints: what
    [collapse_from] yields. *)
Fixpoint spaced_from (prev : bool) (s : string) : bool :=
  match s with
  | EmptyString => true
  | String c s' =>
      if is_space c
      then Ascii.eqb c " " && negb prev && spaced_from true s'
      else spaced_from false s'
  end.

Definition tidy (s : string) : Prop := tidy_from true s = true.

(** A terminator directly followed by white space: a sentence boundary. *)
Fixpoint has_boundary (s : string) : bool :=
  match s with
  | EmptyString => false
  | String c s' =>
      (is_terminator c && starts_with_space s') || has_boundary s'
  end.

Fixpoint ends_with_terminator (s : string) : bool :=
  match s with
  | EmptyString => false
  | String c EmptyString => is_terminator c
  | String _ s' => ends_with_terminator s'
  end.

Fixpoint repeat_string (n : nat) (s : string) : string :=
  match n with
  | O => EmptyString
  | S n' => s ++ repeat_string n' s
  end.

(** Four sentences with white space around and between them. *)
Definition spaced_summary : string := "  Alpha.  Beta? Gamma!   Delta ".

(** One sentence of 203 characters, without a terminator. *)
Definition long_summary : string := repeat_string 40 "word " ++ "end".

(** One sentence of 203 characters whose second half has no white space. *)
Definition long_tail_summary : string :=
  "word " ++ repeat_string 198 "x".

(** The invariant of [split_scan] about boundaries: [p] is the rest of the
    current piece and [r] the pieces after it, scanned in mode [m]. *)
Definition cut_well (m : scan) (p : string) (r : list string) : Prop :=
  has_boundary p = false
  /\ (m = InPiece true -> starts_with_space p = false)
  /\ Forall (fun q => has_boundary q = false) r
  /\ (r <> [] ->
      match p with
      | EmptyString => m = InPiece true
      | _ => ends_with_terminator p = true
      end)
  /\ Forall (fun q => ends_with_terminator q = true) (removelast r).

(** ** Notions for the helpers around the pipeline *)

(** The hexadecimal rendering of a digest, as [sha1Hex] builds it. *)
Definition hex_of_bytes (bytes : list Byte.byte) : string :=
  String.concat "" (map hex_byte bytes).

Definition unhex_digit (c : ascii) : N :=
  let n := N_of_ascii c in
  if (n <? 58)%N then (n - 48)%N else (n - 87)%N.

(** Reading a hexadecimal string back, two digits per byte. *)
Fixpoint unhex (s : string) : list Byte.byte :=
  match s with
  | String a (String b s') =>
      match Byte.of_N (16 * unhex_digit a + unhex_digit b) with
      | Some x => x :: unhex s'
      | None => []
      end
  | _ => []
  end.

(** One of [0-9a-f]. *)
Definition is_hex_lower (c : ascii) : bool :=
  let n := N_of_ascii c in
  ((48 <=? n) && (n <=? 57) || (97 <=? n) && (n <=? 102))%N.

Fixpoint all_chars (p : ascii -> bool) (s : string) : bool :=
  match s with
  | EmptyString => true
  | String c s' => p c && all_chars p s'
  end.

(** [process.env[k]] is set and not empty. *)
Definition present (v : option string) : Prop :=
  exists s : string, v = Some s /\ s <> "".

(** [process.env[k]] is absent or empty. *)
Definition unset (v : option string) : bool :=
  match v with
  | Some (String _ _) => false
  | _ => true
  end.

(** The names of the four secrets that are absent or empty, in the order
    of the check. *)
Definition names_missing (cfg : Config) : list string :=
  ((if unset (SLACK_BOT_TOKEN cfg) then ["SLACK_BOT_TOKEN"] else [])
   ++ (if unset (SLACK_CHANNEL_ID cfg) then ["SLACK_CHANNEL_ID"] else [])
   ++ (if unset (UPSTASH_REDIS_REST cfg) then ["UPSTASH_REDIS_REST"] else [])
   ++ (if unset (UPSTASH_REDIS_TOKEN cfg) then ["UPSTASH_REDIS_TOKEN"] else [])
  )%list.

(** The reply to a request when a secret is missing. *)
Definition missing_reply (cfg : Config) : Reply :=
  {| code := 500;
     body := "Missing env vars: " ++ String.concat ", " (names_missing cfg) |}.

(** A configuration without the Slack token and with an empty channel. *)
Definition incomplete_config : Config :=
  {| SLACK_BOT_TOKEN := None; SLACK_CHANNEL_ID := Some "";
     UPSTASH_REDIS_REST := Some "https://kv.example";
     UPSTASH_REDIS_TOKEN := Some "t";
     MIN_SCORE := 3; POST_MAX := 10; RSS_FEEDS := ["feed"] |}.

(** The URL the loop takes for an entry: [it.link ?? it.guid ?? ""]. *)
Definition entry_url (e : Entry) : string :=
  coalesce (entry_link e) (coalesce (entry_guid e) "").

(** [parser.parseURL(feedUrl)] does not throw. *)
Definition feed_answers (W : World) (feedUrl : string) : bool :=
  match parseURL W feedUrl with
  | Some _ => true
  | None => false
  end.

(** Every feed is down. *)
Definition feeds_down_config : Config :=
  {| SLACK_BOT_TOKEN := Some "xoxb"; SLACK_CHANNEL_ID := Some "C0";
     UPSTASH_REDIS_REST := Some "https://kv.example";
     UPSTASH_REDIS_TOKEN := Some "t";
     MIN_SCORE := 3; POST_MAX := 10; RSS_FEEDS := ["down"; "gone"] |}.

(** [null] or [undefined]: a value whose properties cannot be read. *)
Definition nullish (v : JsVal) : Prop := v = JNull \/ v = JUndefined.

(** A 2xx response whose JSON body is an object with a truthy [name]. *)
Definition affirms (name : string) (r : Response) : Prop :=
  ok r = true
  /\ exists fields : list (string * JsVal),
       json_body r = Some (JObj fields) /\ truthy (assoc name fields) = true.

(** Slack answers 200 with [{ ok: false, error: ... }]. *)
Definition slack_refuses : FetchOutcome :=
  Got {| ok := true; status := 200;
         json_body := Some (JObj [("ok", JBool false);
                                  ("error", JStr "channel_not_found")]) |}.

Definition slack_refusing_world : World :=
  {| sha1 := example_digest;
     parseURL := parseURL empty_store_world;
     reply := fun _ req =>
                match req with
                | KvGet k => store_get [] k
                | KvSetEx k _ _ => store_set k
                | SlackPost _ _ => slack_refuses
                end;
     today := "2025-01-01" |}.

(** [l1] is [l2] with some elements left out, the others in order. *)
Inductive subseq {A : Type} : list A -> list A -> Prop :=
| subseq_nil : subseq [] []
| subseq_skip (x : A) (l1 l2 : list A) : subseq l1 l2 -> subseq l1 (x :: l2)
| subseq_keep (x : A) (l1 l2 : list A) :
    subseq l1 l2 -> subseq (x :: l1) (x :: l2).

(** Slack accepts every post. *)
Definition slack_accepts_all (W : World) : Prop :=
  forall (h : History) (text : Fallback) (blocks : list Block),
    exists r : Response,
      reply W h (SlackPost text blocks) = Got r /\ affirms "ok" r.

(** The store answers every mark-seen write, with a success or not. *)
Definition writes_answered (W : World) : Prop :=
  forall (h : History) (key : string),
    reply W h (KvSetEx key "1" retention) <> Rejected.

(** What the digest handler guarantees of an item it collected. *)
Definition well_formed_item (cfg : Config) (W : World) (f : Fresh) : Prop :=
  let a := article (scored_item f) in
  _redisKey f = fingerprint W (url a)
  /\ url a <> ""
  /\ score (scored_item f) = Digest.scoreArticle (title a) (summary a)
  /\ no_less (score (scored_item f)) (MIN_SCORE cfg).

(** The articles of [visited] that the loop takes when it reads the cache
    for each of them in turn, after the requests [h]: those whose read
    returns a value that is not truthy. *)
Fixpoint read_unseen (W : World) (h : History) (visited : list Scored)
  : list Scored :=
  match visited with
  | [] => []
  | it :: tl =>
      let others := read_unseen W (h ++ [query W it])%list tl in
      match fst (upstashGet (fingerprint W (url (article it))) W h) with
      | Returned v => if truthy v then others else it :: others
      | Threw _ => others
      end
  end.

(** The requests [sent] by a run of the digest handler that ended with
    [o] come in three phases.  First the reads of the cache for a prefix
    [visited] of the scored list; the run ends there when the last of them
    throws, or when the whole list was read and no article was unseen.
    Then one post: the digest of the articles of [visited] that were read
    as unseen; the run ends there when the post throws.  Then one write per
    item of that digest. *)
Definition run_in_phases (cfg : Config) (W : World) (o : Outcome Reply)
  (sent : History) : Prop :=
  exists visited rest : list Scored,
    scored_articles cfg W = (visited ++ rest)%list
    /\ let reads := map (query W) visited in
       let fresh := map (keyed W) (read_unseen W [] visited) in
       (exists (e : Exn) (front : list Scored) (last : Scored),
           visited = (front ++ [last])%list
           /\ fst (upstashGet (fingerprint W (url (article last))) W
                     (map (query W) front)) = Threw e
           /\ sent = reads /\ o = Threw e)
       \/ (fresh = [] /\ rest = []
           /\ sent = reads /\ o = Returned no_new_items)
       \/ (fresh <> []
           /\ sent = (reads ++ [digest_post W fresh])%list
           /\ exists e : Exn,
                fst (Digest.postDigestToSlack fresh W reads) = Threw e
                /\ o = Threw e)
       \/ (fresh <> []
           /\ sent = (reads ++ [digest_post W fresh]
                      ++ map mark_request fresh)%list
           /\ fst (Digest.postDigestToSlack fresh W reads) = Returned tt
           /\ (o = Returned (posted_digest (List.length fresh))
               \/ exists e : Exn, o = Threw e)).

(** The reply and the requests of a run in which every service answers:
    reads for the articles visited, and, when something is new, the digest
    and one write per item. *)
Definition healthy_run (W : World) (visited included : list Scored)
  : Outcome Reply * History :=
  match included with
  | [] => (Returned no_new_items, map (query W) visited)
  | _ :: _ =>
      (Returned (posted_digest (List.length included)),
       (map (query W) visited
        ++ [digest_post W (map (keyed W) included)]
        ++ map mark_request (map (keyed W) included))%list)
  end.

(** The section of the digest for an item: the first 300 characters of
    its title (the whole title when it is shorter), the bullets the
    condenser makes of its summary, at most two and each of them not empty
    and without white space at an end, then its URL, source and score. *)
Definition section_of (it : Fresh) (b : Block) : Prop :=
  let a := article (scored_item it) in
  exists (shown cut : string) (bullets : list string),
    b = ItemSection shown bullets (url a) (source a) (score (scored_item it))
    /\ title a = shown ++ cut
    /\ String.length shown = Nat.min 300 (String.length (title a))
    /\ bullets = makeSummaryBullets (summary a) 2
    /\ (List.length bullets <= 2)%nat
    /\ Forall neat bullets.

(** [b] occurs in [s]. *)
Definition occurs_in (b s : string) : Prop :=
  exists before after : string, s = before ++ b ++ after.

(** No string occurs twice in the list. *)
Fixpoint distinct (l : list string) : bool :=
  match l with
  | [] => true
  | x :: l' => negb (existsb (String.eqb x) l') && distinct l'
  end.

(** ** Notions for the per-article variant *)

(** The request [postToSlack] sends for a scored article. *)
Definition article_post (it : Scored) : Request :=
  let a := article it in
  SlackPost (ArticleLine (title a) (url a))
    [ ArticleTitle (slice (title a) 0 300);
      ArticleBody (slice (summary a) 0 700) (url a);
      ArticleContext (source a) (score it) ].

(** [key] was written earlier in the run. *)
Definition written (key : string) (h : History) : bool :=
  existsb (fun req => match req with
                      | KvSetEx k _ _ => String.eqb k key
                      | _ => false
                      end) h.

(** A store that records the writes of the run: a read of [key] returns a
    truthy value exactly when [key] was seen before the run or has been
    written since. *)
Definition store_records (W : World) (seen : string -> bool) : Prop :=
  forall (h : History) (key : string),
    exists v : JsVal,
      upstashGet key W h = (Returned v, (h ++ [KvGet key])%list)
      /\ truthy v = seen key || written key h.

(** The articles to post with such a store: those whose key is neither
    seen nor the key of an article picked before. *)
Fixpoint pick (W : World) (seen : string -> bool) (done : list string)
  (scored : list Scored) : list Scored :=
  match scored with
  | [] => []
  | it :: rest =>
      let k := fingerprint W (url (article it)) in
      if seen k || existsb (String.eqb k) done
      then pick W seen done rest
      else it :: pick W seen (k :: done) rest
  end.

Definition count (p : Request -> bool) (h : History) : nat :=
  List.length (filter p h).

Definition posted_reply (n : nat) : Reply :=
  {| code := 200; body := "OK - posted " ++ string_of_nat n |}.

(** The store of the examples, recording the writes of the run. *)
Definition recording_world : World :=
  {| sha1 := example_digest;
     parseURL := parseURL empty_store_world;
     reply := fun h req =>
                match req with
                | KvGet k => kv_result (if written k h then JStr "1" else JNull)
                | KvSetEx k _ _ => store_set k
                | SlackPost _ _ => slack_accepts
                end;
     today := "2025-01-01" |}.


(** ** The cap as a count *)

(** How many items a loop takes that tests [length >= cap] after it has
    added an item: the cap rounded up to a whole number, and 1 when that is
    below 1; [None] when nothing stops the loop, as no count is at least
    NaN or +Infinity. *)
Definition limit (cap : Num) : option nat :=
  match cap with
  | Finite q => Some (Z.to_nat (Z.max 1 (Qceiling q)))
  | NegInfinity => Some 1%nat
  | NaN | PosInfinity => None
  end.

(** The first items of [l] up to the limit [k]. *)
Definition take_limit {A : Type} (k : option nat) (l : list A) : list A :=
  match k with
  | Some n => firstn n l
  | None => l
  end.

(** The least integer that is at least the cap, when there is one: every
    count reaches -Infinity, none reaches +Infinity or NaN. *)
Definition threshold (cap : Num) : option Z :=
  match cap with
  | Finite q => Some (Qceiling q)
  | NegInfinity => Some 0
  | NaN | PosInfinity => None
  end.

(** How many more items the loop takes when it has [n]. *)
Definition allowance (cap : Num) (n : nat) : option nat :=
  option_map (fun c => room c n) (threshold cap).

(** ** Matching without regard to case *)

(** A capital letter of Latin-1: A to Z, or one of the letters from
    A-grave to Thorn (the multiplication sign among them is no letter).
    Its small letter is 32 places further. *)
Definition capital (c : ascii) : bool :=
  let n := nat_of_ascii c in
  (((65 <=? n) && (n <=? 90))
   || ((192 <=? n) && (n <=? 222) && negb (n =? 215)))%nat.

(** [c] and [d] are the same character, or the capital and the small form
    of one letter. *)
Definition same_letter (c d : ascii) : bool :=
  Ascii.eqb c d
  || (capital c && (nat_of_ascii d =? nat_of_ascii c + 32)%nat)
  || (capital d && (nat_of_ascii c =? nat_of_ascii d + 32)%nat).

(** [u] and [t] are the same string up to the case of their letters. *)
Fixpoint same_ignoring_case (u t : string) : bool :=
  match u, t with
  | EmptyString, EmptyString => true
  | String c u', String d t' => same_letter c d && same_ignoring_case u' t'
  | _, _ => false
  end.

(** The text mentions the term: some part of the text is the term, up to
    the case of its letters. *)
Definition mentions (text term : string) : Prop :=
  exists before u after : string,
    text = before ++ u ++ after /\ same_ignoring_case u term = true.

(** [score] is 3 for each term of [high] and 2 for each term of [infra]
    that the text mentions: [found_high] and [found_infra] are the terms
    mentioned, each taken from its list. *)
Definition counts_terms (high infra : list string) (text : string)
  (score : Z) : Prop :=
  exists found_high found_infra : list string,
    subseq found_high high
    /\ subseq found_infra infra
    /\ (forall t, In t high -> (In t found_high <-> mentions text t))
    /\ (forall t, In t infra -> (In t found_infra <-> mentions text t))
    /\ score = 3 * Z.of_nat (List.length found_high)
               + 2 * Z.of_nat (List.length found_infra).

(** All the characters. *)
Definition all_ascii : list ascii := map ascii_of_nat (seq 0 256).

(** * Properties *)

(** ** Strings *)

Lemma prefix_app (p s : string) :
  prefix p s = true <-> exists b, s = p ++ b.
Proof.
  revert s; induction p as [|c p IH]; intros s; simpl.
  - split; [intros _; exists s; reflexivity | destruct s; reflexivity].
  - destruct s as [|d s]; simpl.
    + split; [discriminate | intros [b Hb]; discriminate].
    + destruct (ascii_dec c d) as [->|Hcd].
      * rewrite IH; split; intros [b Hb]; exists b; congruence.
      * split; [discriminate | intros [b Hb]; congruence].
Qed.

(** [includes] is substring containment. *)
Lemma includes_spec (s pat : string) :
  includes s pat = true <-> exists a b, s = a ++ pat ++ b.
Proof.
  induction s as [|c s IH]; cbn [includes].
  - rewrite orb_false_r, prefix_app; split.
    + intros [b Hb]; exists "", b; exact Hb.
    + intros [[|a0 a] [b Hb]]; [exists b; exact Hb | discriminate].
  - rewrite orb_true_iff, prefix_app, IH; split.
    + intros [[b Hb] | (a & b & Hab)].
      * exists "", b; exact Hb.
      * exists (String c a), b; simpl; congruence.
    + intros ([|a0 a] & b & Hab); simpl in Hab.
      * left; exists b; exact Hab.
      * right; exists a, b; congruence.
Qed.

Lemma lower_char_idem (c : ascii) : lower_char (lower_char c) = lower_char c.
Proof. destruct c as [[] [] [] [] [] [] [] []]; reflexivity. Qed.

Lemma toLowerCase_idem (s : string) : toLowerCase (toLowerCase s) = toLowerCase s.
Proof.
  induction s as [|c s IH]; simpl; [reflexivity|].
  now rewrite lower_char_idem, IH.
Qed.

Lemma toLowerCase_app (a b : string) :
  toLowerCase (a ++ b) = toLowerCase a ++ toLowerCase b.
Proof. induction a as [|c a IH]; simpl; [reflexivity | now rewrite IH]. Qed.

(** ** The scorer *)


Lemma add_matches_count (w : Z) (terms : list string) (txt : string) (s : Z) :
  add_matches w terms txt s = s + w * Z.of_nat (matches txt terms).
Proof.
  unfold add_matches, matches; revert s.
  induction terms as [|t terms IH]; intros s; simpl; [lia|].
  rewrite IH; destruct (includes txt t); simpl List.length; lia.
Qed.

Lemma matches_le (txt : string) (terms : list string) :
  (matches txt terms <= List.length terms)%nat.
Proof. apply filter_length_le. Qed.

Lemma score_with_formula (high infra : list string) (t s : string) :
  score_with high infra t s =
    3 * Z.of_nat (matches (toLowerCase (t ++ " " ++ s)) high)
    + 2 * Z.of_nat (matches (toLowerCase (t ++ " " ++ s)) infra).
Proof. unfold score_with; rewrite !add_matches_count; lia. Qed.

Lemma score_with_lower (high infra : list string) (t s : string) :
  score_with high infra (toLowerCase t) (toLowerCase s)
  = score_with high infra t s.
Proof.
  unfold score_with.
  now rewrite !toLowerCase_app, !toLowerCase_idem.
Qed.

Lemma score_with_bounds (high infra : list string) (t s : string) :
  0 <= score_with high infra t s
    <= 3 * Z.of_nat (List.length high) + 2 * Z.of_nat (List.length infra).
Proof.
  rewrite score_with_formula.
  pose proof (matches_le (toLowerCase (t ++ " " ++ s)) high).
  pose proof (matches_le (toLowerCase (t ++ " " ++ s)) infra).
  lia.
Qed.

Lemma str_app_assoc (a b c : string) : (a ++ b) ++ c = a ++ b ++ c.
Proof. induction a as [|x a IH]; cbn; [reflexivity | now rewrite IH]. Qed.

Lemma str_app_nil_r (a : string) : a ++ "" = a.
Proof. induction a as [|x a IH]; cbn; [reflexivity | now rewrite IH]. Qed.

Lemma NoDup_strings (l : list string) : distinct l = true -> NoDup l.
Proof.
  induction l as [|x l IH]; cbn [distinct]; intros H; constructor.
  - apply andb_prop in H; destruct H as [H _].
    intros Hin; apply negb_true_iff in H.
    assert (existsb (String.eqb x) l = true); [|congruence].
    apply existsb_exists; exists x; split; [exact Hin | apply String.eqb_refl].
  - apply andb_prop in H; destruct H as [_ H]; now apply IH.
Qed.

Lemma subseq_nil_l {A : Type} (l : list A) : subseq [] l.
Proof. induction l; constructor; assumption. Qed.

Lemma subseq_filter {A : Type} (p : A -> bool) (l : list A) :
  subseq (filter p l) l.
Proof.
  induction l as [|x l IH]; cbn [filter]; [constructor|].
  destruct (p x); now constructor.
Qed.

Lemma all_ascii_complete (P : ascii -> bool) :
  forallb P all_ascii = true -> forall c : ascii, P c = true.
Proof.
  intros H c; rewrite forallb_forall in H; apply H.
  rewrite <- (ascii_nat_embedding c); unfold all_ascii.
  apply in_map, in_seq; pose proof (nat_ascii_bounded c); lia.
Qed.

(** Lower-casing a character gives the same letter. *)
Lemma same_letter_lower (c : ascii) : same_letter c (lower_char c) = true.
Proof.
  revert c; apply (all_ascii_complete (fun c => same_letter c (lower_char c))).
  vm_compute; reflexivity.
Qed.

(** A character that is the same letter as one in lower case lower-cases
    to it. *)
Lemma same_letter_lowered (c d : ascii) :
  same_letter c d = true -> lower_char d = d -> lower_char c = d.
Proof.
  pose (P := fun c d =>
               implb (same_letter c d && Ascii.eqb (lower_char d) d)
                 (Ascii.eqb (lower_char c) d)).
  assert (G : forall c d, P c d = true).
  { intros c0 d0; refine (all_ascii_complete (fun d => P c0 d) _ d0).
    revert c0.
    refine (all_ascii_complete (fun c => forallb (fun d => P c d) all_ascii) _).
    vm_compute; reflexivity. }
  intros H1 H2; specialize (G c d); unfold P in G.
  rewrite H1, H2, Ascii.eqb_refl in G; cbn in G.
  now apply Ascii.eqb_eq.
Qed.

Lemma same_toLowerCase (u : string) :
  same_ignoring_case u (toLowerCase u) = true.
Proof.
  induction u as [|c u IH]; cbn [toLowerCase same_ignoring_case];
    [reflexivity|].
  now rewrite same_letter_lower, IH.
Qed.

Lemma same_lowered (u t : string) :
  same_ignoring_case u t = true -> toLowerCase t = t -> toLowerCase u = t.
Proof.
  revert t; induction u as [|c u IH]; intros [|d t];
    cbn [toLowerCase same_ignoring_case]; try discriminate; [reflexivity|].
  intros H E; apply andb_prop in H; destruct H as [H1 H2].
  injection E as E1 E2.
  now rewrite (same_letter_lowered c d H1 E1), (IH t H2 E2).
Qed.

(** A split of the lower-cased text comes from a split of the text. *)
Lemma toLowerCase_split (x y : string) :
  forall s : string,
    toLowerCase s = x ++ y ->
    exists a b : string,
      s = a ++ b /\ toLowerCase a = x /\ toLowerCase b = y.
Proof.
  induction x as [|c x IH]; intros s E.
  - exists "", s; repeat split; exact E.
  - destruct s as [|d s]; [discriminate|].
    cbn [toLowerCase append] in E; injection E as E1 E2.
    destruct (IH s E2) as (a & b & -> & Ha & Hb).
    exists (String d a), b; cbn [toLowerCase append].
    now rewrite E1, Ha.
Qed.

(** What the scorer tests for a term in lower case: that the text
    mentions it, in whatever case. *)
Lemma includes_lower_mentions (text t : string) :
  toLowerCase t = t ->
  includes (toLowerCase text) t = true <-> mentions text t.
Proof.
  intros Ht; rewrite includes_spec; split.
  - intros (x & y & E).
    destruct (toLowerCase_split x (t ++ y) text E) as (a & r & -> & _ & Hr).
    destruct (toLowerCase_split t y r Hr) as (u & b & -> & Hu & _).
    exists a, u, b; split; [reflexivity|].
    rewrite <- Hu; apply same_toLowerCase.
  - intros (a & u & b & -> & Hu).
    exists (toLowerCase a), (toLowerCase b).
    now rewrite !toLowerCase_app, (same_lowered u t Hu Ht).
Qed.

Lemma score_with_counts (high infra : list string) (title summary : string) :
  Forall (fun t => toLowerCase t = t) (high ++ infra) ->
  counts_terms high infra (title ++ " " ++ summary)
    (score_with high infra title summary).
Proof.
  intros Hl; rewrite Forall_forall in Hl.
  set (txt := toLowerCase (title ++ " " ++ summary)).
  exists (filter (includes txt) high), (filter (includes txt) infra).
  split; [apply subseq_filter|]; split; [apply subseq_filter|].
  split; [|split].
  - intros t Ht; rewrite filter_In; unfold txt.
    rewrite includes_lower_mentions
      by (apply Hl, in_or_app; now left); tauto.
  - intros t Ht; rewrite filter_In; unfold txt.
    rewrite includes_lower_mentions
      by (apply Hl, in_or_app; now right); tauto.
  - apply score_with_formula.
Qed.

(** C7. The score is 3 for each high-signal term and 2 for each
    infrastructure-vendor term that the text [title + " " + summary]
    mentions, where a text mentions a term when some part of it is the
    term up to the case of its letters; no term is listed twice.  In the
    words of the code: a term counts when it occurs, as a substring, in the
    lower-cased text; the terms are in lower case, so the score depends on
    title and summary only through their lower-cased forms.  It is 0 when
    both are empty, and a title in capitals scores as in small letters.
    The same holds of the scorer of [src/api/cron.js] with its own two
    keyword sets. *)
Theorem scoreArticle_counts_matching_terms :
  forall title summary : string,
    let text := title ++ " " ++ summary in
    let txt := toLowerCase text in
    counts_terms Digest.high Digest.infra text
      (Digest.scoreArticle title summary)
    /\ counts_terms PerArticle.high PerArticle.infra text
         (PerArticle.scoreArticle title summary)
    /\ NoDup Digest.high /\ NoDup Digest.infra
    /\ NoDup PerArticle.high /\ NoDup PerArticle.infra
    /\ Digest.scoreArticle title summary
       = 3 * Z.of_nat (matches txt Digest.high)
         + 2 * Z.of_nat (matches txt Digest.infra)
    /\ PerArticle.scoreArticle title summary
       = 3 * Z.of_nat (matches txt PerArticle.high)
         + 2 * Z.of_nat (matches txt PerArticle.infra)
    /\ (forall t : string, includes txt t = true <-> occurs_in t txt)
    /\ Digest.scoreArticle (toLowerCase title) (toLowerCase summary)
       = Digest.scoreArticle title summary
    /\ PerArticle.scoreArticle (toLowerCase title) (toLowerCase summary)
       = PerArticle.scoreArticle title summary
    /\ Forall (fun t => toLowerCase t = t)
         (Digest.high ++ Digest.infra ++ PerArticle.high ++ PerArticle.infra)
    /\ Digest.scoreArticle "" "" = 0
    /\ PerArticle.scoreArticle "" "" = 0
    /\ Digest.scoreArticle "NVIDIA Raises FUNDING" "for a GPU Data Center" = 13
    /\ Digest.scoreArticle "nvidia raises funding" "for a gpu data center" = 13
    /\ PerArticle.scoreArticle "NVIDIA Raises FUNDING" "for a GPU Data Center"
       = 13.
Proof.
  intros title summary text txt.
  assert (Hd : Forall (fun t => toLowerCase t = t)
                 (Digest.high ++ Digest.infra)) by (repeat constructor).
  assert (Hp : Forall (fun t => toLowerCase t = t)
                 (PerArticle.high ++ PerArticle.infra))
    by (repeat constructor).
  split; [exact (score_with_counts _ _ title summary Hd)|].
  split; [exact (score_with_counts _ _ title summary Hp)|].
  do 4 (split; [apply NoDup_strings; reflexivity|]).
  unfold Digest.scoreArticle, PerArticle.scoreArticle.
  split; [apply score_with_formula|].
  split; [apply score_with_formula|].
  split; [intros t; apply includes_spec|].
  split; [apply score_with_lower|].
  split; [apply score_with_lower|].
  split; [repeat constructor|].
  repeat split; vm_compute; reflexivity.
Qed.

(** C9, as the code has it: every term counts once, so the score lies
    between 0 and 3 * 20 + 2 * 8 = 76 (between 0 and 3 * 18 + 2 * 18 = 90
    for the scorer of [src/api/cron.js]), and a title naming every term
    reaches that maximum. *)
Theorem scoreArticle_bounded :
  forall title summary : string,
    0 <= Digest.scoreArticle title summary <= 76
    /\ 0 <= PerArticle.scoreArticle title summary <= 90
    /\ Digest.scoreArticle (every_term Digest.high Digest.infra) "" = 76
    /\ PerArticle.scoreArticle
         (every_term PerArticle.high PerArticle.infra) "" = 90.
Proof.
  intros title summary.
  split; [exact (score_with_bounds Digest.high Digest.infra title summary)|].
  split; [exact (score_with_bounds PerArticle.high PerArticle.infra
                   title summary)|].
  split; vm_compute; reflexivity.
Qed.

(** C9 as stated fails: no title and summary score above 76. *)
Lemma scoreArticle_unbounded_fails :
  ~ (forall B : Z, exists title summary : string,
        B < Digest.scoreArticle title summary).
Proof.
  intros H; destruct (H 76) as (t & s & Hts).
  pose proof (score_with_bounds Digest.high Digest.infra t s) as Hb.
  unfold Digest.scoreArticle in Hts; simpl List.length in Hb; lia.
Qed.

(** ** Sorting by a key, largest first *)

Section SortByKey.

Context {A : Type}.
Variable key : A -> Z.

(** The comparator [(a, b) => b.key - a.key]. *)
Local Abbreviation cmp := (fun a b : A => key b - key a).

Local Abbreviation descending := (descending key).
Local Abbreviation with_key := (with_key key).

Lemma sort_insert_perm (x : A) (l : list A) :
  Permutation (sort_insert cmp x l) (x :: l).
Proof.
  induction l as [|y l IH]; simpl; [reflexivity|].
  destruct (cmp x y <=? 0); [reflexivity|].
  rewrite IH; apply perm_swap.
Qed.

Lemma array_sort_perm (l : list A) : Permutation (array_sort cmp l) l.
Proof.
  induction l as [|x l IH]; simpl; [reflexivity|].
  rewrite sort_insert_perm; now constructor.
Qed.

Lemma sort_insert_descending (x : A) (l : list A) :
  descending l -> descending (sort_insert cmp x l).
Proof.
  unfold descending; induction 1 as [|y l Hl IH Hy]; simpl.
  - repeat constructor.
  - destruct (cmp x y <=? 0) eqn:E; cbv beta in E.
    + constructor; [now constructor|].
      constructor; [lia|].
      rewrite Forall_forall in *; intros z Hz; specialize (Hy z Hz); lia.
    + constructor; [exact IH|].
      rewrite Forall_forall; intros z Hz.
      apply (Permutation_in _ (sort_insert_perm x l)) in Hz.
      destruct Hz as [<-|Hz]; [lia|].
      rewrite Forall_forall in Hy; now apply Hy.
Qed.

Lemma array_sort_descending (l : list A) : descending (array_sort cmp l).
Proof.
  induction l as [|x l IH]; simpl; [constructor|].
  now apply sort_insert_descending.
Qed.



Lemma with_key_head (x : A) (l : list A) :
  with_key (key x) (x :: l) = x :: with_key (key x) l.
Proof. unfold with_key; simpl; now rewrite Z.eqb_refl. Qed.

Lemma with_key_In (k : Z) (x : A) (l : list A) :
  In x (with_key k l) <-> In x l /\ key x = k.
Proof. unfold with_key; rewrite filter_In, Z.eqb_eq; tauto. Qed.

(** A descending list is determined by its elements key by key: any
    sorting procedure that is stable returns what [array_sort] returns. *)
Lemma descending_unique (l1 l2 : list A) :
  descending l1 -> descending l2 ->
  (forall k, with_key k l1 = with_key k l2) ->
  l1 = l2.
Proof.
  intros H1; revert l2; induction H1 as [|x l1 Hl1 IH Hx]; intros l2 H2 Hk.
  - destruct l2 as [|y l2]; [reflexivity|].
    specialize (Hk (key y)); rewrite with_key_head in Hk; discriminate.
  - destruct H2 as [|y l2 Hl2 Hy].
    + specialize (Hk (key x)); rewrite with_key_head in Hk; discriminate.
    + assert (Hxy : key x = key y).
      { assert (In x (with_key (key x) (y :: l2))) as Hin1
          by (rewrite <- Hk, with_key_head; now left).
        assert (In y (with_key (key y) (x :: l1))) as Hin2
          by (rewrite Hk, with_key_head; now left).
        apply with_key_In in Hin1, Hin2.
        rewrite Forall_forall in Hx, Hy.
        destruct Hin1 as [[->|Hin1] _]; [reflexivity|].
        destruct Hin2 as [[->|Hin2] _]; [reflexivity|].
        specialize (Hx y Hin2); specialize (Hy x Hin1); lia. }
      assert (x = y) as <-.
      { specialize (Hk (key x)); rewrite with_key_head in Hk.
        rewrite Hxy, with_key_head in Hk; congruence. }
      f_equal; apply IH; [exact Hl2|].
      intros k; specialize (Hk k); unfold with_key in *; simpl in Hk.
      destruct (key x =? k); congruence.
Qed.

End SortByKey.

(** ** ScoreAndFilter *)


Lemma js_ge_no_less (z : Z) (x : Num) : js_ge z x = true <-> no_less z x.
Proof.
  destruct x as [| | |q]; cbn [js_ge no_less];
    [split; [discriminate | tauto] | tauto
    | split; [discriminate | tauto] | apply Qle_bool_iff].
Qed.



(** ** The cache client *)

Lemma upstashGet_run (key : string) (W : World) (h : History) :
  upstashGet key W h =
    let h' := (h ++ [KvGet key])%list in
    match reply W h (KvGet key) with
    | Rejected => (Threw FetchFailed, h')
    | Got r =>
        if negb (ok r) then (Returned JNull, h')
        else match json_body r with
             | None => (Threw JsonSyntaxError, h')
             | Some v => get_prop v "result" W h'
             end
    end.
Proof.
  unfold upstashGet, bind, fetch, json.
  destruct (reply W h (KvGet key)) as [|r]; [reflexivity|].
  destruct (ok r); simpl; [|reflexivity].
  destruct (json_body r); reflexivity.
Qed.

Lemma get_prop_history (v : JsVal) (name : string) (W : World) (h : History) :
  snd (get_prop v name W h) = h.
Proof. destruct v; reflexivity. Qed.

(** A read sends exactly one request, whatever comes back. *)
Lemma upstashGet_history (key : string) (W : World) (h : History) :
  snd (upstashGet key W h) = (h ++ [KvGet key])%list.
Proof.
  rewrite upstashGet_run; cbv zeta.
  destruct (reply W h (KvGet key)) as [|r]; [reflexivity|].
  destruct (ok r); simpl; [|reflexivity].
  destruct (json_body r); [apply get_prop_history | reflexivity].
Qed.

Lemma upstashSetEx_run (key value : string) (ex : Z) (W : World) (h : History) :
  upstashSetEx key value ex W h =
    match reply W h (KvSetEx key value ex) with
    | Rejected => (Threw FetchFailed, (h ++ [KvSetEx key value ex])%list)
    | Got r => (Returned (ok r), (h ++ [KvSetEx key value ex])%list)
    end.
Proof.
  unfold upstashSetEx, bind, fetch.
  destruct (reply W h (KvSetEx key value ex)); reflexivity.
Qed.

(** ** DedupeAndCap: the loop of the digest variant *)

Lemma collectFresh_step (cap : Num) (it : Scored) (rest : list Scored)
  (fresh : list Fresh) (W : World) (h : History) :
  Digest.collectFresh cap (it :: rest) fresh W h =
    match upstashGet (fingerprint W (url (article it))) W h with
    | (Returned seen, h') =>
        if truthy seen then Digest.collectFresh cap rest fresh W h'
        else
          let fresh' := (fresh ++ [keyed W it])%list in
          if reaches (List.length fresh') cap then (Returned fresh', h')
          else Digest.collectFresh cap rest fresh' W h'
    | (Threw e, h') => (Threw e, h')
    end.
Proof.
  cbn [Digest.collectFresh]; unfold bind at 1; unfold sha1Hex at 1.
  unfold bind at 1.
  destruct (upstashGet _ W h) as [[v|e] h']; [|reflexivity].
  destruct (truthy v); [reflexivity|].
  cbv zeta; unfold keyed.
  destruct (reaches _ cap); reflexivity.
Qed.

(** The loop only reads: whatever happens, it extends the history by the
    reads of a prefix of the list. *)
Lemma collectFresh_history (cap : Num) (W : World) (scored : list Scored) :
  forall (fresh : list Fresh) (h : History),
    exists visited rest,
      scored = (visited ++ rest)%list
      /\ snd (Digest.collectFresh cap scored fresh W h)
         = (h ++ map (query W) visited)%list.
Proof.
  induction scored as [|it tl IH]; intros fresh h.
  - exists [], []; split; [reflexivity|]; simpl; now rewrite app_nil_r.
  - rewrite collectFresh_step.
    pose proof (upstashGet_history (fingerprint W (url (article it))) W h) as Hh.
    destruct (upstashGet _ W h) as [[v|e] h']; simpl in Hh; subst h'.
    + destruct (truthy v).
      * destruct (IH fresh (h ++ [query W it])%list) as (vis & rest & -> & E).
        exists (it :: vis), rest; split; [reflexivity|].
        unfold query in *; rewrite E; simpl; now rewrite <- app_assoc.
      * cbv zeta; destruct (reaches _ cap).
        -- exists [it], tl; split; reflexivity.
        -- destruct (IH (fresh ++ [keyed W it])%list (h ++ [query W it])%list)
             as (vis & rest & -> & E).
           exists (it :: vis), rest; split; [reflexivity|].
           unfold query in *; rewrite E; simpl; now rewrite <- app_assoc.
    + exists [it], tl; split; reflexivity.
Qed.

(** A count reaches the cap when it is at least its threshold. *)
Lemma reaches_threshold (n : nat) (cap : Num) :
  reaches n cap = match threshold cap with
                  | Some c => c <=? Z.of_nat n
                  | None => false
                  end.
Proof.
  unfold reaches; destruct cap as [| | |q]; cbn [js_ge threshold];
    try reflexivity.
  - symmetry; apply Z.leb_le; lia.
  - apply Bool.eq_iff_eq_true; rewrite Qle_bool_iff, Z.leb_le; split.
    + intros H; apply Qceiling_resp_le in H; now rewrite Qceiling_Z in H.
    + intros H; apply (Qle_trans _ (inject_Z (Qceiling q)));
        [apply Qle_ceiling | now rewrite <- Zle_Qle].
Qed.

Lemma threshold_num_of_Z (z : Z) : threshold (num_of_Z z) = Some z.
Proof. unfold num_of_Z; cbn [threshold]; now rewrite Qceiling_Z. Qed.

Lemma reaches_num_of_Z (n : nat) (z : Z) :
  reaches n (num_of_Z z) = (z <=? Z.of_nat n).
Proof. now rewrite reaches_threshold, threshold_num_of_Z. Qed.

Lemma limit_num_of_Z (z : Z) : limit (num_of_Z z) = Some (Z.to_nat (Z.max 1 z)).
Proof. unfold num_of_Z; cbn [limit]; now rewrite Qceiling_Z. Qed.

(** A cap of 2.5 is reached by the third item, a cap of 0 by the first;
    nothing reaches NaN. *)
Lemma limit_examples :
  limit (Finite (5 # 2)) = Some 3%nat
  /\ reaches 2 (Finite (5 # 2)) = false
  /\ reaches 3 (Finite (5 # 2)) = true
  /\ limit (num_of_Z 10) = Some 10%nat
  /\ limit (num_of_Z 0) = Some 1%nat
  /\ limit NegInfinity = Some 1%nat
  /\ limit NaN = None
  /\ limit PosInfinity = None.
Proof. repeat split. Qed.

Lemma limit_allowance (cap : Num) : limit cap = allowance cap 0.
Proof.
  unfold allowance, room; destruct cap as [| | |q];
    cbn [limit threshold option_map Z.of_nat]; try reflexivity.
  now rewrite Z.sub_0_r.
Qed.

(** The loop against a cache that answers, for a cap with a threshold. *)
Lemma collectFresh_answers (W : World) (seen : string -> bool) (cap : Num)
  (c : Z) :
  threshold cap = Some c ->
  cache_answers W seen ->
  forall (scored : list Scored) (fresh : list Fresh) (h : History),
    let included :=
      firstn (room c (List.length fresh)) (filter (unseen W seen) scored) in
    exists visited rest,
      scored = (visited ++ rest)%list
      /\ Digest.collectFresh cap scored fresh W h
         = (Returned (fresh ++ map (keyed W) included)%list,
            (h ++ map (query W) visited)%list)
      /\ filter (unseen W seen) visited = included
      /\ (rest <> [] ->
          List.length included = room c (List.length fresh)
          /\ exists front last,
               visited = (front ++ [last])%list /\ unseen W seen last = true).
Proof.
  intros Hc HW; induction scored as [|it tl IH]; intros fresh h.
  - exists [], []; cbn; rewrite firstn_nil, !app_nil_r.
    split; [reflexivity|]; split; [reflexivity|]; split; [reflexivity|].
    intros H; now contradiction H.
  - cbv zeta; rewrite collectFresh_step.
    destruct (HW h (fingerprint W (url (article it)))) as (v & -> & Hv).
    assert (Hu : unseen W seen it = negb (truthy v))
      by (unfold unseen; now rewrite Hv).
    cbn [filter]; rewrite Hu.
    destruct (truthy v) eqn:Ev; cbn [negb].
    + destruct (IH fresh (h ++ [query W it])%list)
        as (vis & rest & -> & E & F & L).
      exists (it :: vis), rest; split; [reflexivity|].
      unfold query at 1 in E; rewrite E; cbn [map filter app].
      rewrite Hu; cbn [negb].
      rewrite <- app_assoc.
      split; [reflexivity|]; split; [exact F|].
      intros Hr; destruct (L Hr) as (Hlen & front & last & -> & Hl).
      split; [exact Hlen|].
      exists (it :: front), last; now split.
    + cbv zeta; rewrite length_app; cbn [List.length].
      rewrite reaches_threshold, Hc.
      destruct (c <=? _) eqn:E.
      * apply Z.leb_le in E.
        assert (room c (List.length fresh) = 1%nat) as ->
          by (unfold room; lia).
        exists [it], tl; cbn [firstn map filter app].
        rewrite Hu; cbn [negb].
        split; [reflexivity|]; split; [reflexivity|]; split; [reflexivity|].
        intros _; split; [reflexivity|].
        exists [], it; split; [reflexivity|].
        now rewrite Hu.
      * apply Z.leb_gt in E.
        assert (room c (List.length fresh)
                = S (room c (List.length fresh + 1))) as ->
          by (unfold room; lia).
        destruct (IH (fresh ++ [keyed W it])%list (h ++ [query W it])%list)
          as (vis & rest & -> & E' & F & L).
        rewrite length_app in E', F, L; cbn [List.length] in E', F, L.
        exists (it :: vis), rest; split; [reflexivity|].
        unfold query at 1 in E'; rewrite E'; cbn [firstn map filter app].
        rewrite Hu; cbn [negb].
        rewrite <- !app_assoc; cbn [app].
        split; [reflexivity|]; split; [now rewrite F|].
        intros Hr; destruct (L Hr) as (Hlen & front & last & -> & Hl).
        split; [cbn [List.length]; now rewrite Hlen|].
        exists (it :: front), last; now split.
Qed.

(** The loop against a cache that answers, for a cap that no count
    reaches: it visits the whole list. *)
Lemma collectFresh_answers_unbounded (W : World) (seen : string -> bool)
  (cap : Num) :
  threshold cap = None ->
  cache_answers W seen ->
  forall (scored : list Scored) (fresh : list Fresh) (h : History),
    Digest.collectFresh cap scored fresh W h
    = (Returned (fresh ++ map (keyed W) (filter (unseen W seen) scored))%list,
       (h ++ map (query W) scored)%list).
Proof.
  intros Hc HW; induction scored as [|it tl IH]; intros fresh h.
  - cbn; now rewrite !app_nil_r.
  - rewrite collectFresh_step.
    destruct (HW h (fingerprint W (url (article it)))) as (v & -> & Hv).
    assert (Hu : unseen W seen it = negb (truthy v))
      by (unfold unseen; now rewrite Hv).
    cbn [filter map]; rewrite Hu.
    destruct (truthy v); cbn [negb].
    + rewrite IH; unfold query at 2; now rewrite <- app_assoc.
    + cbv zeta; rewrite reaches_threshold, Hc, IH.
      unfold query at 2; cbn [map]; now rewrite <- !app_assoc.
Qed.

(** The loop against a cache that answers, for every cap: it returns the
    unseen articles up to the limit of the cap, after reading the cache for
    a prefix of the list that is the whole list or ends with the last
    article it takes. *)
Lemma collectFresh_cache_answers (W : World) (seen : string -> bool)
  (cap : Num) :
  cache_answers W seen ->
  forall (scored : list Scored) (h : History),
    let included := take_limit (limit cap) (filter (unseen W seen) scored) in
    exists visited rest,
      scored = (visited ++ rest)%list
      /\ Digest.collectFresh cap scored [] W h
         = (Returned (map (keyed W) included),
            (h ++ map (query W) visited)%list)
      /\ filter (unseen W seen) visited = included
      /\ (rest <> [] ->
          limit cap = Some (List.length included)
          /\ exists front last,
               visited = (front ++ [last])%list /\ unseen W seen last = true).
Proof.
  intros HW scored h; rewrite limit_allowance; unfold allowance.
  destruct (threshold cap) as [c|] eqn:Hc; cbn [option_map take_limit].
  - destruct (collectFresh_answers W seen cap c Hc HW scored [] h)
      as (vis & rest & Hs & E & F & L).
    cbn [List.length app] in E, F, L.
    exists vis, rest.
    split; [exact Hs|]; split; [exact E|]; split; [exact F|].
    intros Hr; destruct (L Hr) as (Hlen & Hlast).
    split; [now rewrite Hlen | exact Hlast].
  - exists scored, []; rewrite app_nil_r.
    rewrite (collectFresh_answers_unbounded W seen cap Hc HW scored [] h).
    split; [reflexivity|]; split; [reflexivity|]; split; [reflexivity|].
    intros H; now contradiction H.
Qed.

Lemma descending_filter {A : Type} (key : A -> Z) (p : A -> bool) (l : list A) :
  descending key l -> descending key (filter p l).
Proof.
  unfold descending; induction 1 as [|x l Hl IH Hx]; simpl; [constructor|].
  destruct (p x); [|exact IH].
  constructor; [exact IH|].
  rewrite Forall_forall in *; intros y Hy; apply filter_In in Hy.
  now apply Hx.
Qed.

Lemma descending_firstn {A : Type} (key : A -> Z) (n : nat) (l : list A) :
  descending key l -> descending key (firstn n l).
Proof.
  unfold descending; intros H; revert n.
  induction H as [|x l Hl IH Hx]; intros [|n]; simpl; try constructor.
  - apply IH.
  - rewrite Forall_forall in *; intros y Hy; apply Hx.
    rewrite <- (firstn_skipn n l); apply in_or_app; now left.
Qed.

(** C4, at the failing input.  With [POST_MAX = 0] and the two unseen
    articles of the example feed, both above the threshold, the loop reads
    the cache once and returns the first article, and the handler posts a
    digest of one item and marks it: the cap is tested after the item is
    added, so one article is included where "up to POST_MAX" allows
    none. *)
Theorem collectFresh_cap_zero_includes_one :
  let W := empty_store_world in
  let included := map (keyed W) (firstn 1 example_scored) in
  filter (unseen W (fun _ => false)) example_scored = example_scored
  /\ List.length example_scored = 2%nat
  /\ List.length included = 1%nat
  /\ Digest.collectFresh (num_of_Z 0) example_scored [] W []
     = (Returned included, [KvGet "61"])
  /\ Digest.handler (example_config 0) W []
     = (Returned (posted_digest 1),
        ([KvGet "61"] ++ [digest_post W included]
         ++ map mark_request included)%list).
Proof.
  repeat split; vm_compute; reflexivity.
Qed.

(** C2, for the failure the client handles.  When the store answers a read
    with a response that is not a success, [upstashGet] returns [null],
    which is falsy, and the loop treats the article as not seen: it is
    added to the collected items and the run goes on, for a whole cap and
    for any other number. *)
Theorem upstashGet_non_success_means_unseen :
  forall (W : World) (h : History) (key : string) (r : Response),
    reply W h (KvGet key) = Got r ->
    ok r = false ->
    upstashGet key W h = (Returned JNull, (h ++ [KvGet key])%list)
    /\ truthy JNull = false
    /\ (forall (pm : Z) (it : Scored) (rest : list Scored) (fresh : list Fresh),
         fingerprint W (url (article it)) = key ->
         Digest.collectFresh pm (it :: rest) fresh W h
         = if Z.of_nat (List.length (fresh ++ [keyed W it])) >=? pm
           then (Returned (fresh ++ [keyed W it])%list, (h ++ [KvGet key])%list)
           else Digest.collectFresh pm rest (fresh ++ [keyed W it])%list W
                  (h ++ [KvGet key])%list)
    /\ forall (cap : Num) (it : Scored) (rest : list Scored)
              (fresh : list Fresh),
         fingerprint W (url (article it)) = key ->
         Digest.collectFresh cap (it :: rest) fresh W h
         = if reaches (List.length (fresh ++ [keyed W it])) cap
           then (Returned (fresh ++ [keyed W it])%list, (h ++ [KvGet key])%list)
           else Digest.collectFresh cap rest (fresh ++ [keyed W it])%list W
                  (h ++ [KvGet key])%list.
Proof.
  intros W h key r Hr Hok.
  assert (E : upstashGet key W h = (Returned JNull, (h ++ [KvGet key])%list))
    by (rewrite upstashGet_run, Hr, Hok; reflexivity).
  split; [exact E|]; split; [reflexivity|].
  assert (G : forall (cap : Num) (it : Scored) (rest : list Scored)
                     (fresh : list Fresh),
             fingerprint W (url (article it)) = key ->
             Digest.collectFresh cap (it :: rest) fresh W h
             = if reaches (List.length (fresh ++ [keyed W it])) cap
               then (Returned (fresh ++ [keyed W it])%list,
                     (h ++ [KvGet key])%list)
               else Digest.collectFresh cap rest (fresh ++ [keyed W it])%list W
                      (h ++ [KvGet key])%list).
  { intros cap it rest fresh Hk.
    rewrite collectFresh_step, Hk, E; reflexivity. }
  split; [|exact G].
  intros pm it rest fresh Hk.
  rewrite (G (num_of_Z pm) it rest fresh Hk), reaches_num_of_Z, Z.geb_leb.
  reflexivity.
Qed.

Lemma upstashGet_non_success_means_unseen_witness :
  reply erroring_store_world [] (KvGet "61") = server_error
  /\ upstashGet "61" erroring_store_world [] = (Returned JNull, [KvGet "61"]).
Proof.
  split; [reflexivity|].
  exact (proj1 (upstashGet_non_success_means_unseen erroring_store_world []
                  "61" {| ok := false; status := 500; json_body := None |}
                  eq_refl eq_refl)).
Defined.

(** C2 as stated fails when the store cannot be reached: [fetch] rejects,
    nothing catches the rejection, and the run is aborted. *)
Lemma unreachable_store_aborts_the_run :
  reply unreachable_world [] (KvGet "61") = Rejected
  /\ upstashGet "61" unreachable_world [] = (Threw FetchFailed, [KvGet "61"])
  /\ Digest.handler (example_config 10) unreachable_world []
     = (Threw FetchFailed, [KvGet "61"]).
Proof. repeat split. Qed.

(** ** Notify and MarkSeen *)

Lemma check_slack_history (r : Response) (W : World) (h : History) :
  snd (check_slack r W h) = h.
Proof.
  unfold check_slack, bind, catch, json.
  destruct (json_body r) as [v|]; cbn.
  - destruct (ok r); cbn; [|reflexivity].
    destruct v; cbn; try reflexivity;
      match goal with |- context [truthy ?x] => destruct (truthy x) end;
      reflexivity.
  - destruct (ok r); reflexivity.
Qed.

(** A digest of at least one item sends exactly one request to Slack,
    whether Slack accepts it or not. *)
Lemma postDigestToSlack_history (fresh : list Fresh) (W : World) (h : History) :
  fresh <> [] ->
  snd (Digest.postDigestToSlack fresh W h) = (h ++ [digest_post W fresh])%list.
Proof.
  intros Hne; unfold Digest.postDigestToSlack.
  destruct fresh as [|it fresh]; [now contradiction Hne|].
  cbn [List.length Nat.eqb]; unfold bind, fetch, digest_post.
  destruct (reply W h _) as [|r]; [reflexivity|].
  apply check_slack_history.
Qed.

Lemma markSeen_step (it : Fresh) (fresh : list Fresh) (W : World) (h : History) :
  Digest.markSeen (it :: fresh) W h =
    let (o, h1) := upstashSetEx (_redisKey it) "1" retention W h in
    let (os, h2) := Digest.markSeen fresh W h1 in
    (match o, os with
     | Returned a, Returned l => Returned (a :: l)
     | Threw e, _ => Threw e
     | Returned _, Threw e => Threw e
     end, h2).
Proof. reflexivity. Qed.

(** Every write is sent, in the order of the items, whatever the replies. *)
Lemma markSeen_history (fresh : list Fresh) (W : World) :
  forall h : History,
    snd (Digest.markSeen fresh W h) = (h ++ map mark_request fresh)%list.
Proof.
  induction fresh as [|it fresh IH]; intros h.
  - cbn; now rewrite app_nil_r.
  - rewrite markSeen_step, upstashSetEx_run.
    specialize (IH (h ++ [mark_request it])%list).
    unfold mark_request at 1 in IH.
    destruct (reply W h _);
      destruct (Digest.markSeen fresh W _) as [os h2]; cbn in IH |- *;
      subst h2; cbn; now rewrite <- app_assoc.
Qed.

(** If every write gets a response, successful or not, [markSeen] returns. *)
Lemma markSeen_returns (fresh : list Fresh) (W : World) :
  (forall h key, reply W h (KvSetEx key "1" retention) <> Rejected) ->
  forall h : History, exists oks : list bool,
    fst (Digest.markSeen fresh W h) = Returned oks.
Proof.
  intros HW; induction fresh as [|it fresh IH]; intros h.
  - exists []; reflexivity.
  - rewrite markSeen_step, upstashSetEx_run.
    specialize (HW h (_redisKey it)).
    destruct (reply W h _) as [|r]; [now contradiction HW|].
    destruct (IH (h ++ [KvSetEx (_redisKey it) "1" retention])%list) as [oks E].
    destruct (Digest.markSeen fresh W _) as [os h2]; cbn in E; subst os.
    exists (ok r :: oks); reflexivity.
Qed.

(** A write that is rejected makes [markSeen] reject. *)
Lemma markSeen_rejects (fresh : list Fresh) (W : World) :
  forall h : History,
    (exists pre it post,
        fresh = (pre ++ it :: post)%list
        /\ reply W (h ++ map mark_request pre)%list (mark_request it) = Rejected) ->
    exists e, fst (Digest.markSeen fresh W h) = Threw e.
Proof.
  induction fresh as [|x fresh IH]; intros h (pre & it & post & Hf & Hr).
  - destruct pre; discriminate.
  - rewrite markSeen_step, upstashSetEx_run.
    destruct pre as [|y pre]; cbn in Hf; injection Hf as <- Hf.
    + cbn in Hr; rewrite app_nil_r in Hr; unfold mark_request in Hr.
      rewrite Hr; destruct (Digest.markSeen fresh W _); eexists; reflexivity.
    + destruct (IH (h ++ [mark_request x])%list) as [e E].
      { exists pre, it, post; split; [exact Hf|].
        rewrite <- app_assoc; exact Hr. }
      unfold mark_request at 1 in E.
      destruct (reply W h _);
        destruct (Digest.markSeen fresh W _) as [os h2]; cbn in E; subst os;
        eexists; reflexivity.
Qed.

(** The handler, once the environment check has passed. *)
Lemma handler_run (cfg : Config) (W : World) (h : History) :
  missing_env cfg = [] ->
  Digest.handler cfg W h =
    match Digest.collectFresh (POST_MAX cfg) (scored_articles cfg W) [] W h with
    | (Threw e, h1) => (Threw e, h1)
    | (Returned fresh, h1) =>
        if (List.length fresh =? 0)%nat then (Returned no_new_items, h1)
        else
          match Digest.postDigestToSlack fresh W h1 with
          | (Threw e, h2) => (Threw e, h2)
          | (Returned _, h2) =>
              match Digest.markSeen fresh W h2 with
              | (Threw e, h3) => (Threw e, h3)
              | (Returned _, h3) =>
                  (Returned (posted_digest (List.length fresh)), h3)
              end
          end
    end.
Proof.
  intros Hm; unfold Digest.handler; rewrite Hm; cbn [List.length Nat.eqb negb].
  unfold bind at 1; unfold fetchFeeds at 1; unfold bind at 1.
  fold (scored_articles cfg W).
  destruct (Digest.collectFresh _ _ _ W h) as [[fresh|e] h1]; [|reflexivity].
  destruct (List.length fresh =? 0)%nat; [reflexivity|].
  unfold bind at 1.
  destruct (Digest.postDigestToSlack fresh W h1) as [[[]|e] h2]; [|reflexivity].
  unfold bind at 1.
  destruct (Digest.markSeen fresh W h2) as [[oks|e] h3]; reflexivity.
Qed.

Lemma filter_reads (p : Request -> bool) (W : World) (visited : list Scored) :
  (forall key, p (KvGet key) = false) ->
  filter p (map (query W) visited) = [].
Proof.
  intros Hp; induction visited as [|it l IH]; cbn; [reflexivity|].
  unfold query at 1; now rewrite Hp.
Qed.

Lemma filter_slack_writes (fresh : list Fresh) :
  filter is_slack (map mark_request fresh) = [].
Proof. induction fresh as [|it l IH]; cbn; [reflexivity | exact IH]. Qed.

(** C1, for writes the store answers.  After the digest is posted, the
    handler sends one write per included item, with the key of the item,
    the value "1" and a retention of seven days; if each write gets a
    response, successful or not, the handler returns its 200 reply. *)
Theorem handler_returns_when_writes_are_refused :
  forall (cfg : Config) (W : World) (fresh : list Fresh) (h1 h2 : History),
    missing_env cfg = [] ->
    Digest.collectFresh (POST_MAX cfg) (scored_articles cfg W) [] W []
    = (Returned fresh, h1) ->
    fresh <> [] ->
    Digest.postDigestToSlack fresh W h1 = (Returned tt, h2) ->
    (forall h key, reply W h (KvSetEx key "1" retention) <> Rejected) ->
    Digest.handler cfg W []
    = (Returned (posted_digest (List.length fresh)),
       (h2 ++ map mark_request fresh)%list).
Proof.
  intros cfg W fresh h1 h2 Hm Hc Hne Hp HW.
  rewrite (handler_run cfg W [] Hm), Hc.
  destruct fresh as [|it fresh]; [now contradiction Hne|].
  cbn [List.length Nat.eqb]; rewrite Hp.
  destruct (markSeen_returns (it :: fresh) W HW h2) as [oks E].
  pose proof (markSeen_history (it :: fresh) W h2) as Hh.
  destruct (Digest.markSeen (it :: fresh) W h2) as [o h3].
  cbn in E, Hh; subst o h3; reflexivity.
Qed.

Lemma handler_returns_when_writes_are_refused_witness :
  reply failing_write_world [] (KvSetEx "61" "1" retention) = server_error
  /\ exists sent : History,
       Digest.handler (example_config 10) failing_write_world []
       = (Returned (posted_digest 2), sent)
       /\ filter is_write sent
          = [KvSetEx "61" "1" retention; KvSetEx "62" "1" retention].
Proof.
  split; [reflexivity|].
  eexists; split.
  - refine (handler_returns_when_writes_are_refused (example_config 10)
              failing_write_world
              (map (keyed failing_write_world) example_scored)
              [KvGet "61"; KvGet "62"] _ eq_refl eq_refl _ eq_refl _).
    + discriminate.
    + intros h key; cbn; destruct (key =? "61")%string; discriminate.
  - reflexivity.
Defined.

(** C1 as stated fails when a write cannot be sent: the rejection of
    [fetch] passes through [Promise.all] and the handler, after the digest
    has been posted. *)
Lemma rejected_write_fails_the_run :
  reply rejected_write_world [] (KvSetEx "61" "1" retention) = Rejected
  /\ fst (Digest.handler (example_config 10) rejected_write_world [])
     = Threw FetchFailed
  /\ filter is_slack
       (snd (Digest.handler (example_config 10) rejected_write_world []))
     = [digest_post rejected_write_world
          (map (keyed rejected_write_world) example_scored)].
Proof. repeat split. Qed.

(** C8.  Once the environment check has passed and the loop has returned
    the collected items: if there are none the handler replies
    "OK - no new items" and the run has sent nothing to Slack and written
    nothing to the cache; otherwise the run sends exactly one request to
    Slack, the digest of the collected items. *)
Theorem handler_posts_one_digest_or_none :
  forall (cfg : Config) (W : World) (fresh : list Fresh) (h1 : History),
    missing_env cfg = [] ->
    Digest.collectFresh (POST_MAX cfg) (scored_articles cfg W) [] W []
    = (Returned fresh, h1) ->
    exists (outcome : Outcome Reply) (sent : History),
      Digest.handler cfg W [] = (outcome, sent)
      /\ (fresh = [] ->
          outcome = Returned no_new_items
          /\ filter is_slack sent = []
          /\ filter is_write sent = [])
      /\ (fresh <> [] ->
          filter is_slack sent = [digest_post W fresh]).
Proof.
  intros cfg W fresh h1 Hm Hc.
  destruct (collectFresh_history (POST_MAX cfg) W (scored_articles cfg W) [] [])
    as (visited & rest & _ & Hh).
  rewrite Hc in Hh; cbn in Hh; subst h1.
  rewrite (handler_run cfg W [] Hm), Hc.
  destruct fresh as [|it fresh].
  - cbn [List.length Nat.eqb]; do 2 eexists; split; [reflexivity|].
    split; [|intros H; now contradiction H].
    intros _; split; [reflexivity|].
    split; now apply filter_reads.
  - cbn [List.length Nat.eqb].
    assert (Hne : it :: fresh <> []) by discriminate.
    pose proof (postDigestToSlack_history (it :: fresh) W
                  (map (query W) visited) Hne) as Hp.
    destruct (Digest.postDigestToSlack (it :: fresh) W _) as [[[]|e] h2];
      cbn in Hp; subst h2.
    + pose proof (markSeen_history (it :: fresh) W
                    (map (query W) visited ++ [digest_post W (it :: fresh)])%list)
        as Hs.
      destruct (Digest.markSeen (it :: fresh) W _) as [[oks|e] h3];
        cbn [snd] in Hs; subst h3; do 2 eexists; (split; [reflexivity|]);
        (split; [discriminate|]); intros _;
        rewrite 2!filter_app, filter_slack_writes,
          (filter_reads is_slack W visited) by reflexivity;
        reflexivity.
    + do 2 eexists; split; [reflexivity|]; split; [discriminate|]; intros _.
      rewrite filter_app, (filter_reads is_slack W visited)
        by reflexivity; reflexivity.
Qed.

Lemma handler_posts_one_digest_or_none_witness :
  missing_env (example_config 10) = []
  /\ exists (outcome : Outcome Reply) (sent : History),
       Digest.handler (example_config 10) all_seen_world [] = (outcome, sent)
       /\ ([] = @nil Fresh ->
           outcome = Returned no_new_items
           /\ filter is_slack sent = []
           /\ filter is_write sent = [])
       /\ (@nil Fresh <> [] ->
           filter is_slack sent = [digest_post all_seen_world []]).
Proof.
  split; [reflexivity|].
  exact (handler_posts_one_digest_or_none (example_config 10) all_seen_world
           [] [KvGet "61"; KvGet "62"] eq_refl eq_refl).
Defined.

(** The per-article variant of [src/api/cron.js] has no digest: it sends
    one message per new article and reports how many it posted. *)
Example per_article_handler_posts_each :
  PerArticle.handler (example_config 10) all_seen_world []
  = (Returned {| code := 200; body := "OK - posted 0" |},
     [KvGet "61"; KvGet "62"])
  /\ fst (PerArticle.handler (example_config 10) empty_store_world [])
     = Returned {| code := 200; body := "OK - posted 2" |}
  /\ List.length
       (filter is_slack
          (snd (PerArticle.handler (example_config 10) empty_store_world [])))
     = 2%nat.
Proof. repeat split. Qed.

(** ** Trimming and collapsing *)

(** One step of the functions on strings, leaving [is_space] folded. *)
Tactic Notation "unfold_shape" :=
  cbn [starts_with_space ends_with_space trimStart trimEnd all_space
       collapse_from spaced_from tidy_from andb negb].
Tactic Notation "unfold_shape" "in" hyp(H) :=
  cbn [starts_with_space ends_with_space trimStart trimEnd all_space
       collapse_from spaced_from tidy_from andb negb] in H.
Tactic Notation "unfold_shape" "in" hyp(H) "|-" "*" :=
  cbn [starts_with_space ends_with_space trimStart trimEnd all_space
       collapse_from spaced_from tidy_from andb negb] in H |- *.

Lemma trimStart_no_leading (s : string) : starts_with_space (trimStart s) = false.
Proof.
  induction s as [|c s IH]; unfold_shape; [reflexivity|].
  destruct (is_space c) eqn:E; [exact IH | unfold_shape; exact E].
Qed.

Lemma trimEnd_no_leading (s : string) :
  starts_with_space s = false -> starts_with_space (trimEnd s) = false.
Proof.
  destruct s as [|c s]; unfold_shape; [reflexivity|].
  intros E; rewrite E; cbn [starts_with_space andb]; exact E.
Qed.

Lemma trimEnd_no_trailing (s : string) : ends_with_space (trimEnd s) = false.
Proof.
  induction s as [|c s IH]; unfold_shape; [reflexivity|].
  destruct (is_space c) eqn:E; cbn [andb].
  - destruct (trimEnd s) as [|d t] eqn:Et; unfold_shape; [reflexivity|].
    exact IH.
  - destruct (trimEnd s) as [|d t] eqn:Et; unfold_shape; [exact E | exact IH].
Qed.

(** [trim] leaves no white space at either end. *)
Lemma trim_edges (s : string) :
  starts_with_space (trim s) = false /\ ends_with_space (trim s) = false.
Proof.
  unfold trim; split.
  - apply trimEnd_no_leading, trimStart_no_leading.
  - apply trimEnd_no_trailing.
Qed.

Lemma truthy_string_nonempty (s : string) : truthy_string s = true <-> s <> "".
Proof. unfold truthy_string; destruct s; simpl; split; congruence. Qed.

Lemma trimEnd_all_space (s : string) : all_space s = true -> trimEnd s = "".
Proof.
  induction s as [|c s IH]; unfold_shape; [reflexivity|].
  intros H; apply andb_prop in H; destruct H as [Hc Hs].
  now rewrite Hc, (IH Hs).
Qed.

Lemma trimStart_all_space (s : string) : all_space s = true -> trimStart s = "".
Proof.
  induction s as [|c s IH]; unfold_shape; [reflexivity|].
  intros H; apply andb_prop in H; destruct H as [Hc Hs].
  now rewrite Hc, (IH Hs).
Qed.

Lemma collapse_all_space (s : string) (b : bool) :
  all_space s = true -> all_space (collapse_from b s) = true.
Proof.
  revert b; induction s as [|c s IH]; intros b; unfold_shape; [reflexivity|].
  intros H; apply andb_prop in H; destruct H as [Hc Hs].
  rewrite Hc; destruct b; unfold_shape; now apply IH.
Qed.

Lemma clean_all_space (s : string) : all_space s = true -> clean s = "".
Proof.
  intros H; unfold clean, trim, collapse_whitespace.
  now rewrite (trimStart_all_space _ (collapse_all_space s false H)).
Qed.

Lemma collapse_spaced (s : string) (b : bool) :
  spaced_from b (collapse_from b s) = true.
Proof.
  revert b; induction s as [|c s IH]; intros b; unfold_shape; [reflexivity|].
  destruct (is_space c) eqn:E.
  - destruct b; [apply IH|].
    unfold_shape; apply IH.
  - unfold_shape; rewrite E; apply IH.
Qed.

Lemma trimStart_spaced (s : string) (b : bool) :
  spaced_from b s = true -> spaced_from true (trimStart s) = true.
Proof.
  revert b; induction s as [|c s IH]; intros b; unfold_shape; [reflexivity|].
  destruct (is_space c) eqn:E.
  - intros H; apply andb_prop in H; destruct H as [_ H].
    now apply (IH true).
  - intros H; unfold_shape; now rewrite E.
Qed.

Lemma trimEnd_tidy (s : string) (b : bool) :
  spaced_from b s = true ->
  (b = true -> starts_with_space s = false) ->
  trimEnd s = "" \/ tidy_from b (trimEnd s) = true.
Proof.
  revert b; induction s as [|c s IH]; intros b; unfold_shape; [now left|].
  destruct (is_space c) eqn:E; cbn [andb].
  - intros H Hb; apply andb_prop in H; destruct H as [H Hs].
    apply andb_prop in H; destruct H as [Hc Hn].
    destruct (IH true Hs) as [Ht|Ht].
    + intros _; destruct s as [|d s]; [reflexivity|].
      unfold_shape in Hs |- *; destruct (is_space d); [|reflexivity].
      unfold_shape in Hs; rewrite andb_false_r in Hs; discriminate.
    + rewrite Ht; unfold_shape; now left.
    + destruct (trimEnd s) as [|d t] eqn:Et; [now left|].
      right; cbn [String.eqb].
      change (tidy_from b (String c (String d t)))
        with (if is_space c
              then Ascii.eqb c " " && negb b && tidy_from true (String d t)
              else tidy_from false (String d t)).
      rewrite E, Hc, Hn; exact Ht.
  - intros H _; right; cbn [tidy_from]; rewrite E.
    destruct (IH false H) as [Ht|Ht]; [discriminate| |exact Ht].
    now rewrite Ht.
Qed.

(** A cleaned summary is empty or tidy. *)
Lemma clean_tidy (s : string) : clean s = "" \/ tidy_from true (clean s) = true.
Proof.
  unfold clean, trim, collapse_whitespace.
  apply trimEnd_tidy.
  - apply (trimStart_spaced _ false), collapse_spaced.
  - intros _; apply trimStart_no_leading.
Qed.

(** ** Tidy strings *)

Lemma tidy_no_leading (s : string) :
  tidy_from true s = true -> s <> "" /\ starts_with_space s = false.
Proof.
  destruct s as [|c s]; cbn [tidy_from starts_with_space negb];
    [discriminate|].
  destruct (is_space c); [|split; [discriminate | reflexivity]].
  rewrite andb_false_r; discriminate.
Qed.

Lemma tidy_no_trailing (s : string) (b : bool) :
  tidy_from b s = true -> ends_with_space s = false.
Proof.
  revert b; induction s as [|c s IH]; intros b; [reflexivity|].
  cbn [tidy_from ends_with_space].
  destruct (is_space c) eqn:E.
  - intros H; apply andb_prop in H; destruct H as [_ H].
    destruct s as [|d s]; [discriminate|]; now apply (IH true).
  - intros H; destruct s as [|d s]; [reflexivity | now apply (IH false)].
Qed.

Lemma tidy_neat (s : string) : tidy_from true s = true -> neat s.
Proof.
  intros H; destruct (tidy_no_leading s H) as [Hn Hl].
  repeat split; [exact Hn | exact Hl | exact (tidy_no_trailing s true H)].
Qed.

Lemma trimStart_id (s : string) : starts_with_space s = false -> trimStart s = s.
Proof. destruct s as [|c s]; cbn; [reflexivity | now intros ->]. Qed.

Lemma trimEnd_id (s : string) (b : bool) : tidy_from b s = true -> trimEnd s = s.
Proof.
  revert b; induction s as [|c s IH]; intros b; [reflexivity|].
  cbn [tidy_from trimEnd].
  destruct (is_space c) eqn:E; cbn [andb].
  - intros H; apply andb_prop in H; destruct H as [_ H].
    rewrite (IH true H).
    destruct s as [|d s]; [discriminate | reflexivity].
  - intros H; now rewrite (IH false H).
Qed.

Lemma trim_id (s : string) : tidy_from true s = true -> trim s = s.
Proof.
  intros H; unfold trim.
  rewrite (trimStart_id s (proj2 (tidy_no_leading s H))).
  exact (trimEnd_id s true H).
Qed.

(** ** Splitting a tidy string into sentences *)

Lemma concat_head (sep : string) (c : ascii) (p : string) (r : list string) :
  String.concat sep (String c p :: r) = String c (String.concat sep (p :: r)).
Proof. destruct r; reflexivity. Qed.

(** A character that does not start a separator joins the current piece. *)
Lemma split_scan_keeps (c : ascii) (s : string) (m : scan) :
  is_space c = false \/ m = InPiece false ->
  split_scan m (String c s)
  = (String c (fst (split_scan (InPiece (is_terminator c)) s)),
     snd (split_scan (InPiece (is_terminator c)) s)).
Proof.
  intros [E | ->]; [destruct m as [[|]|]|]; cbn [split_scan]; rewrite ?E;
    destruct (split_scan (InPiece (is_terminator c)) s); reflexivity.
Qed.

Lemma split_scan_tidy (c : string) :
  forall (m : scan) (prev : bool),
    tidy_from prev c = true ->
    (m = InSeparator -> prev = true) ->
    tidy_from prev (fst (split_scan m c)) = true
    /\ Forall tidy (snd (split_scan m c))
    /\ String.concat " " (fst (split_scan m c) :: snd (split_scan m c)) = c.
Proof.
  induction c as [|c s IH]; intros m prev Ht Hm.
  - cbn; repeat split; [exact Ht | constructor].
  - cbn [tidy_from] in Ht.
    destruct (is_space c) eqn:E.
    + apply andb_prop in Ht; destruct Ht as [Ht Hs].
      apply andb_prop in Ht; destruct Ht as [Hc Hp].
      apply Ascii.eqb_eq in Hc; subst c.
      destruct prev; [discriminate|].
      destruct m as [[|]|]; [| |now discriminate Hm].
      * (* a separator starts *)
        cbn [split_scan]; rewrite E.
        destruct (IH InSeparator true Hs (fun _ => eq_refl)) as (Hp' & Hr & Hcat).
        destruct (split_scan InSeparator s) as [p r]; cbn [fst snd] in *.
        repeat split; [constructor; assumption|].
        change (String.concat " " ("" :: p :: r))
          with ("" ++ " " ++ String.concat " " (p :: r)).
        rewrite Hcat; reflexivity.
      * (* a space inside a sentence *)
        rewrite split_scan_keeps by now right.
        change (is_terminator " ") with false.
        assert (Hi : InPiece false = InSeparator -> true = true) by reflexivity.
        destruct (IH (InPiece false) true Hs Hi) as (Hp' & Hr & Hcat).
        destruct (split_scan (InPiece false) s) as [p r]; cbn [fst snd] in *.
        repeat split; [|exact Hr|].
        -- cbn [tidy_from]; rewrite E; exact Hp'.
        -- now rewrite concat_head, Hcat.
    + assert (Hi : InPiece (is_terminator c) = InSeparator -> false = true)
        by discriminate.
      destruct (IH (InPiece (is_terminator c)) false Ht Hi) as (Hp' & Hr & Hcat).
      rewrite split_scan_keeps by now left.
      cbn [fst snd].
      destruct (split_scan (InPiece (is_terminator c)) s) as [p r];
        cbn [fst snd] in *.
      repeat split; [|exact Hr|].
      * cbn [tidy_from]; rewrite E; exact Hp'.
      * now rewrite concat_head, Hcat.
Qed.

Lemma map_trim_tidy (l : list string) : Forall tidy l -> map trim l = l.
Proof.
  induction 1 as [|q l Hq Hl IH]; cbn; [reflexivity|].
  now rewrite (trim_id q Hq), IH.
Qed.

Lemma filter_truthy_tidy (l : list string) :
  Forall tidy l -> filter truthy_string l = l.
Proof.
  induction 1 as [|q l Hq Hl IH]; cbn [filter]; [reflexivity|].
  rewrite (proj2 (truthy_string_nonempty q) (proj1 (tidy_no_leading q Hq))).
  now rewrite IH.
Qed.

(** On a tidy string nothing is trimmed or dropped: the sentences are the
    pieces of the split, each of them tidy, and joining them with single
    spaces gives the string back. *)
Lemma sentences_of_tidy (c : string) :
  tidy c ->
  sentences_of c = split_sentences c
  /\ Forall tidy (sentences_of c)
  /\ String.concat " " (sentences_of c) = c.
Proof.
  intros Hc.
  assert (Hi : InPiece false = InSeparator -> true = true) by reflexivity.
  destruct (split_scan_tidy c (InPiece false) true Hc Hi) as (Hp & Hr & Hcat).
  unfold sentences_of, split_sentences.
  destruct (split_scan (InPiece false) c) as [p r]; cbn [fst snd] in *.
  assert (Hall : Forall tidy (p :: r)) by (constructor; assumption).
  rewrite (map_trim_tidy _ Hall), (filter_truthy_tidy _ Hall).
  repeat split; assumption.
Qed.

Lemma one_sentence_is_cleaned (c : string) :
  tidy c -> List.length (sentences_of c) = 1%nat -> sentences_of c = [c].
Proof.
  intros Hc Hlen; destruct (sentences_of_tidy c Hc) as (_ & _ & Hcat).
  destruct (sentences_of c) as [|p [|q r]]; try discriminate.
  cbn in Hcat; now subst p.
Qed.

Lemma space_not_terminator (c : ascii) :
  is_space c = true -> is_terminator c = false.
Proof. destruct c as [[] [] [] [] [] [] [] []]; cbv; congruence. Qed.

Lemma ends_with_terminator_cons (c : ascii) (p : string) :
  ends_with_terminator (String c p)
  = match p with
    | EmptyString => is_terminator c
    | _ => ends_with_terminator p
    end.
Proof. destruct p; reflexivity. Qed.

Lemma cut_well_keep (c : ascii) (m : scan) (p : string) (r : list string) :
  (m = InPiece true -> is_space c = false) ->
  cut_well (InPiece (is_terminator c)) p r ->
  cut_well m (String c p) r.
Proof.
  intros Hsp (Ha & Hb & Hc & Hd & He).
  repeat split; [| exact Hsp | exact Hc | | exact He].
  - cbn [has_boundary]; rewrite Ha, orb_false_r.
    destruct (is_terminator c); [|reflexivity].
    now rewrite Hb.
  - intros Hr; specialize (Hd Hr); rewrite ends_with_terminator_cons.
    destruct p; [now injection Hd | exact Hd].
Qed.

Lemma cut_well_separator (p : string) (r : list string) :
  cut_well InSeparator p r -> cut_well (InPiece true) "" (p :: r).
Proof.
  intros (Ha & _ & Hc & Hd & He).
  repeat split; [constructor; assumption|].
  cbn [removelast]; destruct r as [|q r]; [constructor|].
  constructor; [|exact He].
  assert (Hne : q :: r <> []) by discriminate.
  specialize (Hd Hne); destruct p; [discriminate Hd | exact Hd].
Qed.

(** Where the split cuts, for every string: no piece keeps a boundary
    inside, and every piece that is followed by another ends with its
    terminator. *)
Lemma split_scan_boundaries (s : string) :
  forall m : scan, cut_well m (fst (split_scan m s)) (snd (split_scan m s)).
Proof.
  induction s as [|c s IH]; intros m.
  - cbn; repeat split; try constructor; intros H; now contradiction H.
  - destruct (is_space c) eqn:E; [destruct m as [[|]|]|].
    + cbn [split_scan]; rewrite E.
      specialize (IH InSeparator).
      destruct (split_scan InSeparator s) as [p r]; cbn [fst snd] in *.
      now apply cut_well_separator.
    + rewrite split_scan_keeps by now right.
      apply cut_well_keep; [discriminate | apply IH].
    + cbn [split_scan]; rewrite E; apply IH.
    + rewrite split_scan_keeps by now left.
      apply cut_well_keep; [intros _; exact E | apply IH].
Qed.

(** The pieces of [split_sentences]: none has a boundary inside, and all
    but the last end with a terminator. *)
Lemma split_sentences_boundaries (s : string) :
  Forall (fun q => has_boundary q = false) (split_sentences s)
  /\ Forall (fun q => ends_with_terminator q = true)
       (removelast (split_sentences s)).
Proof.
  destruct (split_scan_boundaries s (InPiece false)) as (Ha & _ & Hc & Hd & He).
  unfold split_sentences.
  destruct (split_scan (InPiece false) s) as [p r]; cbn [fst snd] in *.
  split; [constructor; assumption|].
  cbn [removelast]; destruct r as [|q r]; [constructor|].
  constructor; [|exact He].
  assert (Hne : q :: r <> []) by discriminate.
  specialize (Hd Hne); destruct p; [discriminate Hd | exact Hd].
Qed.

(** ** Bisecting one long sentence *)

Lemma prefix_blank (s : string) :
  prefix " " s = match s with
                 | String c _ => if ascii_dec " " c then true else false
                 | EmptyString => false
                 end.
Proof.
  destruct s as [|c s]; [reflexivity|]; cbn [prefix].
  destruct (ascii_dec " " c); [|reflexivity]; destruct s; reflexivity.
Qed.

(** [search " "] finds the first SPACE, if there is one. *)
Lemma search_blank (s : string) :
  forall pos : Z,
    (search " " s pos = -1 /\ forall j, get j s <> Some " "%char)
    \/ exists k : nat,
         search " " s pos = pos + Z.of_nat k
         /\ get k s = Some " "%char
         /\ forall j, (j < k)%nat -> get j s <> Some " "%char.
Proof.
  induction s as [|c s IH]; intros pos.
  - left; split; [reflexivity | intros j; destruct j; discriminate].
  - cbn [search]; rewrite prefix_blank.
    destruct (ascii_dec " " c) as [<-|Hc].
    + right; exists 0%nat; repeat split; [lia | intros j Hj; lia].
    + destruct (IH (pos + 1)) as [[E Hn] | (k & E & Hk & Hn)].
      * left; split; [exact E|].
        intros [|j]; cbn [get]; [congruence | apply Hn].
      * right; exists (S k); repeat split; [lia | exact Hk |].
        intros [|j] Hj; cbn [get]; [congruence | apply Hn; lia].
Qed.

Lemma get_drop (n : nat) :
  forall (s : string) (k : nat),
    (n <= String.length s)%nat -> get k (str_drop n s) = get (n + k) s.
Proof.
  induction n as [|n IH]; intros s k Hn.
  - destruct s; reflexivity.
  - destruct s as [|c s]; cbn [String.length] in Hn; [lia|].
    cbn [str_drop Nat.add get]; apply IH; lia.
Qed.

Lemma tidy_blank (s : string) :
  forall (b : bool) (j : nat) (ch : ascii),
    tidy_from b s = true -> get j s = Some ch -> is_space ch = true ->
    ch = " "%char.
Proof.
  induction s as [|c s IH]; intros b j ch Ht Hj Hs; [destruct j; discriminate|].
  cbn [tidy_from] in Ht; destruct j as [|j]; cbn [get] in Hj.
  - injection Hj as ->; rewrite Hs in Ht.
    apply andb_prop in Ht; destruct Ht as [Ht _].
    apply andb_prop in Ht; destruct Ht as [Ht _].
    now apply Ascii.eqb_eq in Ht.
  - destruct (is_space c).
    + apply andb_prop in Ht; destruct Ht as [_ Ht]; exact (IH true j ch Ht Hj Hs).
    + exact (IH false j ch Ht Hj Hs).
Qed.

(** Cutting a tidy string at one of its spaces leaves two tidy halves. *)
Lemma tidy_cut (s : string) :
  forall (b : bool) (i : nat),
    tidy_from b s = true -> get i s = Some " "%char ->
    tidy_from b (str_take i s) = true
    /\ tidy_from true (str_drop (S i) s) = true
    /\ str_drop i s = String " " (str_drop (S i) s)
    /\ s = str_take i s ++ " " ++ str_drop (S i) s.
Proof.
  induction s as [|c s IH]; intros b i Ht Hi; [destruct i; discriminate|].
  cbn [tidy_from] in Ht; destruct i as [|i]; cbn [get] in Hi.
  - injection Hi as ->; change (is_space " ") with true in Ht.
    apply andb_prop in Ht; destruct Ht as [Ht Hs].
    apply andb_prop in Ht; destruct Ht as [_ Hb].
    destruct b; [discriminate|].
    cbn [str_take str_drop]; repeat split; [exact Hs | now destruct s..].
  - change (str_take (S i) (String c s)) with (String c (str_take i s)).
    change (str_drop (S (S i)) (String c s)) with (str_drop (S i) s).
    change (str_drop (S i) (String c s)) with (str_drop i s).
    change (String c (str_take i s) ++ " " ++ str_drop (S i) s)
      with (String c (str_take i s ++ " " ++ str_drop (S i) s)).
    change (tidy_from b (String c (str_take i s)))
      with (if is_space c
            then Ascii.eqb c " " && negb b && tidy_from true (str_take i s)
            else tidy_from false (str_take i s)).
    destruct (is_space c).
    + apply andb_prop in Ht; destruct Ht as [Hcb Hs].
      destruct (IH true i Hs Hi) as (H1 & H2 & H3 & H4).
      rewrite Hcb, H1; repeat split; [exact H2 | exact H3 | now rewrite <- H4].
    + destruct (IH false i Ht Hi) as (H1 & H2 & H3 & H4).
      repeat split; [exact H1 | exact H2 | exact H3 | now rewrite <- H4].
Qed.

Lemma trim_after_blank (s : string) : trim (String " " s) = trim s.
Proof. reflexivity. Qed.

(** What the second half of [makeSummaryBullets] computes on a tidy
    string: the first SPACE at or after the middle, if any, and the two
    halves around it. *)
Lemma bisect_tidy (c : string) :
  tidy c ->
  let mid := (String.length c / 2)%nat in
  let splitIdx := indexOf c " " mid in
  (splitIdx = -1
   /\ forall j ch, (mid <= j)%nat -> get j c = Some ch -> is_space ch = false)
  \/ exists i : nat,
       splitIdx = Z.of_nat i
       /\ (mid <= i)%nat
       /\ get i c = Some " "%char
       /\ (forall j ch, (mid <= j < i)%nat -> get j c = Some ch ->
                        is_space ch = false)
       /\ trim (slice c 0 splitIdx) = str_take i c
       /\ trim (slice_from c splitIdx) = str_drop (S i) c
       /\ tidy (str_take i c)
       /\ tidy (str_drop (S i) c)
       /\ c = str_take i c ++ " " ++ str_drop (S i) c.
Proof.
  intros Hc mid splitIdx.
  assert (Hmid : (mid <= String.length c)%nat)
    by (subst mid; apply Nat.Div0.div_le_upper_bound; lia).
  assert (Hidx : splitIdx = search " " (str_drop mid c) (Z.of_nat mid)).
  { subst splitIdx; unfold indexOf; now rewrite Nat.min_l by exact Hmid. }
  assert (Hws : forall j ch, get j c = Some ch -> is_space ch = true ->
                             get j c = Some " "%char).
  { intros j ch Hj Hs; now rewrite Hj, (tidy_blank c true j ch Hc Hj Hs). }
  destruct (search_blank (str_drop mid c) (Z.of_nat mid))
    as [[E Hn] | (k & E & Hk & Hn)].
  - left; split; [congruence|].
    intros j ch Hj Hg; destruct (is_space ch) eqn:Hs; [|reflexivity].
    exfalso; apply (Hn (j - mid)%nat).
    rewrite (get_drop mid c _ Hmid).
    replace (mid + (j - mid))%nat with j by lia; exact (Hws j ch Hg Hs).
  - right; exists (mid + k)%nat.
    rewrite (get_drop mid c _ Hmid) in Hk.
    destruct (tidy_cut c true (mid + k) Hc Hk) as (H1 & H2 & H3 & H4).
    assert (Hi : splitIdx = Z.of_nat (mid + k)) by lia.
    repeat split; try assumption; [lia | |  |].
    + intros j ch Hj Hg; destruct (is_space ch) eqn:Hs; [|reflexivity].
      exfalso; apply (Hn (j - mid)%nat); [lia|].
      rewrite (get_drop mid c _ Hmid).
      replace (mid + (j - mid))%nat with j by lia; exact (Hws j ch Hg Hs).
    + rewrite Hi; unfold slice; rewrite Nat2Z.id; cbn [Z.to_nat str_drop].
      rewrite Nat.sub_0_r.
      replace (str_drop 0 c) with c by (now destruct c).
      exact (trim_id _ H1).
    + rewrite Hi; unfold slice_from; rewrite Nat2Z.id, H3, trim_after_blank.
      exact (trim_id _ H2).
Qed.

(** ** The condenser *)

Lemma makeSummaryBullets_empty (summary : string) (n : nat) :
  clean summary = "" -> makeSummaryBullets summary n = [].
Proof.
  intros E; unfold makeSummaryBullets.
  destruct (truthy_string summary); [|reflexivity].
  cbn [negb]; now rewrite E.
Qed.

Lemma makeSummaryBullets_run (summary : string) (n : nat) :
  clean summary <> "" ->
  makeSummaryBullets summary n =
    let cleaned := clean summary in
    let sentences := sentences_of cleaned in
    if (n <=? List.length sentences)%nat then firstn n sentences
    else if ((List.length sentences =? 1)%nat
             && (180 <? String.length cleaned)%nat)%bool
         then if indexOf cleaned " " (String.length cleaned / 2) >? -1
              then [ trim (slice cleaned 0
                             (indexOf cleaned " " (String.length cleaned / 2)));
                     trim (slice_from cleaned
                             (indexOf cleaned " " (String.length cleaned / 2))) ]
              else sentences
         else sentences.
Proof.
  intros Hc; unfold makeSummaryBullets.
  assert (Hs : truthy_string summary = true).
  { destruct summary; [now contradiction Hc | reflexivity]. }
  rewrite Hs, (proj2 (truthy_string_nonempty _) Hc); reflexivity.
Qed.

Lemma In_firstn {A : Type} (n : nat) (l : list A) (x : A) :
  In x (firstn n l) -> In x l.
Proof.
  intros H; rewrite <- (firstn_skipn n l); apply in_or_app; now left.
Qed.

Lemma Forall_tidy_neat (l : list string) : Forall tidy l -> Forall neat l.
Proof. apply Forall_impl; exact tidy_neat. Qed.

Lemma clean_sentences (summary : string) :
  sentences_of (clean summary) <> [] -> tidy (clean summary).
Proof.
  intros Hs; destruct (clean_tidy summary) as [E|H]; [|exact H].
  rewrite E in Hs; now contradiction Hs.
Qed.

(** C5.  A summary of white space only (so also the empty one) gives no
    bullet.  When the cleaned summary has at least [maxBullets] sentences
    the result is the first [maxBullets] of them.  The sentences of a
    cleaned summary are the pieces of the split: joined with single spaces
    they give the cleaned summary back, none of them has a terminator
    followed by white space inside, all but the last end with a terminator,
    and none is empty or has white space at an end.  And
    [makeSummaryBullets("One. Two. Three.", 2)] is ["One.", "Two."]. *)
Theorem makeSummaryBullets_takes_first_sentences :
  forall (summary : string) (maxBullets : nat),
    (all_space summary = true -> makeSummaryBullets summary maxBullets = [])
    /\ ((maxBullets <= List.length (sentences_of (clean summary)))%nat ->
        makeSummaryBullets summary maxBullets
        = firstn maxBullets (sentences_of (clean summary)))
    /\ (clean summary <> "" ->
        String.concat " " (sentences_of (clean summary)) = clean summary
        /\ Forall (fun q => has_boundary q = false) (sentences_of (clean summary))
        /\ Forall (fun q => ends_with_terminator q = true)
             (removelast (sentences_of (clean summary)))
        /\ Forall neat (sentences_of (clean summary)))
    /\ makeSummaryBullets "One. Two. Three." 2 = ["One."; "Two."].
Proof.
  intros summary n; split; [|split; [|split; [|reflexivity]]].
  - intros H; apply makeSummaryBullets_empty, clean_all_space, H.
  - intros Hn; destruct (clean_tidy summary) as [E|Ht].
    + rewrite (makeSummaryBullets_empty _ _ E), E in *.
      cbn in Hn; now replace n with 0%nat by lia.
    + assert (Hc : clean summary <> "") by exact (proj1 (tidy_no_leading _ Ht)).
      rewrite (makeSummaryBullets_run _ _ Hc); cbv zeta.
      now rewrite (proj2 (Nat.leb_le _ _) Hn).
  - intros Hc; destruct (clean_tidy summary) as [E|Ht]; [now contradiction Hc|].
    destruct (sentences_of_tidy _ Ht) as (Hsp & Hall & Hcat).
    destruct (split_sentences_boundaries (clean summary)) as [Hb He].
    rewrite Hsp in *; repeat split; try assumption.
    now apply Forall_tidy_neat.
Qed.

Lemma makeSummaryBullets_takes_first_sentences_witness :
  (3 <= List.length (sentences_of (clean spaced_summary)))%nat
  /\ makeSummaryBullets spaced_summary 3 = ["Alpha."; "Beta?"; "Gamma!"]
  /\ makeSummaryBullets "   " 2 = [].
Proof.
  pose proof (makeSummaryBullets_takes_first_sentences spaced_summary 3) as (_ & H & _).
  pose proof (makeSummaryBullets_takes_first_sentences "   " 2) as (H0 & _).
  assert (Hn : (3 <= List.length (sentences_of (clean spaced_summary)))%nat) by (vm_compute; lia).
  split; [exact Hn|]; split; [exact (H Hn) | exact (H0 eq_refl)].
Defined.

(** C6, for the default [maxBullets] of 2 and any larger one.  When the
    cleaned summary is one sentence of more than 180 characters, that
    sentence is the whole cleaned summary, and either there is a SPACE at
    or after the middle: then the result is the two halves around the first
    such space [i] (no white space between the middle and [i]), both tidy,
    which joined by a space give the sentence back; or there is no white
    space at or after the middle, and the result is the sentence alone. *)
Theorem makeSummaryBullets_bisects_one_long_sentence :
  forall (summary : string) (maxBullets : nat) (sentence : string),
    (2 <= maxBullets)%nat ->
    sentences_of (clean summary) = [sentence] ->
    (180 < String.length sentence)%nat ->
    let mid := (String.length sentence / 2)%nat in
    sentence = clean summary
    /\ ((exists i : nat,
           (mid <= i)%nat
           /\ get i sentence = Some " "%char
           /\ (forall j ch, (mid <= j < i)%nat -> get j sentence = Some ch ->
                            is_space ch = false)
           /\ makeSummaryBullets summary maxBullets
              = [str_take i sentence; str_drop (S i) sentence]
           /\ sentence = str_take i sentence ++ " " ++ str_drop (S i) sentence
           /\ neat (str_take i sentence)
           /\ neat (str_drop (S i) sentence))
        \/ ((forall j ch, (mid <= j)%nat -> get j sentence = Some ch ->
                          is_space ch = false)
            /\ makeSummaryBullets summary maxBullets = [sentence])).
Proof.
  intros summary n sentence Hn Hs Hlen mid.
  assert (Ht : tidy (clean summary))
    by (apply clean_sentences; rewrite Hs; discriminate).
  assert (Hc : clean summary <> "") by exact (proj1 (tidy_no_leading _ Ht)).
  assert (Heq : sentence = clean summary).
  { assert (H1 : List.length (sentences_of (clean summary)) = 1%nat)
      by now rewrite Hs.
    rewrite (one_sentence_is_cleaned _ Ht H1) in Hs; congruence. }
  split; [exact Heq|].
  rewrite (makeSummaryBullets_run _ _ Hc); cbv zeta.
  rewrite Hs; cbn [List.length]; subst mid; rewrite Heq in Hlen |- *.
  replace (n <=? 1)%nat with false by (symmetry; apply Nat.leb_gt; lia).
  replace (180 <? String.length (clean summary))%nat with true
    by (symmetry; apply Nat.ltb_lt; lia).
  cbn [Nat.eqb andb].
  destruct (bisect_tidy (clean summary) Ht)
    as [[E Hno] | (i & E & Hi & Hg & Hno & Hb1 & Hb2 & Ht1 & Ht2 & Hcat)];
    cbv zeta in *.
  - right; rewrite E; split; [exact Hno | reflexivity].
  - left; exists i; rewrite Hb1, Hb2, E.
    replace (Z.of_nat i >? -1) with true by (symmetry; apply Z.gtb_lt; lia).
    repeat split; try assumption;
      first [ apply (tidy_neat _ Ht1) | apply (tidy_neat _ Ht2) ].
Qed.

(** C10.  For every summary and every [maxBullets] of at least 1 there are
    at most [maxBullets] bullets, and each bullet is not empty and has no
    white space at its start or at its end. *)
Theorem makeSummaryBullets_bullets_are_neat :
  forall (summary : string) (maxBullets : nat),
    (1 <= maxBullets)%nat ->
    (List.length (makeSummaryBullets summary maxBullets) <= maxBullets)%nat
    /\ Forall neat (makeSummaryBullets summary maxBullets).
Proof.
  intros summary n Hn.
  destruct (clean_tidy summary) as [E|Ht].
  - rewrite (makeSummaryBullets_empty _ _ E); split; [cbn; lia | constructor].
  - assert (Hc : clean summary <> "") by exact (proj1 (tidy_no_leading _ Ht)).
    destruct (sentences_of_tidy _ Ht) as (_ & Hall & _).
    apply Forall_tidy_neat in Hall.
    rewrite (makeSummaryBullets_run _ _ Hc); cbv zeta.
    destruct (n <=? _)%nat eqn:E1.
    + split; [rewrite length_firstn; lia|].
      rewrite Forall_forall in *; intros b Hb; apply Hall.
      exact (In_firstn _ _ _ Hb).
    + apply Nat.leb_gt in E1.
      destruct ((_ =? 1)%nat && _)%bool eqn:E2; [|split; [lia | exact Hall]].
      apply andb_prop in E2; destruct E2 as [E2 _]; apply Nat.eqb_eq in E2.
      destruct (bisect_tidy (clean summary) Ht)
        as [[E _] | (i & E & _ & _ & _ & Hb1 & Hb2 & Ht1 & Ht2 & _)];
        cbv zeta in *.
      * rewrite E; split; [cbn; lia | exact Hall].
      * rewrite Hb1, Hb2, E.
        replace (Z.of_nat i >? -1) with true by (symmetry; apply Z.gtb_lt; lia).
        split; [cbn [List.length]; lia|].
        repeat constructor;
          first [ apply (tidy_neat _ Ht1) | apply (tidy_neat _ Ht2) ].
Qed.

Lemma makeSummaryBullets_bullets_are_neat_witness :
  (1 <= 2)%nat
  /\ (List.length (makeSummaryBullets "  One.   Two. Three.  " 2) <= 2)%nat
  /\ Forall neat (makeSummaryBullets "  One.   Two. Three.  " 2).
Proof.
  split; [lia|].
  apply (makeSummaryBullets_bullets_are_neat "  One.   Two. Three.  " 2); lia.
Defined.

Lemma makeSummaryBullets_bisects_one_long_sentence_witness :
  (2 <= 2)%nat
  /\ sentences_of (clean long_summary) = [long_summary]
  /\ (180 < String.length long_summary)%nat
  /\ long_summary = clean long_summary.
Proof.
  assert (H2 : (2 <= 2)%nat) by lia.
  assert (Hs : sentences_of (clean long_summary) = [long_summary])
    by (vm_compute; reflexivity).
  assert (Hl : (180 < String.length long_summary)%nat) by (vm_compute; lia).
  split; [exact H2|]; split; [exact Hs|]; split; [exact Hl|].
  exact (proj1 (makeSummaryBullets_bisects_one_long_sentence long_summary 2
                  long_summary H2 Hs Hl)).
Defined.

(** The two cases on the examples: a cut at the first space after the
    middle (index 104 of 203), and no cut when the second half has no
    white space. *)
Example makeSummaryBullets_long_examples :
  makeSummaryBullets long_summary 2
  = [str_take 104 long_summary; str_drop 105 long_summary]
  /\ makeSummaryBullets long_tail_summary 2 = [long_tail_summary].
Proof. split; vm_compute; reflexivity. Qed.

(** * Further properties of the code around the pipeline *)

(** ** The fingerprint: [sha1Hex] *)

Lemma concat_empty_sep (x : string) (xs : list string) :
  String.concat "" (x :: xs) = x ++ String.concat "" xs.
Proof.
  destruct xs as [|y ys]; cbn [String.concat]; [|reflexivity].
  induction x as [|c x IH]; cbn; [reflexivity | now rewrite <- IH].
Qed.

Lemma unhex_hex_byte (b : Byte.byte) (s : string) :
  unhex (hex_byte b ++ s) = b :: unhex s.
Proof. destruct b; reflexivity. Qed.

Lemma hex_byte_shape (b : Byte.byte) (s : string) :
  String.length (hex_byte b ++ s) = S (S (String.length s))
  /\ all_chars is_hex_lower (hex_byte b ++ s) = all_chars is_hex_lower s.
Proof. destruct b; split; reflexivity. Qed.

Lemma unhex_hex_of_bytes (bytes : list Byte.byte) :
  unhex (hex_of_bytes bytes) = bytes.
Proof.
  unfold hex_of_bytes; induction bytes as [|b l IH]; [reflexivity|].
  cbn [map]; rewrite concat_empty_sep, unhex_hex_byte; now rewrite IH.
Qed.

(** X1.  The hexadecimal rendering of [sha1Hex] loses nothing: the digest
    can be read back from the fingerprint, so two inputs have the same
    fingerprint exactly when they have the same digest. *)
Theorem sha1Hex_rendering_is_injective :
  forall (W : World) (u v : string) (h : History),
    sha1Hex u W h = (Returned (hex_of_bytes (sha1 W u)), h)
    /\ unhex (fingerprint W u) = sha1 W u
    /\ (fingerprint W u = fingerprint W v <-> sha1 W u = sha1 W v).
Proof.
  intros W u v h; split; [reflexivity|].
  assert (R : forall x, unhex (fingerprint W x) = sha1 W x)
    by (intros x; apply unhex_hex_of_bytes).
  split; [apply R|]; split.
  - intros E; rewrite <- (R u), <- (R v); now rewrite E.
  - intros E; unfold fingerprint; now rewrite E.
Qed.

(** X2.  A fingerprint has two characters per byte of the digest (40 for
    the 20 bytes of SHA-1), all of them among [0-9a-f]. *)
Theorem sha1Hex_fingerprint_shape :
  forall (W : World) (u : string),
    String.length (fingerprint W u) = (2 * List.length (sha1 W u))%nat
    /\ all_chars is_hex_lower (fingerprint W u) = true.
Proof.
  intros W u; unfold fingerprint; induction (sha1 W u) as [|b l [IH1 IH2]].
  - split; reflexivity.
  - cbn [map]; rewrite concat_empty_sep.
    destruct (hex_byte_shape b (String.concat "" (map hex_byte l))) as [H1 H2].
    rewrite H1, H2, IH1; split; [cbn [List.length]; lia | exact IH2].
Qed.

(** ** The environment check *)

Lemma truthy_present (v : option string) :
  truthy_string (coalesce v "") = true <-> present v.
Proof.
  unfold present; destruct v as [s|]; cbn [coalesce].
  - rewrite truthy_string_nonempty; split.
    + intros H; exists s; now split.
    + intros (s' & E & H); now injection E as ->.
  - split; [discriminate | intros (s & E & _); discriminate].
Qed.

Lemma missing_env_nil (cfg : Config) :
  missing_env cfg = [] <->
  present (SLACK_BOT_TOKEN cfg) /\ present (SLACK_CHANNEL_ID cfg)
  /\ present (UPSTASH_REDIS_REST cfg) /\ present (UPSTASH_REDIS_TOKEN cfg).
Proof.
  rewrite <- !truthy_present; unfold missing_env; cbn [flat_map fst snd app].
  destruct (truthy_string (coalesce (SLACK_BOT_TOKEN cfg) ""));
    destruct (truthy_string (coalesce (SLACK_CHANNEL_ID cfg) ""));
    destruct (truthy_string (coalesce (UPSTASH_REDIS_REST cfg) ""));
    destruct (truthy_string (coalesce (UPSTASH_REDIS_TOKEN cfg) ""));
    cbn [app]; split; try discriminate; try tauto;
    intros (H1 & H2 & H3 & H4); discriminate.
Qed.

Lemma unset_present (v : option string) : unset v = false <-> present v.
Proof.
  unfold present; destruct v as [[|c s]|]; cbn [unset]; split;
    try discriminate.
  - intros (s' & E & H); injection E as <-; now contradiction H.
  - intros _; eexists; split; [reflexivity | discriminate].
  - intros _; reflexivity.
  - intros (s' & E & _); discriminate.
Qed.

Lemma missing_env_names (cfg : Config) : missing_env cfg = names_missing cfg.
Proof.
  unfold missing_env, names_missing; cbn [flat_map fst snd].
  destruct (SLACK_BOT_TOKEN cfg) as [[|? ?]|];
    destruct (SLACK_CHANNEL_ID cfg) as [[|? ?]|];
    destruct (UPSTASH_REDIS_REST cfg) as [[|? ?]|];
    destruct (UPSTASH_REDIS_TOKEN cfg) as [[|? ?]|]; reflexivity.
Qed.

(** X3.  The environment check passes exactly when the four secrets
    SLACK_BOT_TOKEN, SLACK_CHANNEL_ID, UPSTASH_REDIS_REST and
    UPSTASH_REDIS_TOKEN are set and not empty.  When one is absent or
    empty, both handlers reply 500 with "Missing env vars: " and the names
    of those that are absent or empty, in that order and separated by
    ", ", and do nothing else: no request is sent, whatever the world.
    When all four are set, neither handler replies 500: a reply, if the run
    gets to one, has status 200, and when the feeds yield no article both
    handlers reply 200 at once, "OK - no new items" and "OK - posted 0". *)
Theorem handler_refuses_incomplete_environment :
  forall (cfg : Config) (W : World) (h : History),
    let complete :=
      present (SLACK_BOT_TOKEN cfg) /\ present (SLACK_CHANNEL_ID cfg)
      /\ present (UPSTASH_REDIS_REST cfg)
      /\ present (UPSTASH_REDIS_TOKEN cfg) in
    (forall v : option string, unset v = false <-> present v)
    /\ (names_missing cfg = [] <-> complete)
    /\ (~ complete ->
        Digest.handler cfg W h = (Returned (missing_reply cfg), h)
        /\ PerArticle.handler cfg W h = (Returned (missing_reply cfg), h))
    /\ (complete ->
        (forall (r : Reply) (h' : History),
            Digest.handler cfg W h = (Returned r, h') -> code r = 200)
        /\ (forall (r : Reply) (h' : History),
              PerArticle.handler cfg W h = (Returned r, h') -> code r = 200)
        /\ (feed_articles W (RSS_FEEDS cfg) = [] ->
            Digest.handler cfg W h
            = (Returned {| code := 200; body := "OK - no new items" |}, h)
            /\ PerArticle.handler cfg W h
               = (Returned {| code := 200; body := "OK - posted 0" |}, h))).
Proof.
  intros cfg W h complete.
  split; [exact unset_present|].
  split; [rewrite <- missing_env_names; apply missing_env_nil|].
  split.
  - intros Hn.
    assert (Hm : missing_env cfg <> []) by (rewrite missing_env_nil; exact Hn).
    unfold Digest.handler, PerArticle.handler, missing_reply.
    rewrite <- missing_env_names.
    destruct (missing_env cfg) as [|k ks]; [now contradiction Hm|].
    split; reflexivity.
  - intros Hc; apply missing_env_nil in Hc.
    split; [|split]; [intros r h' E | intros r h' E |].
    + rewrite (handler_run cfg W h Hc) in E.
      destruct (Digest.collectFresh _ _ _ W h) as [[fresh|e] h1];
        [|discriminate].
      destruct (List.length fresh =? 0)%nat;
        [injection E as <- _; reflexivity|].
      destruct (Digest.postDigestToSlack fresh W h1) as [[[]|e] h2];
        [|discriminate].
      destruct (Digest.markSeen fresh W h2) as [[oks|e] h3];
        [|discriminate].
      injection E as <- _; reflexivity.
    + unfold PerArticle.handler in E; rewrite Hc in E.
      cbn [List.length Nat.eqb negb] in E.
      unfold bind at 1 in E; unfold fetchFeeds at 1 in E.
      unfold bind at 1 in E.
      destruct (PerArticle.postEach _ _ _ W h) as [[n|e] h1];
        [|discriminate].
      injection E as <- _; reflexivity.
    + intros Hf; split.
      * rewrite (handler_run cfg W h Hc); unfold scored_articles.
        rewrite Hf; reflexivity.
      * unfold PerArticle.handler; rewrite Hc.
        cbn [List.length Nat.eqb negb].
        unfold bind at 1; unfold fetchFeeds at 1; unfold bind at 1.
        rewrite Hf; reflexivity.
Qed.

Lemma handler_refuses_incomplete_environment_witness :
  Digest.handler incomplete_config empty_store_world []
  = (Returned {| code := 500;
                 body := "Missing env vars: SLACK_BOT_TOKEN, SLACK_CHANNEL_ID" |},
     []).
Proof.
  refine (proj1 (proj1 (proj2 (proj2 (handler_refuses_incomplete_environment
                                        incomplete_config empty_store_world [])))
                   _)).
  intros ((s & E & _) & _); discriminate.
Defined.

(** ** Gathering the articles of the feeds *)

Lemma articles_of_feed_urls (feedUrl : string) (feed : Feed) :
  map url (articles_of_feed feedUrl feed)
  = filter truthy_string (map entry_url (coalesce (feed_items feed) [])).
Proof.
  unfold articles_of_feed.
  induction (coalesce (feed_items feed) []) as [|e es IH]; [reflexivity|].
  cbn [flat_map map filter]; fold (entry_url e).
  destruct (truthy_string (entry_url e)); cbn [negb app map];
    now rewrite IH.
Qed.

Lemma articles_of_feed_source (feedUrl : string) (feed : Feed) :
  Forall (fun a => source a = coalesce (feed_title feed) feedUrl)
    (articles_of_feed feedUrl feed).
Proof.
  unfold articles_of_feed.
  induction (coalesce (feed_items feed) []) as [|e es IH]; [constructor|].
  cbn [flat_map].
  destruct (truthy_string _); cbn [negb app]; [constructor; [reflexivity|]|];
    exact IH.
Qed.

(** X4.  From a feed the loop keeps one article per entry whose link (or,
    when it has no link property, its guid) is not the empty string, in
    the order of the feed; the other entries are dropped, so no article has
    an empty URL, and an entry whose link is the empty string is dropped
    even when it has a guid.  Every article of the feed carries the title of
    the feed as its source, or the URL of the feed when it has no title. *)
Theorem articles_of_feed_keeps_entries_with_url :
  forall (feedUrl : string) (feed : Feed),
    map url (articles_of_feed feedUrl feed)
    = filter truthy_string (map entry_url (coalesce (feed_items feed) []))
    /\ Forall (fun a => url a <> "") (articles_of_feed feedUrl feed)
    /\ Forall (fun a => source a = coalesce (feed_title feed) feedUrl)
         (articles_of_feed feedUrl feed)
    /\ (forall e : Entry, entry_link e = Some "" -> entry_url e = "")
    /\ (forall (e : Entry) (g : string),
          entry_link e = None -> entry_guid e = Some g -> entry_url e = g).
Proof.
  intros feedUrl feed; split; [apply articles_of_feed_urls|].
  split; [|split; [apply articles_of_feed_source|split]].
  - pose proof (articles_of_feed_urls feedUrl feed) as E.
    rewrite Forall_forall; intros a Ha.
    apply (in_map url) in Ha; rewrite E in Ha.
    apply filter_In in Ha; destruct Ha as [_ Ha].
    now apply truthy_string_nonempty.
  - intros e E; unfold entry_url; now rewrite E.
  - intros e g El Eg; unfold entry_url; now rewrite El, Eg.
Qed.

Lemma feed_articles_app (W : World) (f1 f2 : list string) :
  feed_articles W (f1 ++ f2) = (feed_articles W f1 ++ feed_articles W f2)%list.
Proof. apply flat_map_app. Qed.

Lemma feed_articles_answering (W : World) (feeds : list string) :
  feed_articles W feeds = feed_articles W (filter (feed_answers W) feeds).
Proof.
  unfold feed_articles; induction feeds as [|u us IH]; [reflexivity|].
  cbn [flat_map filter]; unfold feed_answers at 1.
  destruct (parseURL W u) eqn:E; cbn [flat_map app]; [rewrite E|];
    now rewrite IH.
Qed.

Lemma feed_articles_all_down (W : World) (feeds : list string) :
  (forall u, In u feeds -> parseURL W u = None) -> feed_articles W feeds = [].
Proof.
  intros H; unfold feed_articles; induction feeds as [|u us IH]; [reflexivity|].
  cbn [flat_map]; rewrite (H u (or_introl eq_refl)), IH; [reflexivity|].
  intros v Hv; apply H; now right.
Qed.

(** X5.  A feed that cannot be fetched or parsed is skipped and the others
    are read as if it was not configured; the articles come feed by feed,
    in the order of [RSS_FEEDS].  When every feed fails, the run is not an
    error: both handlers reply 200 without sending any request. *)
Theorem failing_feeds_are_skipped :
  forall (cfg : Config) (W : World) (h : History),
    missing_env cfg = [] ->
    (forall u, In u (RSS_FEEDS cfg) -> parseURL W u = None) ->
    (forall feeds : list string,
        feed_articles W feeds = feed_articles W (filter (feed_answers W) feeds))
    /\ (forall f1 f2 : list string,
          feed_articles W (f1 ++ f2)
          = (feed_articles W f1 ++ feed_articles W f2)%list)
    /\ Digest.handler cfg W h = (Returned no_new_items, h)
    /\ PerArticle.handler cfg W h
       = (Returned {| code := 200; body := "OK - posted 0" |}, h).
Proof.
  intros cfg W h Hm Hd.
  split; [apply feed_articles_answering|]; split; [apply feed_articles_app|].
  pose proof (feed_articles_all_down W (RSS_FEEDS cfg) Hd) as E.
  split.
  - rewrite (handler_run cfg W h Hm); unfold scored_articles; rewrite E.
    reflexivity.
  - unfold PerArticle.handler; rewrite Hm; cbn [List.length Nat.eqb negb].
    unfold bind, fetchFeeds; rewrite E; reflexivity.
Qed.

Lemma failing_feeds_are_skipped_witness :
  Digest.handler feeds_down_config empty_store_world []
  = (Returned no_new_items, []).
Proof.
  refine (proj1 (proj2 (proj2 (failing_feeds_are_skipped feeds_down_config
                                 empty_store_world [] eq_refl _)))).
  intros u [<- | [<- | []]]; reflexivity.
Defined.

(** ** What the cache client and the Slack posters accept *)

Ltac break_hyps :=
  repeat match goal with
         | H : exists _, _ |- _ => destruct H
         | H : _ /\ _ |- _ => destruct H
         | H : _ \/ _ |- _ => destruct H
         | H : Got _ = Got _ |- _ => injection H as <-
         | H : Some _ = Some _ |- _ => injection H as <-
         | H : JObj _ = JObj _ |- _ => injection H as <-
         | H : nullish _ |- _ => unfold nullish in H
         | H : affirms _ _ |- _ => unfold affirms in H
         end.

Ltac settle := break_hyps; try discriminate; try congruence.

Ltac break_more :=
  repeat match goal with
         | H : Returned _ = Returned _ |- _ => injection H as <-
         | H : Threw _ = Threw _ |- _ => injection H as <-
         end.

Ltac conclude r :=
  settle; cbn [fst snd] in *; settle; break_more; cbn [truthy] in *; settle;
  try match goal with
      | E1 : json_body ?x = Some _, E2 : json_body ?x = Some _ |- _ =>
          rewrite E1 in E2; injection E2 as <-
      end;
  try solve
    [ now left
    | eexists; reflexivity
    | eexists; split; [reflexivity | assumption]
    | right; exists r; split; [reflexivity|]; split; [assumption|];
      first [ now left
            | right; eexists; split; [eassumption|]; unfold nullish; auto ]
    | exists r; split; [reflexivity|]; unfold affirms; split; [assumption|];
      eexists; split; [eassumption | assumption] ].

(** X6.  A read sends exactly one request.  It reports an article as seen
    only when the store answers with a success whose JSON body is an object
    with a truthy [result]; it throws exactly when the request is rejected,
    or the store answers with a success whose body is not JSON or is
    [null]; in every other case it returns a falsy value. *)
Theorem upstashGet_outcomes :
  forall (key : string) (W : World) (h : History),
    snd (upstashGet key W h) = (h ++ [KvGet key])%list
    /\ ((exists v, fst (upstashGet key W h) = Returned v /\ truthy v = true)
        <-> exists r, reply W h (KvGet key) = Got r /\ affirms "result" r)
    /\ ((exists e, fst (upstashGet key W h) = Threw e)
        <-> reply W h (KvGet key) = Rejected
            \/ exists r, reply W h (KvGet key) = Got r /\ ok r = true
                         /\ (json_body r = None
                             \/ exists v, json_body r = Some v /\ nullish v)).
Proof.
  intros key W h; split; [apply upstashGet_history|].
  rewrite upstashGet_run; cbv zeta.
  destruct (reply W h (KvGet key)) as [|r] eqn:Er.
  - split; split; intros H; conclude tt.
  - destruct (ok r) eqn:Eo; cbn [negb].
    + destruct (json_body r) as [v|] eqn:Eb.
      * destruct v; cbn [get_prop ret throw fst]; split; split; intros H;
          conclude r.
      * split; split; intros H; conclude r.
    + split; split; intros H; conclude r.
Qed.


Lemma check_slack_accepts (r : Response) (W : World) (h : History) :
  (fst (check_slack r W h) = Returned tt <-> affirms "ok" r)
  /\ (fst (check_slack r W h) = Returned tt
      \/ exists e, fst (check_slack r W h) = Threw e).
Proof.
  unfold check_slack, bind, catch, json, affirms.
  destruct (json_body r) as [v|] eqn:Eb; cbn [ret throw].
  - destruct (ok r) eqn:Eo; cbn [negb].
    + destruct v; cbn [get_prop ret throw];
        try (split; [split; intros H; settle | right; eexists; reflexivity]).
      destruct (truthy (assoc "ok" fields)) eqn:Et; cbn [negb fst].
      * split; [|now left].
        split; [intros _; split; [reflexivity|]; eexists; split;
                [reflexivity | exact Et] | reflexivity].
      * split; [split; intros H; settle | right; eexists; reflexivity].
    + split; [split; intros H; settle | right; eexists; reflexivity].
  - destruct (ok r) eqn:Eo; cbn [negb get_prop ret throw assoc truthy fst];
      (split; [split; intros H; settle | right; eexists; reflexivity]).
Qed.

(** X7.  For a list that is not empty the digest poster sends one request
    and succeeds exactly when Slack answers with a success whose JSON body
    is an object with a truthy [ok]; a rejected request, another status, a
    body that is not JSON or an [ok] that is false make it throw.  For an
    empty list it returns without sending anything. *)
Theorem postDigestToSlack_accepts_only_ok :
  forall (it : Fresh) (rest : list Fresh) (W : World) (h : History),
    let post := Digest.postDigestToSlack (it :: rest) in
    snd (post W h) = (h ++ [digest_post W (it :: rest)])%list
    /\ (fst (post W h) = Returned tt
        <-> exists r, reply W h (digest_post W (it :: rest)) = Got r
                      /\ affirms "ok" r)
    /\ (fst (post W h) = Returned tt \/ exists e, fst (post W h) = Threw e)
    /\ Digest.postDigestToSlack [] W h = (Returned tt, h).
Proof.
  intros it rest W h post.
  split; [apply postDigestToSlack_history; discriminate|].
  assert (Hpost : post W h =
                  match reply W h (digest_post W (it :: rest)) with
                  | Rejected => (Threw FetchFailed,
                                 (h ++ [digest_post W (it :: rest)])%list)
                  | Got r => check_slack r W
                               (h ++ [digest_post W (it :: rest)])%list
                  end).
  { subst post; unfold Digest.postDigestToSlack, bind, fetch, digest_post.
    cbn [List.length Nat.eqb].
    destruct (reply W h _); reflexivity. }
  split; [|split; [|reflexivity]].
  - rewrite Hpost; destruct (reply W h _) as [|r].
    + split; intros H; settle.
    + rewrite (proj1 (check_slack_accepts r W _)); split.
      * intros H; exists r; now split.
      * intros (r' & E & H); now injection E as <-.
  - rewrite Hpost; destruct (reply W h _) as [|r].
    + right; eexists; reflexivity.
    + apply check_slack_accepts.
Qed.

(** X8.  A digest that cannot be delivered is fatal for the run: when the
    Slack post throws, the handler throws the same error, and the run has
    written nothing to the cache, so the articles stay unseen for the next
    run. *)
Theorem failed_digest_marks_nothing_seen :
  forall (cfg : Config) (W : World) (fresh : list Fresh) (h1 h2 : History)
         (e : Exn),
    missing_env cfg = [] ->
    Digest.collectFresh (POST_MAX cfg) (scored_articles cfg W) [] W []
    = (Returned fresh, h1) ->
    Digest.postDigestToSlack fresh W h1 = (Threw e, h2) ->
    Digest.handler cfg W [] = (Threw e, h2)
    /\ filter is_write h2 = []
    /\ filter is_slack h2 = [digest_post W fresh].
Proof.
  intros cfg W fresh h1 h2 e Hm Hc Hp.
  destruct fresh as [|it fresh]; [discriminate Hp|].
  rewrite (handler_run cfg W [] Hm), Hc; cbn [List.length Nat.eqb].
  rewrite Hp; split; [reflexivity|].
  destruct (collectFresh_history (POST_MAX cfg) W (scored_articles cfg W) [] [])
    as (visited & rest & _ & Hh).
  rewrite Hc in Hh; cbn in Hh; subst h1.
  assert (Hne : it :: fresh <> []) by discriminate.
  pose proof (postDigestToSlack_history (it :: fresh) W
                (map (query W) visited) Hne) as Hs.
  rewrite Hp in Hs; cbn [snd] in Hs; subst h2.
  rewrite !filter_app, !(filter_reads _ W visited) by reflexivity.
  split; reflexivity.
Qed.

Lemma failed_digest_marks_nothing_seen_witness :
  exists (e : Exn) (sent : History),
    Digest.handler (example_config 10) slack_refusing_world [] = (Threw e, sent)
    /\ filter is_write sent = [].
Proof.
  do 2 eexists.
  refine ((fun H => conj (proj1 H) (proj1 (proj2 H)))
            (failed_digest_marks_nothing_seen (example_config 10)
               slack_refusing_world
               (map (keyed slack_refusing_world) example_scored)
               [KvGet "61"; KvGet "62"] _ _ eq_refl eq_refl _)).
  cbv; reflexivity.
Defined.

(** ** What the digest handler collects, in any world *)

Lemma subseq_Forall {A : Type} (P : A -> Prop) (l1 l2 : list A) :
  subseq l1 l2 -> Forall P l2 -> Forall P l1.
Proof.
  induction 1 as [|x l1 l2 _ IH|x l1 l2 _ IH]; intros H; [constructor| |];
    inversion H; subst; [now apply IH | constructor; [assumption | now apply IH]].
Qed.

Lemma subseq_descending {A : Type} (key : A -> Z) (l1 l2 : list A) :
  subseq l1 l2 -> descending key l2 -> descending key l1.
Proof.
  unfold descending.
  induction 1 as [|x l1 l2 Hs IH|x l1 l2 Hs IH]; intros H; [constructor| |];
    inversion H; subst; [now apply IH|].
  constructor; [now apply IH|].
  now apply (subseq_Forall _ _ _ Hs).
Qed.

Lemma map_scored_item_keyed (W : World) (kept : list Scored) :
  map scored_item (map (keyed W) kept) = kept.
Proof. induction kept as [|x l IH]; cbn; [reflexivity | now rewrite IH]. Qed.

Lemma allowance_reached (n : nat) (cap : Num) :
  reaches (n + 1) cap = true -> allowance cap n = Some 1%nat.
Proof.
  rewrite reaches_threshold; unfold allowance.
  destruct (threshold cap) as [c|]; [|discriminate].
  intros H; apply Z.leb_le in H; cbn [option_map]; f_equal.
  unfold room; lia.
Qed.

Lemma allowance_more (n : nat) (cap : Num) :
  reaches (n + 1) cap = false ->
  allowance cap n = option_map S (allowance cap (n + 1)).
Proof.
  rewrite reaches_threshold; unfold allowance.
  destruct (threshold cap) as [c|]; [|reflexivity].
  intros H; apply Z.leb_gt in H; cbn [option_map]; f_equal.
  unfold room; lia.
Qed.

Lemma allowance_positive (n k : nat) (cap : Num) :
  allowance cap n = Some k -> (1 <= k)%nat.
Proof.
  unfold allowance; destruct (threshold cap) as [c|]; [|discriminate].
  cbn [option_map]; intros E; injection E as <-; unfold room; lia.
Qed.


Lemma read_unseen_subseq (W : World) (visited : list Scored) :
  forall h : History, subseq (read_unseen W h visited) visited.
Proof.
  induction visited as [|it tl IH]; intros h; cbn [read_unseen];
    [constructor|].
  destruct (fst (upstashGet _ W h)) as [v|e];
    [destruct (truthy v)|]; constructor; apply IH.
Qed.

(** Whatever the cache answers, the loop reads the cache for a prefix of
    the list.  When it returns, it returns what it had plus the articles of
    that prefix that were read as unseen, within the allowance of the cap,
    and it has left articles unread only when the allowance is used up.
    When it throws, the last read threw. *)
Lemma collectFresh_trace (W : World) (cap : Num) (scored : list Scored) :
  forall (fresh0 : list Fresh) (h : History),
    exists visited rest : list Scored,
      scored = (visited ++ rest)%list
      /\ snd (Digest.collectFresh cap scored fresh0 W h)
         = (h ++ map (query W) visited)%list
      /\ match fst (Digest.collectFresh cap scored fresh0 W h) with
         | Returned fresh =>
             let kept := read_unseen W h visited in
             fresh = (fresh0 ++ map (keyed W) kept)%list
             /\ (forall k : nat,
                   allowance cap (List.length fresh0) = Some k ->
                   (List.length kept <= k)%nat)
             /\ (rest <> [] ->
                 allowance cap (List.length fresh0)
                 = Some (List.length kept))
         | Threw e =>
             exists (front : list Scored) (last : Scored),
               visited = (front ++ [last])%list
               /\ fst (upstashGet (fingerprint W (url (article last))) W
                         (h ++ map (query W) front)%list) = Threw e
         end.
Proof.
  induction scored as [|it tl IH]; intros fresh0 h.
  - exists [], []; cbn; rewrite !app_nil_r.
    split; [reflexivity|]; split; [reflexivity|]; split; [reflexivity|].
    split; [intros k Hk; lia | intros H; now contradiction H].
  - rewrite collectFresh_step.
    pose proof (upstashGet_history (fingerprint W (url (article it))) W h) as Hh.
    destruct (upstashGet _ W h) as [[v|e] h1] eqn:Eg; cbn [snd] in Hh; subst h1.
    + fold (query W it).
      destruct (truthy v) eqn:Ev.
      * destruct (IH fresh0 (h ++ [query W it])%list)
          as (vis & rest & Htl & Hs & Hf).
        exists (it :: vis), rest; split; [now rewrite Htl|].
        split; [rewrite Hs; cbn [map]; now rewrite <- app_assoc|].
        destruct (fst (Digest.collectFresh cap tl fresh0 W _)) as [fresh|e].
        -- cbn [read_unseen]; rewrite Eg; cbn [fst]; rewrite Ev.
           exact Hf.
        -- destruct Hf as (front & last & -> & Hl).
           exists (it :: front), last; split; [reflexivity|].
           cbn [map]; rewrite <- app_assoc in Hl; exact Hl.
      * cbv zeta; rewrite length_app; cbn [List.length].
        destruct (reaches _ cap) eqn:Ec.
        -- exists [it], tl; split; [reflexivity|]; split; [reflexivity|].
           cbn [fst read_unseen]; rewrite Eg; cbn [fst]; rewrite Ev.
           cbn [map List.length].
           split; [reflexivity|].
           rewrite (allowance_reached _ _ Ec).
           split; [intros k Hk; injection Hk as <-; lia | reflexivity].
        -- destruct (IH (fresh0 ++ [keyed W it])%list (h ++ [query W it])%list)
             as (vis & rest & Htl & Hs & Hf).
           exists (it :: vis), rest; split; [now rewrite Htl|].
           split; [rewrite Hs; cbn [map]; now rewrite <- app_assoc|].
           destruct (fst (Digest.collectFresh cap tl _ W _)) as [fresh|e].
           ++ cbn [read_unseen]; rewrite Eg; cbn [fst]; rewrite Ev.
              cbv zeta in Hf; destruct Hf as (-> & Hb & Hr).
              rewrite length_app in Hb, Hr; cbn [List.length] in Hb, Hr.
              rewrite (allowance_more _ _ Ec).
              cbv zeta; cbn [map List.length].
              split; [now rewrite <- app_assoc|].
              split.
              ** intros k Hk.
                 destruct (allowance cap (List.length fresh0 + 1)) as [k'|];
                   [|discriminate].
                 cbn [option_map] in Hk; injection Hk as <-.
                 specialize (Hb k' eq_refl); lia.
              ** intros Hne; now rewrite (Hr Hne).
           ++ destruct Hf as (front & last & -> & Hl).
              exists (it :: front), last; split; [reflexivity|].
              cbn [map]; rewrite <- app_assoc in Hl; exact Hl.
    + exists [it], tl; split; [reflexivity|]; split; [reflexivity|].
      cbn [fst]; exists [], it; split; [reflexivity|].
      cbn [map]; rewrite app_nil_r, Eg; reflexivity.
Qed.

Lemma feed_articles_urls (W : World) (feeds : list string) :
  Forall (fun a => url a <> "") (feed_articles W feeds).
Proof.
  unfold feed_articles; induction feeds as [|u us IH]; [constructor|].
  cbn [flat_map]; apply Forall_app; split; [|exact IH].
  destruct (parseURL W u) as [feed|]; [|constructor].
  pose proof (articles_of_feed_urls u feed) as E.
  rewrite Forall_forall; intros a Ha.
  apply (in_map url) in Ha; rewrite E in Ha.
  apply filter_In in Ha; destruct Ha as [_ Ha].
  now apply truthy_string_nonempty.
Qed.

Lemma scored_articles_sound (cfg : Config) (W : World) :
  descending score (scored_articles cfg W)
  /\ Forall (fun s => url (article s) <> ""
                      /\ score s = Digest.scoreArticle (title (article s))
                                     (summary (article s))
                      /\ no_less (score s) (MIN_SCORE cfg))
       (scored_articles cfg W).
Proof.
  unfold scored_articles, scoreAndFilter; split.
  - apply (array_sort_descending score).
  - rewrite Forall_forall; intros s Hs.
    apply (Permutation_in _ (array_sort_perm score _)) in Hs.
    apply filter_In in Hs; destruct Hs as [Hs Hm].
    apply in_map_iff in Hs; destruct Hs as (a & <- & Ha).
    pose proof (feed_articles_urls W (RSS_FEEDS cfg)) as Hu.
    rewrite Forall_forall in Hu.
    unfold scored_by in *; cbn [score article] in *.
    apply js_ge_no_less in Hm.
    repeat split; [now apply Hu | exact Hm].
Qed.

Lemma subseq_app_r {A : Type} (l1 l2 r : list A) :
  subseq l1 l2 -> subseq l1 (l2 ++ r).
Proof.
  induction 1; cbn [app]; [apply subseq_nil_l | |]; now constructor.
Qed.

(** X9.  Whatever the cache answers, when the loop of the digest handler
    returns, the items it collected are articles of the scored list in the
    order of that list, so in descending order of score.  Their number is
    within the limit of the cap: [POST_MAX] rounded up to a whole number,
    and 1 when that is below 1; so for a whole [POST_MAX] it is at most
    [POST_MAX], or 1 when [POST_MAX] is below 1.  A [POST_MAX] that is NaN
    or +Infinity has no limit.  Each item has a URL that is not empty, the
    fingerprint of that URL as its cache key, the score of its title and
    summary, and a score of at least [MIN_SCORE]. *)
Theorem collected_items_are_well_formed :
  forall (cfg : Config) (W : World) (h h' : History) (fresh : list Fresh),
    Digest.collectFresh (POST_MAX cfg) (scored_articles cfg W) [] W h
    = (Returned fresh, h') ->
    subseq (map scored_item fresh) (scored_articles cfg W)
    /\ descending score (map scored_item fresh)
    /\ (forall k : nat,
          limit (POST_MAX cfg) = Some k -> (List.length fresh <= k)%nat)
    /\ (forall n : Z,
          POST_MAX cfg = num_of_Z n ->
          (List.length fresh <= Z.to_nat (Z.max 1 n))%nat)
    /\ Forall (well_formed_item cfg W) fresh.
Proof.
  intros cfg W h h' fresh E.
  destruct (collectFresh_trace W (POST_MAX cfg) (scored_articles cfg W) [] h)
    as (visited & rest & Hv & _ & Hf).
  rewrite E in Hf; cbn [fst app List.length] in Hf.
  destruct Hf as (-> & Hb & _).
  assert (Hs : subseq (read_unseen W h visited) (scored_articles cfg W))
    by (rewrite Hv; apply subseq_app_r, read_unseen_subseq).
  destruct (scored_articles_sound cfg W) as [Hd Hf].
  rewrite map_scored_item_keyed, length_map.
  split; [exact Hs|]; split; [exact (subseq_descending _ _ _ Hs Hd)|].
  rewrite <- limit_allowance in Hb.
  split; [exact Hb|]; split.
  - intros n Hn; apply Hb; rewrite Hn; apply limit_num_of_Z.
  - pose proof (subseq_Forall _ _ _ Hs Hf) as Hk.
    rewrite Forall_forall in *; intros f Hin.
    apply in_map_iff in Hin; destruct Hin as (s & <- & Hin).
    destruct (Hk s Hin) as (H1 & H2 & H3).
    unfold well_formed_item, keyed; cbn [scored_item _redisKey].
    repeat split; assumption.
Qed.

Lemma collected_items_are_well_formed_witness :
  (List.length (map (keyed a_seen_world) (skipn 1 example_scored))
   <= Z.to_nat (Z.max 1 10))%nat
  /\ Forall (well_formed_item (example_config 10) a_seen_world)
       (map (keyed a_seen_world) (skipn 1 example_scored)).
Proof.
  refine ((fun H => conj (proj1 (proj2 (proj2 (proj2 H))) 10 eq_refl)
                      (proj2 (proj2 (proj2 (proj2 H)))))
            (collected_items_are_well_formed (example_config 10)
               a_seen_world [] [KvGet "61"; KvGet "62"]
               (map (keyed a_seen_world) (skipn 1 example_scored))
               eq_refl)).
Defined.

(** ** The requests of a run of the digest handler *)

(** X10.  Whatever the world does, a run of the digest handler that has
    passed the environment check sends its requests in three phases: reads
    of the cache for a prefix of the scored list; then, when no read threw
    and some article was read as unseen, one post to Slack, the digest of
    exactly the articles read as unseen, in the order they were read; then,
    only when that post succeeded, one write per item of the digest.  The
    run throws when a read or the post throws, and sends nothing after it.
    It replies "no new items" only without a post and after reading the
    whole list, and "posted digest with N items" only after all N writes
    were sent. *)
Theorem handler_requests_come_in_phases :
  forall (cfg : Config) (W : World) (o : Outcome Reply) (sent : History),
    missing_env cfg = [] ->
    Digest.handler cfg W [] = (o, sent) ->
    run_in_phases cfg W o sent.
Proof.
  intros cfg W o sent Hm E; unfold run_in_phases.
  rewrite (handler_run cfg W [] Hm) in E.
  destruct (collectFresh_trace W (POST_MAX cfg) (scored_articles cfg W) [] [])
    as (visited & rest & Hs & Hh & Hf).
  exists visited, rest; split; [exact Hs|]; cbv zeta.
  destruct (Digest.collectFresh _ _ _ W []) as [[fresh|e] h1];
    cbn [fst snd app List.length] in Hh, Hf; subst h1.
  - destruct Hf as (-> & Hb & Hr).
    destruct (read_unseen W [] visited) as [|it kept] eqn:Ek;
      cbn [map List.length Nat.eqb] in E.
    + injection E as <- <-; right; left.
      split; [reflexivity|]; split; [|split; reflexivity].
      destruct rest as [|x rest]; [reflexivity|].
      assert (Hne : x :: rest <> []) by discriminate.
      apply Hr, allowance_positive in Hne; cbn in Hne; lia.
    + change (keyed W it :: map (keyed W) kept)
        with (map (keyed W) (it :: kept)) in *.
      set (fresh := map (keyed W) (it :: kept)) in *.
      assert (Hne : fresh <> []) by discriminate.
      pose proof (postDigestToSlack_history fresh W
                    (map (query W) visited) Hne) as Hp.
      destruct (Digest.postDigestToSlack fresh W _) as [[[]|e] h2];
        cbn [snd] in Hp; subst h2.
      * pose proof (markSeen_history fresh W
                      (map (query W) visited
                       ++ [digest_post W fresh])%list) as Hw.
        right; right; right; split; [exact Hne|].
        destruct (Digest.markSeen fresh W _) as [[oks|e] h3];
          cbn [snd] in Hw; subst h3; injection E as <- <-;
          rewrite <- app_assoc; (split; [reflexivity|]);
          (split; [reflexivity|]); [now left | right; eexists; reflexivity].
      * injection E as <- <-; right; right; left; split; [exact Hne|].
        split; [reflexivity | eexists; split; reflexivity].
  - injection E as <- <-; left.
    destruct Hf as (front & last & Hv & Hl).
    exists e, front, last; split; [exact Hv|]; split; [exact Hl|].
    split; reflexivity.
Qed.

Lemma handler_requests_come_in_phases_witness :
  run_in_phases (example_config 10) rejected_write_world (Threw FetchFailed)
    ([KvGet "61"; KvGet "62"]
     ++ [digest_post rejected_write_world
           (map (keyed rejected_write_world) example_scored)]
     ++ map mark_request (map (keyed rejected_write_world) example_scored))%list.
Proof.
  refine (handler_requests_come_in_phases (example_config 10)
            rejected_write_world _ _ eq_refl _).
  vm_compute; reflexivity.
Defined.

(** ** A run in which every service answers *)

Lemma postDigestToSlack_accepted (W : World) (fresh : list Fresh) (h : History) :
  slack_accepts_all W -> fresh <> [] ->
  Digest.postDigestToSlack fresh W h
  = (Returned tt, (h ++ [digest_post W fresh])%list).
Proof.
  intros HS Hne.
  pose proof (postDigestToSlack_history fresh W h Hne) as Hh.
  destruct fresh as [|it fresh]; [now contradiction Hne|].
  destruct (HS h (Digest.fallbackText (it :: fresh))
              (Digest.digest_blocks (today W) (it :: fresh))) as (r & Er & Ha).
  assert (E : fst (Digest.postDigestToSlack (it :: fresh) W h) = Returned tt).
  { unfold Digest.postDigestToSlack, bind, fetch.
    cbn [List.length Nat.eqb]; rewrite Er.
    now apply (proj1 (check_slack_accepts r W _)). }
  destruct (Digest.postDigestToSlack (it :: fresh) W h) as [o h2].
  cbn [fst snd] in *; now subst.
Qed.

(** X11.  When the environment is complete, the cache answers every
    read, Slack accepts the post and the store answers the writes, the
    handler reads the cache for the articles it visits, and then either
    nothing is new and it replies "OK - no new items", or it posts one
    digest of the unseen articles up to the limit of the cap, highest
    score first, writes one marker per article of the digest and replies
    with their number.  The limit is [POST_MAX] rounded up to a whole
    number, and 1 when that is below 1; there is none when [POST_MAX] is
    NaN or +Infinity.  The handler leaves articles unread only when the
    digest is at the limit, and then the last article it read is unseen. *)
Theorem handler_healthy_run :
  forall (cfg : Config) (W : World) (seen : string -> bool),
    missing_env cfg = [] ->
    cache_answers W seen ->
    slack_accepts_all W ->
    writes_answered W ->
    let included :=
      take_limit (limit (POST_MAX cfg))
        (filter (unseen W seen) (scored_articles cfg W)) in
    (forall n : Z,
        POST_MAX cfg = num_of_Z n -> 1 <= n ->
        included = firstn (Z.to_nat n)
                     (filter (unseen W seen) (scored_articles cfg W)))
    /\ descending score included
    /\ exists visited rest : list Scored,
         scored_articles cfg W = (visited ++ rest)%list
         /\ filter (unseen W seen) visited = included
         /\ (rest <> [] ->
             limit (POST_MAX cfg) = Some (List.length included)
             /\ exists front last,
                  visited = (front ++ [last])%list
                  /\ unseen W seen last = true)
         /\ Digest.handler cfg W [] = healthy_run W visited included.
Proof.
  intros cfg W seen Hm HC HS HWr included; split.
  { intros n Hn H1; subst included; rewrite Hn, limit_num_of_Z.
    cbn [take_limit]; now rewrite Z.max_r by exact H1. }
  split.
  { subst included; destruct (scored_articles_sound cfg W) as [Hd _].
    apply (descending_filter score (unseen W seen)) in Hd.
    destruct (limit (POST_MAX cfg)); cbn [take_limit];
      [now apply descending_firstn | exact Hd]. }
  destruct (collectFresh_cache_answers W seen (POST_MAX cfg) HC
              (scored_articles cfg W) [])
    as (visited & rest & Hs & E & F & L).
  cbn [app] in E; fold included in E, F, L.
  exists visited, rest; split; [exact Hs|]; split; [exact F|].
  split; [exact L|].
  rewrite (handler_run cfg W [] Hm), E; unfold healthy_run.
  destruct included as [|it inc]; [reflexivity|].
  cbn [map List.length Nat.eqb].
  change (keyed W it :: map (keyed W) inc) with (map (keyed W) (it :: inc)).
  assert (Hne : map (keyed W) (it :: inc) <> []) by discriminate.
  rewrite (postDigestToSlack_accepted W _ _ HS Hne).
  destruct (markSeen_returns (map (keyed W) (it :: inc)) W HWr
              (map (query W) visited
               ++ [digest_post W (map (keyed W) (it :: inc))])%list) as [oks Eo].
  pose proof (markSeen_history (map (keyed W) (it :: inc)) W
                (map (query W) visited
                 ++ [digest_post W (map (keyed W) (it :: inc))])%list) as Hh.
  destruct (Digest.markSeen _ W _) as [o h3]; cbn [fst snd] in Eo, Hh.
  subst o h3; rewrite <- app_assoc, length_map; reflexivity.
Qed.

Lemma handler_healthy_run_witness :
  exists visited rest : list Scored,
    scored_articles (example_config 1) a_seen_world = (visited ++ rest)%list
    /\ Digest.handler (example_config 1) a_seen_world []
       = healthy_run a_seen_world visited
           (firstn 1
              (filter (unseen a_seen_world a_seen)
                 (scored_articles (example_config 1) a_seen_world))).
Proof.
  refine ((fun H =>
             match proj2 (proj2 H) with
             | ex_intro _ visited (ex_intro _ rest (conj Hs (conj _ (conj _ E)))) =>
                 ex_intro _ visited (ex_intro _ rest (conj Hs E))
             end)
            (handler_healthy_run (example_config 1) a_seen_world a_seen
               eq_refl _ _ _)).
  - intros h key; rewrite upstashGet_run; cbn.
    unfold store_get, kv_result, a_seen; cbn.
    destruct (key =? "61")%string; eexists; split; reflexivity.
  - intros h text blocks; eexists; split; [reflexivity|].
    split; [reflexivity|]; eexists; split; reflexivity.
  - intros h key; discriminate.
Defined.

(** ** The blocks of the digest *)

Lemma slice_from_start (s : string) (n : nat) :
  slice s 0 (Z.of_nat n) = str_take n s.
Proof.
  unfold slice; rewrite Nat2Z.id; cbn [Z.to_nat]; rewrite Nat.sub_0_r.
  now destruct s.
Qed.

Lemma two_bullets (summary : string) :
  (List.length (makeSummaryBullets summary 2) <= 2)%nat
  /\ Forall neat (makeSummaryBullets summary 2).
Proof.
  destruct (clean_tidy summary) as [E|Ht].
  - rewrite (makeSummaryBullets_empty _ _ E); split; [cbn; lia | constructor].
  - assert (Hc : clean summary <> "") by exact (proj1 (tidy_no_leading _ Ht)).
    destruct (sentences_of_tidy _ Ht) as (_ & Hall & _).
    apply Forall_tidy_neat in Hall.
    rewrite (makeSummaryBullets_run _ _ Hc); cbv zeta.
    destruct (2 <=? _)%nat eqn:E1.
    + split; [rewrite length_firstn; lia|].
      rewrite Forall_forall in *; intros b Hb; apply Hall.
      exact (In_firstn _ _ _ Hb).
    + apply Nat.leb_gt in E1.
      destruct ((_ =? 1)%nat && _)%bool eqn:E2; [|split; [lia | exact Hall]].
      destruct (bisect_tidy (clean summary) Ht)
        as [[E _] | (i & E & _ & _ & _ & Hb1 & Hb2 & Ht1 & Ht2 & _)];
        cbv zeta in *.
      * rewrite E; split; [cbn; lia | exact Hall].
      * rewrite Hb1, Hb2, E.
        replace (Z.of_nat i >? -1) with true by (symmetry; apply Z.gtb_lt; lia).
        split; [cbn [List.length]; lia|].
        repeat constructor;
          first [ apply (tidy_neat _ Ht1) | apply (tidy_neat _ Ht2) ].
Qed.

Lemma str_take_drop (n : nat) (s : string) :
  s = str_take n s ++ str_drop n s.
Proof.
  revert s; induction n as [|n IH]; intros [|c s]; cbn; try reflexivity.
  now rewrite <- IH.
Qed.

Lemma str_take_length_min (n : nat) (s : string) :
  String.length (str_take n s) = Nat.min n (String.length s).
Proof.
  revert s; induction n as [|n IH]; intros [|c s]; cbn; try reflexivity.
  now rewrite IH.
Qed.

Lemma nth_error_pairs {A B : Type} (f : A -> B) (d : B) (l : list A) :
  forall (i : nat) (x : A),
    nth_error l i = Some x ->
    nth_error (flat_map (fun x => [f x; d]) l) (2 * i) = Some (f x)
    /\ nth_error (flat_map (fun x => [f x; d]) l) (1 + 2 * i) = Some d.
Proof.
  induction l as [|y l IH]; intros [|i] x E; try discriminate.
  - injection E as <-; split; reflexivity.
  - cbn [nth_error] in E; destruct (IH i x E) as [H1 H2].
    replace (2 * S i)%nat with (S (S (2 * i))) by lia.
    replace (1 + S (S (2 * i)))%nat with (S (S (1 + 2 * i))) by lia.
    split; [exact H1 | exact H2].
Qed.

(** X12.  The digest message has a header with the date, a divider, and
    then for every item, in the order of the items, one section followed
    by a divider, and nothing else: [2 + 2n] blocks for [n] items, the
    section of item [i] at place [2 + 2i] and its divider at [3 + 2i].  The
    section of an item shows the first 300 characters of its title (the
    whole title when it is shorter), the bullets the condenser makes of its
    summary, at most two, none of them empty or with white space at an
    end, and the URL, source and score of the item. *)
Theorem digest_blocks_layout :
  forall (today : string) (items : list Fresh),
    let blocks := Digest.digest_blocks today items in
    List.length blocks = (2 + 2 * List.length items)%nat
    /\ nth_error blocks 0 = Some (HeaderBlock today)
    /\ nth_error blocks 1 = Some Divider
    /\ forall (i : nat) (it : Fresh),
         nth_error items i = Some it ->
         (exists b : Block,
             nth_error blocks (2 + 2 * i) = Some b /\ section_of it b)
         /\ nth_error blocks (3 + 2 * i) = Some Divider.
Proof.
  intros today items blocks; subst blocks; unfold Digest.digest_blocks.
  split; [|split; [reflexivity|split; [reflexivity|]]].
  - cbn [List.length]; f_equal; f_equal.
    induction items as [|it l IH]; cbn [flat_map List.length app];
      [reflexivity | rewrite IH; lia].
  - intros i it E.
    destruct (nth_error_pairs
                (fun it =>
                   ItemSection (slice (title (article (scored_item it))) 0 300)
                     (makeSummaryBullets (summary (article (scored_item it))) 2)
                     (url (article (scored_item it)))
                     (source (article (scored_item it)))
                     (score (scored_item it)))
                Divider items i it E) as [H1 H2].
    split; [|exact H2].
    eexists; split; [exact H1|].
    change 300 with (Z.of_nat 300); rewrite slice_from_start.
    exists (str_take 300 (title (article (scored_item it)))),
      (str_drop 300 (title (article (scored_item it)))),
      (makeSummaryBullets (summary (article (scored_item it))) 2).
    split; [reflexivity|]; split; [apply str_take_drop|].
    split; [apply str_take_length_min|]; split; [reflexivity|].
    apply two_bullets.
Qed.

(** ** More on the scorer *)

Lemma includes_occurs (s pat : string) :
  includes s pat = true <-> occurs_in pat s.
Proof. apply includes_spec. Qed.

Lemma occurs_in_extend (b s pre post : string) :
  occurs_in b s -> occurs_in b (pre ++ s ++ post).
Proof.
  intros (x & y & ->); exists (pre ++ x), (y ++ post).
  now rewrite !str_app_assoc.
Qed.

Lemma matches_mono (txt txt' : string) (terms : list string) :
  (forall t, includes txt t = true -> includes txt' t = true) ->
  (matches txt terms <= matches txt' terms)%nat.
Proof.
  intros H; unfold matches; induction terms as [|t l IH]; cbn [filter];
    [lia|].
  destruct (includes txt t) eqn:E.
  - rewrite (H t E); cbn [List.length]; lia.
  - destruct (includes txt' t); cbn [List.length]; lia.
Qed.

Lemma score_with_extend (high infra : list string) (t s pre post : string) :
  score_with high infra t s <= score_with high infra (pre ++ t) (s ++ post).
Proof.
  rewrite !score_with_formula.
  assert (E : toLowerCase ((pre ++ t) ++ " " ++ s ++ post)
              = toLowerCase pre ++ toLowerCase (t ++ " " ++ s)
                ++ toLowerCase post).
  { rewrite <- !toLowerCase_app; f_equal.
    now rewrite !str_app_assoc. }
  assert (H : forall x, includes (toLowerCase (t ++ " " ++ s)) x = true ->
                        includes (toLowerCase ((pre ++ t) ++ " " ++ s ++ post)) x
                        = true).
  { intros x Hx; rewrite E; apply includes_occurs, occurs_in_extend.
    now apply includes_occurs. }
  pose proof (matches_mono _ _ high H).
  pose proof (matches_mono _ _ infra H).
  lia.
Qed.

(** X13.  Text put in front of the title or after the summary never lowers
    the score, for the scorer of either variant: a term that matched still
    matches. *)
Theorem scoreArticle_grows_with_text :
  forall title summary before after : string,
    Digest.scoreArticle title summary
    <= Digest.scoreArticle (before ++ title) (summary ++ after)
    /\ PerArticle.scoreArticle title summary
       <= PerArticle.scoreArticle (before ++ title) (summary ++ after).
Proof.
  intros t s pre post; split; apply score_with_extend.
Qed.

Lemma matches_two (txt x y : string) (terms : list string) :
  NoDup terms -> In x terms -> In y terms -> x <> y ->
  includes txt x = true -> includes txt y = true ->
  (2 <= matches txt terms)%nat.
Proof.
  intros Hnd Hx Hy Hxy Ix Iy; unfold matches.
  change 2%nat with (List.length [x; y]).
  apply NoDup_incl_length.
  - constructor; [intros [H|[]]; congruence|].
    constructor; [intros []|constructor].
  - intros z [<-|[<-|[]]]; apply filter_In; now split.
Qed.

Lemma occurs_in_part (a b c s : string) :
  occurs_in (a ++ b ++ c) s -> occurs_in b s.
Proof.
  intros (x & y & ->); exists (x ++ a), (c ++ y).
  now rewrite !str_app_assoc.
Qed.

(** X14.  Terms that contain one another count together.  A text that
    mentions "acquisition" also matches "acqui", one that mentions
    "colocation" also matches "colo", one that mentions "liquid cooling"
    also matches "cooling": each such mention scores at least 6, with the
    scorer of either variant. *)
Theorem overlapping_terms_count_twice :
  forall title summary : string,
    let txt := toLowerCase (title ++ " " ++ summary) in
    includes txt "acquisition" = true
    \/ includes txt "colocation" = true
    \/ includes txt "liquid cooling" = true ->
    6 <= Digest.scoreArticle title summary
    /\ 6 <= PerArticle.scoreArticle title summary.
Proof.
  intros t s txt H.
  assert (Hd : NoDup Digest.high) by (apply NoDup_strings; reflexivity).
  assert (Hp : NoDup PerArticle.high) by (apply NoDup_strings; reflexivity).
  assert (Hpair : exists x y, x <> y /\ In x Digest.high /\ In y Digest.high
                              /\ In x PerArticle.high /\ In y PerArticle.high
                              /\ includes txt x = true /\ includes txt y = true).
  { destruct H as [H | [H | H]].
    - exists "acquisition", "acqui"; repeat split;
        try discriminate; try (cbn; tauto); try exact H.
      apply includes_occurs, (occurs_in_part "" "acqui" "sition").
      now apply includes_occurs.
    - exists "colocation", "colo"; repeat split;
        try discriminate; try (cbn; tauto); try exact H.
      apply includes_occurs, (occurs_in_part "" "colo" "cation").
      now apply includes_occurs.
    - exists "liquid cooling", "cooling"; repeat split;
        try discriminate; try (cbn; tauto); try exact H.
      apply includes_occurs, (occurs_in_part "liquid " "cooling" "").
      now apply includes_occurs. }
  destruct Hpair as (x & y & Hxy & Hx & Hy & Hx' & Hy' & Ix & Iy).
  pose proof (matches_two txt x y _ Hd Hx Hy Hxy Ix Iy) as H1.
  pose proof (matches_two txt x y _ Hp Hx' Hy' Hxy Ix Iy) as H2.
  unfold Digest.scoreArticle, PerArticle.scoreArticle.
  rewrite !score_with_formula; fold txt; lia.
Qed.

Lemma overlapping_terms_count_twice_witness :
  6 <= Digest.scoreArticle "Liquid Cooling" "for racks"
  /\ 6 <= PerArticle.scoreArticle "Liquid Cooling" "for racks".
Proof.
  apply (overlapping_terms_count_twice "Liquid Cooling" "for racks").
  right; right; reflexivity.
Defined.

(** ** More on the condenser *)

Lemma tidy_from_weaken (s : string) : tidy_from true s = true -> tidy_from false s = true.
Proof.
  destruct s as [|c s]; [discriminate|]; cbn [tidy_from].
  destruct (is_space c); [|trivial].
  rewrite andb_false_r; discriminate.
Qed.

Lemma collapse_tidy (s : string) :
  forall b : bool, tidy_from b s = true -> collapse_from b s = s.
Proof.
  induction s as [|c s IH]; intros b; [reflexivity|].
  cbn [tidy_from collapse_from]; destruct (is_space c).
  - intros H; apply andb_prop in H; destruct H as [H Hs].
    apply andb_prop in H; destruct H as [Hc Hb].
    apply Ascii.eqb_eq in Hc; subst c.
    destruct b; [discriminate|]; now rewrite (IH true Hs).
  - intros H; now rewrite (IH false H).
Qed.

Lemma clean_idem (s : string) : clean (clean s) = clean s.
Proof.
  destruct (clean_tidy s) as [E|Ht]; [rewrite E; reflexivity|].
  unfold clean at 1; unfold collapse_whitespace.
  rewrite (collapse_tidy _ false (tidy_from_weaken _ Ht)).
  exact (trim_id _ Ht).
Qed.

Lemma makeSummaryBullets_of_clean (s s' : string) (n : nat) :
  clean s = clean s' -> makeSummaryBullets s n = makeSummaryBullets s' n.
Proof.
  intros E; destruct (clean_tidy s) as [E0|Ht].
  - rewrite (makeSummaryBullets_empty s n E0).
    rewrite E in E0; now rewrite (makeSummaryBullets_empty s' n E0).
  - assert (Hc : clean s <> "") by exact (proj1 (tidy_no_leading _ Ht)).
    rewrite (makeSummaryBullets_run s n Hc).
    rewrite E in Hc; rewrite (makeSummaryBullets_run s' n Hc).
    now rewrite E.
Qed.

(** X15.  The bullets depend on the summary only through its cleaned form:
    cleaning twice is cleaning once, summaries that differ in layout only
    (runs of white space, white space at the ends) have the same bullets,
    and condensing a cleaned summary gives the bullets of the summary. *)
Theorem makeSummaryBullets_ignores_layout :
  forall (summary other : string) (maxBullets : nat),
    clean (clean summary) = clean summary
    /\ makeSummaryBullets (clean summary) maxBullets
       = makeSummaryBullets summary maxBullets
    /\ (clean summary = clean other ->
        makeSummaryBullets summary maxBullets
        = makeSummaryBullets other maxBullets).
Proof.
  intros s s' n; split; [apply clean_idem|]; split.
  - apply makeSummaryBullets_of_clean, clean_idem.
  - apply makeSummaryBullets_of_clean.
Qed.

Lemma concat_occurs (sep : string) (l : list string) (b : string) :
  In b l -> occurs_in b (String.concat sep l).
Proof.
  induction l as [|x l IH]; intros Hin; [destruct Hin|].
  destruct l as [|y l].
  - destruct Hin as [<-|[]]; exists "", ""; cbn; now rewrite str_app_nil_r.
  - change (String.concat sep (x :: y :: l))
      with (x ++ sep ++ String.concat sep (y :: l)).
    destruct Hin as [<-|Hin].
    + exists "", (sep ++ String.concat sep (y :: l)); reflexivity.
    + destruct (IH Hin) as (u & v & E); rewrite E.
      exists (x ++ sep ++ u), v; now rewrite !str_app_assoc.
Qed.

(** X16.  The condenser invents no text: every bullet occurs, as it is,
    in the cleaned summary. *)
Theorem makeSummaryBullets_bullets_occur_in_summary :
  forall (summary : string) (maxBullets : nat) (b : string),
    In b (makeSummaryBullets summary maxBullets) ->
    occurs_in b (clean summary)
    /\ includes (clean summary) b = true.
Proof.
  intros s n b Hin.
  assert (H : occurs_in b (clean s)); [|split; [exact H|now apply includes_occurs]].
  destruct (clean_tidy s) as [E|Ht].
  - rewrite (makeSummaryBullets_empty _ _ E) in Hin; destruct Hin.
  - assert (Hc : clean s <> "") by exact (proj1 (tidy_no_leading _ Ht)).
    destruct (sentences_of_tidy _ Ht) as (_ & _ & Hcat).
    assert (Hsent : In b (sentences_of (clean s)) -> occurs_in b (clean s)).
    { intros Hb; rewrite <- Hcat; now apply concat_occurs. }
    rewrite (makeSummaryBullets_run _ _ Hc) in Hin; cbv zeta in Hin.
    destruct (n <=? _)%nat; [apply Hsent; exact (In_firstn _ _ _ Hin)|].
    destruct ((_ =? 1)%nat && _)%bool; [|now apply Hsent].
    destruct (bisect_tidy (clean s) Ht)
      as [[E _] | (i & E & _ & _ & _ & Hb1 & Hb2 & _ & _ & Hcut)];
      cbv zeta in *.
    + rewrite E in Hin; now apply Hsent.
    + rewrite Hb1, Hb2, E in Hin.
      replace (Z.of_nat i >? -1) with true in Hin
        by (symmetry; apply Z.gtb_lt; lia).
      destruct Hin as [<-|[<-|[]]].
      * exists "", (" " ++ str_drop (S i) (clean s)); exact Hcut.
      * exists (str_take i (clean s) ++ " "), "".
        now rewrite str_app_nil_r, str_app_assoc.
Qed.

Lemma makeSummaryBullets_bullets_occur_in_summary_witness :
  includes (clean spaced_summary) "Beta?" = true.
Proof.
  refine (proj2 (makeSummaryBullets_bullets_occur_in_summary spaced_summary 3
                   "Beta?" _)).
  vm_compute; tauto.
Defined.

(** ** The per-article variant *)

Lemma postToSlack_run (it : Scored) (W : World) (h : History) :
  PerArticle.postToSlack (title (article it)) (url (article it))
    (summary (article it)) (source (article it)) (score it) W h
  = match reply W h (article_post it) with
    | Rejected => (Threw FetchFailed, (h ++ [article_post it])%list)
    | Got r => check_slack r W (h ++ [article_post it])%list
    end.
Proof.
  unfold PerArticle.postToSlack, bind, fetch, article_post; cbv zeta.
  destruct (reply W h _); reflexivity.
Qed.

Lemma postToSlack_history (it : Scored) (W : World) (h : History) :
  snd (PerArticle.postToSlack (title (article it)) (url (article it))
         (summary (article it)) (source (article it)) (score it) W h)
  = (h ++ [article_post it])%list.
Proof.
  rewrite postToSlack_run; destruct (reply W h _); [reflexivity|].
  apply check_slack_history.
Qed.

Lemma postToSlack_accepted (it : Scored) (W : World) (h : History) :
  slack_accepts_all W ->
  PerArticle.postToSlack (title (article it)) (url (article it))
    (summary (article it)) (source (article it)) (score it) W h
  = (Returned tt, (h ++ [article_post it])%list).
Proof.
  intros HS; pose proof (postToSlack_history it W h) as Hh.
  rewrite postToSlack_run in *; unfold article_post in *; cbv zeta in *.
  destruct (HS h (ArticleLine (title (article it)) (url (article it)))
              [ ArticleTitle (slice (title (article it)) 0 300);
                ArticleBody (slice (summary (article it)) 0 700)
                  (url (article it));
                ArticleContext (source (article it)) (score it) ])
    as (r & Er & Ha).
  rewrite Er in *.
  pose proof (proj2 (proj1 (check_slack_accepts r W
                              (h ++ [SlackPost
                                       (ArticleLine (title (article it))
                                          (url (article it)))
                                       [ ArticleTitle
                                           (slice (title (article it)) 0 300);
                                         ArticleBody
                                           (slice (summary (article it)) 0 700)
                                           (url (article it));
                                         ArticleContext (source (article it))
                                           (score it) ]])%list)) Ha) as E.
  destruct (check_slack r W _) as [o h2]; cbn [fst snd] in *; now subst.
Qed.

Lemma postEach_step (pm : Num) (it : Scored) (rest : list Scored) (posted : nat)
  (W : World) (h : History) :
  PerArticle.postEach pm (it :: rest) posted W h =
    match upstashGet (fingerprint W (url (article it))) W h with
    | (Threw e, h1) => (Threw e, h1)
    | (Returned seen, h1) =>
        if truthy seen then PerArticle.postEach pm rest posted W h1
        else
          match PerArticle.postToSlack (title (article it)) (url (article it))
                  (summary (article it)) (source (article it)) (score it) W h1
          with
          | (Threw e, h2) => (Threw e, h2)
          | (Returned _, h2) =>
              match upstashSetEx (fingerprint W (url (article it))) "1"
                      retention W h2 with
              | (Threw e, h3) => (Threw e, h3)
              | (Returned _, h3) =>
                  if reaches (posted + 1) pm
                  then (Returned (posted + 1)%nat, h3)
                  else PerArticle.postEach pm rest (posted + 1) W h3
              end
          end
    end.
Proof.
  cbn [PerArticle.postEach]; unfold bind at 1; unfold sha1Hex at 1.
  unfold bind at 1.
  destruct (upstashGet _ W h) as [[v|e] h1]; [|reflexivity].
  destruct (truthy v); [reflexivity|].
  unfold bind at 1.
  destruct (PerArticle.postToSlack _ _ _ _ _ W h1) as [[[]|e] h2];
    [|reflexivity].
  unfold bind at 1.
  destruct (upstashSetEx _ _ _ W h2) as [[b|e] h3]; [|reflexivity].
  cbv zeta; destruct (reaches _ pm); reflexivity.
Qed.

Lemma count_app (p : Request -> bool) (a b : History) :
  count p (a ++ b)%list = (count p a + count p b)%nat.
Proof. unfold count; now rewrite filter_app, length_app. Qed.

(** The counts of the requests of the loop, in any world. *)
Lemma postEach_counts (W : World) (pm : Num) (scored : list Scored) :
  forall (posted : nat) (h : History),
    exists trace : History,
      snd (PerArticle.postEach pm scored posted W h) = (h ++ trace)%list
      /\ (count is_write trace <= count is_slack trace)%nat
      /\ (count is_slack trace <= count is_write trace + 1)%nat
      /\ (count is_slack trace <= count is_read trace)%nat
      /\ (count is_read trace <= List.length scored)%nat
      /\ (count is_read trace + count is_slack trace + count is_write trace
          = List.length trace)%nat
      /\ forall n : nat,
           fst (PerArticle.postEach pm scored posted W h) = Returned n ->
           n = (posted + count is_slack trace)%nat
           /\ count is_write trace = count is_slack trace
           /\ forall k : nat,
                allowance pm posted = Some k ->
                (count is_slack trace <= k)%nat.
Proof.
  induction scored as [|it tl IH]; intros posted h.
  - exists []; split; [cbn; now rewrite app_nil_r|].
    do 5 (split; [cbn; lia|]).
    intros n E; injection E as <-; cbn.
    split; [lia|]; split; [reflexivity|]; intros k Hk; lia.
  - rewrite postEach_step.
    pose proof (upstashGet_history (fingerprint W (url (article it))) W h) as H1.
    set (k := fingerprint W (url (article it))) in *.
    destruct (upstashGet k W h) as [[v|e] h1]; cbn [snd] in H1; subst h1.
    + destruct (truthy v).
      * destruct (IH posted (h ++ [KvGet k])%list)
          as (tr & E & Hw & Hp & Hr & Hl & Ht & Hn).
        exists ([KvGet k] ++ tr)%list.
        split; [now rewrite E, <- app_assoc|].
        rewrite !count_app, length_app; cbn [List.length].
        change (count is_read [KvGet k]) with 1%nat.
        change (count is_slack [KvGet k]) with 0%nat.
        change (count is_write [KvGet k]) with 0%nat.
        do 5 (split; [lia|]).
        intros n En; destruct (Hn n En) as (A & B & C).
        split; [lia|]; split; [lia|]; intros k' Hk'; specialize (C k' Hk'); lia.
      * pose proof (postToSlack_history it W (h ++ [KvGet k])%list) as H2.
        destruct (PerArticle.postToSlack _ _ _ _ _ W _) as [[[]|e] h2];
          cbn [snd] in H2; subst h2.
        -- rewrite upstashSetEx_run.
           destruct (reply W _ (KvSetEx _ _ _)) as [|r].
           ++ exists [KvGet k; article_post it; KvSetEx k "1" retention].
              split; [cbn [snd]; now rewrite <- !app_assoc|].
              do 5 (split; [cbn; lia|]).
              intros n En; discriminate En.
           ++ destruct (reaches (posted + 1) pm) eqn:Ec.
              ** exists [KvGet k; article_post it; KvSetEx k "1" retention].
                 split; [cbn [snd]; now rewrite <- !app_assoc|].
                 do 5 (split; [cbn; lia|]).
                 intros n En; injection En as <-; cbn.
                 split; [lia|]; split; [reflexivity|].
                 rewrite (allowance_reached _ _ Ec).
                 intros k' Hk'; injection Hk' as <-; lia.
              ** destruct (IH (posted + 1)%nat
                             (((h ++ [KvGet k]) ++ [article_post it])
                              ++ [KvSetEx k "1" retention])%list)
                   as (tr & E & Hw & Hp & Hr & Hl & Ht & Hn).
                 exists ([KvGet k; article_post it; KvSetEx k "1" retention]
                         ++ tr)%list.
                 split; [now rewrite E, <- !app_assoc|].
                 rewrite !count_app, length_app.
                 change (count is_read [KvGet k; article_post it;
                                        KvSetEx k "1" retention]) with 1%nat.
                 change (count is_slack [KvGet k; article_post it;
                                         KvSetEx k "1" retention]) with 1%nat.
                 change (count is_write [KvGet k; article_post it;
                                         KvSetEx k "1" retention]) with 1%nat.
                 cbn [List.length].
                 do 5 (split; [lia|]).
                 intros n En; destruct (Hn n En) as (A & B & C).
                 split; [lia|]; split; [lia|].
                 rewrite (allowance_more _ _ Ec).
                 intros k' Hk'.
                 destruct (allowance pm (posted + 1)) as [k2|]; [|discriminate].
                 cbn [option_map] in Hk'; injection Hk' as <-.
                 specialize (C k2 eq_refl); lia.
        -- exists [KvGet k; article_post it].
           split; [cbn [snd]; now rewrite <- !app_assoc|].
           do 5 (split; [cbn; lia|]).
           intros n En; discriminate En.
    + exists [KvGet k].
      split; [reflexivity|].
      do 5 (split; [cbn; lia|]).
      intros n En; discriminate En.
Qed.

(** The per-article handler, once the environment check has passed. *)
Lemma per_article_handler_run (cfg : Config) (W : World) (h : History) :
  missing_env cfg = [] ->
  PerArticle.handler cfg W h =
    match PerArticle.postEach (POST_MAX cfg)
            (scoreAndFilter PerArticle.scoreArticle (MIN_SCORE cfg)
               (feed_articles W (RSS_FEEDS cfg))) 0 W h with
    | (Returned n, h1) => (Returned (posted_reply n), h1)
    | (Threw e, h1) => (Threw e, h1)
    end.
Proof.
  intros Hm; unfold PerArticle.handler; rewrite Hm.
  cbn [List.length Nat.eqb negb].
  unfold bind at 1; unfold fetchFeeds at 1; unfold bind at 1.
  destruct (PerArticle.postEach _ _ _ W h) as [[n|e] h1]; reflexivity.
Qed.

(** X17.  Whatever the world does, a run of the per-article handler never
    writes a marker for an article it has not posted and never posts an
    article it has not looked up: it sends at most as many writes as posts
    and at most as many posts as reads, at most one posted article lacks
    its marker (the one on which the run failed), and it sends nothing
    else.  When it replies, the reply is "OK - posted N" where N is the
    number of posts, every posted article has its write, and N is within
    the limit of the cap: [POST_MAX] rounded up to a whole number, and 1
    when that is below 1; so for a whole [POST_MAX] N is at most
    [POST_MAX], or 1 when [POST_MAX] is below 1.  A [POST_MAX] that is NaN
    or +Infinity has no limit. *)
Theorem per_article_handler_counts :
  forall (cfg : Config) (W : World),
    missing_env cfg = [] ->
    let sent := snd (PerArticle.handler cfg W []) in
    (count is_write sent <= count is_slack sent)%nat
    /\ (count is_slack sent <= count is_write sent + 1)%nat
    /\ (count is_slack sent <= count is_read sent)%nat
    /\ (count is_read sent + count is_slack sent + count is_write sent
        = List.length sent)%nat
    /\ forall r : Reply,
         fst (PerArticle.handler cfg W []) = Returned r ->
         r = posted_reply (count is_slack sent)
         /\ count is_write sent = count is_slack sent
         /\ (forall k : nat,
               limit (POST_MAX cfg) = Some k ->
               (count is_slack sent <= k)%nat)
         /\ (forall n : Z,
               POST_MAX cfg = num_of_Z n ->
               (count is_slack sent <= Z.to_nat (Z.max 1 n))%nat).
Proof.
  intros cfg W Hm sent; subst sent.
  rewrite (per_article_handler_run cfg W [] Hm).
  destruct (postEach_counts W (POST_MAX cfg)
              (scoreAndFilter PerArticle.scoreArticle (MIN_SCORE cfg)
                 (feed_articles W (RSS_FEEDS cfg))) 0 [])
    as (tr & E & Hw & Hp & Hr & _ & Ht & Hn).
  destruct (PerArticle.postEach _ _ _ W []) as [[n|e] h1];
    cbn [snd fst app] in *; subst h1.
  - do 4 (split; [lia|]).
    intros r Er; injection Er as <-.
    destruct (Hn n eq_refl) as (A & B & C); cbn [Nat.add] in A.
    split; [unfold posted_reply; now subst n|].
    split; [exact B|].
    rewrite <- limit_allowance in C.
    split; [exact C|].
    intros z Hz; apply C; rewrite Hz; apply limit_num_of_Z.
  - do 4 (split; [lia|]).
    intros r Er; discriminate Er.
Qed.

Lemma per_article_handler_counts_witness :
  (count is_write (snd (PerArticle.handler (example_config 10)
                          rejected_write_world []))
   <= count is_slack (snd (PerArticle.handler (example_config 10)
                             rejected_write_world [])))%nat.
Proof.
  exact (proj1 (per_article_handler_counts (example_config 10)
                  rejected_write_world eq_refl)).
Defined.

(** ** Duplicates, with a store that records the writes *)

Lemma written_app (key : string) (a b : History) :
  written key (a ++ b)%list = written key a || written key b.
Proof. unfold written; apply existsb_app. Qed.

Lemma postEach_recording (W : World) (seen : string -> bool) (pm : Num) :
  store_records W seen -> slack_accepts_all W -> writes_answered W ->
  forall (scored : list Scored) (posted : nat) (h : History)
         (done : list string),
    (forall k, written k h = existsb (String.eqb k) done) ->
    let inc := take_limit (allowance pm posted) (pick W seen done scored) in
    exists trace : History,
      PerArticle.postEach pm scored posted W h
      = (Returned (posted + List.length inc)%nat, (h ++ trace)%list)
      /\ filter is_slack trace = map article_post inc
      /\ filter is_write trace = map (fun it => mark_request (keyed W it)) inc.
Proof.
  intros HC HS HWr; induction scored as [|it tl IH]; intros posted h done Hd.
  - exists []; cbn [pick].
    assert (E : take_limit (allowance pm posted) (@nil Scored) = [])
      by (destruct (allowance pm posted); [apply firstn_nil | reflexivity]).
    cbv zeta; rewrite E; cbn.
    now rewrite app_nil_r, Nat.add_0_r.
  - cbv zeta; rewrite postEach_step; cbn [pick].
    set (k := fingerprint W (url (article it))) in *.
    destruct (HC h k) as (v & -> & Hv); rewrite Hd in Hv; rewrite Hv.
    destruct (seen k || existsb (String.eqb k) done) eqn:Es.
    + destruct (IH posted (h ++ [KvGet k])%list done) as (tr & E & Hs & Hw).
      { intros k'; rewrite written_app, Hd; cbn; now rewrite orb_false_r. }
      exists (KvGet k :: tr); rewrite E, <- app_assoc; repeat split; assumption.
    + rewrite (postToSlack_accepted it W _ HS), upstashSetEx_run.
      specialize (HWr ((h ++ [KvGet k]) ++ [article_post it])%list k).
      destruct (reply W _ (KvSetEx k "1" retention)) as [|r];
        [now contradiction HWr|].
      destruct (reaches (posted + 1) pm) eqn:Ec.
      * rewrite (allowance_reached _ _ Ec);
          cbn [take_limit firstn List.length map].
        exists [KvGet k; article_post it; KvSetEx k "1" retention].
        rewrite <- !app_assoc; repeat split.
      * rewrite (allowance_more _ _ Ec).
        destruct (IH (posted + 1)%nat
                    (((h ++ [KvGet k]) ++ [article_post it])
                     ++ [KvSetEx k "1" retention])%list (k :: done))
          as (tr & E & Hs & Hw).
        { intros k'; rewrite !written_app, Hd; cbn.
          rewrite !orb_false_r, (String.eqb_sym k' k); apply orb_comm. }
        exists ([KvGet k; article_post it; KvSetEx k "1" retention] ++ tr)%list.
        rewrite E, <- !app_assoc, !filter_app, Hs, Hw.
        destruct (allowance pm (posted + 1)) as [k2|];
          cbn [option_map take_limit firstn List.length map];
          rewrite <- Nat.add_assoc; repeat split.
Qed.

Lemma pick_keys (W : World) (seen : string -> bool) (scored : list Scored) :
  forall done : list string,
    NoDup (map (fun it => fingerprint W (url (article it)))
             (pick W seen done scored))
    /\ Forall (fun it => seen (fingerprint W (url (article it))) = false
                         /\ ~ In (fingerprint W (url (article it))) done)
         (pick W seen done scored).
Proof.
  induction scored as [|it tl IH]; intros done; cbn [pick];
    [split; constructor|].
  destruct (seen _ || existsb _ done) eqn:Es; [apply IH|].
  apply orb_false_elim in Es; destruct Es as [Es Ed].
  destruct (IH (fingerprint W (url (article it)) :: done)) as [Hn Hf].
  assert (Hnot : ~ In (fingerprint W (url (article it))) done).
  { intros Hin; assert (existsb (String.eqb (fingerprint W (url (article it))))
                          done = true); [|congruence].
    apply existsb_exists; eexists; split; [exact Hin | apply String.eqb_refl]. }
  split.
  - cbn [map]; constructor; [|exact Hn].
    intros Hin; apply in_map_iff in Hin; destruct Hin as (x & Ex & Hx).
    rewrite Forall_forall in Hf; destruct (Hf x Hx) as [_ Hd].
    apply Hd; left; now symmetry.
  - constructor; [now split|].
    rewrite Forall_forall in *; intros x Hx; destruct (Hf x Hx) as [H1 H2].
    split; [exact H1 | intros Hin; apply H2; now right].
Qed.

Lemma NoDup_firstn {A : Type} (n : nat) (l : list A) :
  NoDup l -> NoDup (firstn n l).
Proof.
  intros H; revert n; induction H as [|x l Hx Hl IH]; intros [|n]; cbn;
    try constructor; [|apply IH].
  intros Hin; apply Hx; exact (In_firstn _ _ _ Hin).
Qed.

Lemma In_take_limit {A : Type} (k : option nat) (l : list A) (x : A) :
  In x (take_limit k l) -> In x l.
Proof. destruct k; [apply In_firstn | exact (fun H => H)]. Qed.

Lemma NoDup_take_limit {A : Type} (k : option nat) (l : list A) :
  NoDup l -> NoDup (take_limit k l).
Proof. destruct k; [apply NoDup_firstn | exact (fun H => H)]. Qed.

Lemma take_limit_map {A B : Type} (f : A -> B) (k : option nat) (l : list A) :
  take_limit k (map f l) = map f (take_limit k l).
Proof. destruct k; [apply firstn_map | reflexivity]. Qed.

(** X18.  With a store that records the writes of the run, a Slack that
    accepts and writes that are answered, the per-article handler posts
    each article whose URL is neither seen nor already posted in this run,
    up to the limit of the cap, writes the marker of each, and replies
    with their number: no URL is posted twice in one run, even when two
    feeds carry the same entry.  The limit is [POST_MAX] rounded up to a
    whole number, and 1 when that is below 1: for a whole [POST_MAX] of at
    least 1 it is [POST_MAX].  There is no limit when [POST_MAX] is NaN or
    +Infinity. *)
Theorem per_article_run_posts_each_url_once :
  forall (cfg : Config) (W : World) (seen : string -> bool),
    missing_env cfg = [] ->
    store_records W seen -> slack_accepts_all W -> writes_answered W ->
    let candidates :=
      pick W seen []
        (scoreAndFilter PerArticle.scoreArticle (MIN_SCORE cfg)
           (feed_articles W (RSS_FEEDS cfg))) in
    let posted := take_limit (limit (POST_MAX cfg)) candidates in
    (forall n : Z,
        POST_MAX cfg = num_of_Z n -> 1 <= n ->
        posted = firstn (Z.to_nat n) candidates)
    /\ exists sent : History,
         PerArticle.handler cfg W []
         = (Returned (posted_reply (List.length posted)), sent)
         /\ filter is_slack sent = map article_post posted
         /\ filter is_write sent
            = map (fun it => mark_request (keyed W it)) posted
         /\ NoDup (map (fun it => url (article it)) posted)
         /\ Forall (fun it => unseen W seen it = true) posted.
Proof.
  intros cfg W seen Hm HC HS HWr candidates posted; split.
  { intros n Hn H1; subst posted; rewrite Hn, limit_num_of_Z.
    cbn [take_limit]; now rewrite Z.max_r by exact H1. }
  destruct (postEach_recording W seen (POST_MAX cfg) HC HS HWr
              (scoreAndFilter PerArticle.scoreArticle (MIN_SCORE cfg)
                 (feed_articles W (RSS_FEEDS cfg))) 0 [] [])
    as (tr & E & Hs & Hw); [reflexivity|].
  fold candidates in E, Hs, Hw; rewrite <- limit_allowance in E, Hs, Hw.
  fold posted in E, Hs, Hw.
  exists tr; rewrite (per_article_handler_run cfg W [] Hm), E.
  split; [reflexivity|]; split; [exact Hs|]; split; [exact Hw|].
  destruct (pick_keys W seen
              (scoreAndFilter PerArticle.scoreArticle (MIN_SCORE cfg)
                 (feed_articles W (RSS_FEEDS cfg))) []) as [Hn Hf].
  fold candidates in Hn, Hf.
  split.
  - apply (NoDup_take_limit (limit (POST_MAX cfg))) in Hn.
    rewrite take_limit_map in Hn; fold posted in Hn.
    rewrite <- (map_map (fun it => url (article it)) (fingerprint W)) in Hn.
    exact (NoDup_map_inv _ _ Hn).
  - rewrite Forall_forall in *; intros x Hx.
    destruct (Hf x (In_take_limit _ _ _ Hx)) as [H1 _].
    unfold unseen; now rewrite H1.
Qed.

Lemma per_article_run_posts_each_url_once_witness :
  exists sent : History,
    PerArticle.handler (example_config 10) recording_world []
    = (Returned (posted_reply 2), sent).
Proof.
  destruct (per_article_run_posts_each_url_once (example_config 10)
              recording_world (fun _ => false) eq_refl)
    as (_ & sent & E & _).
  - intros h key; rewrite upstashGet_run; cbn.
    exists (if written key h then JStr "1" else JNull).
    split; [reflexivity | now destruct (written key h)].
  - intros h text blocks; eexists; split; [reflexivity|].
    split; [reflexivity|]; eexists; split; reflexivity.
  - intros h key; discriminate.
  - exists sent; exact E.
Defined.



(** ** The writes of MarkSeen *)

Lemma markSeen_outcome (W : World) (fresh : list Fresh) :
  forall h : History,
    (exists oks : list bool,
        fst (Digest.markSeen fresh W h) = Returned oks
        /\ List.length oks = List.length fresh
        /\ forall pre it post,
             fresh = (pre ++ it :: post)%list ->
             reply W (h ++ map mark_request pre)%list (mark_request it)
             <> Rejected)
    \/ (fst (Digest.markSeen fresh W h) = Threw FetchFailed
        /\ exists pre it post,
             fresh = (pre ++ it :: post)%list
             /\ reply W (h ++ map mark_request pre)%list (mark_request it)
                = Rejected).
Proof.
  induction fresh as [|x fresh IH]; intros h.
  - left; exists []; repeat split.
    intros pre it post E; destruct pre; discriminate.
  - rewrite markSeen_step, upstashSetEx_run.
    fold (mark_request x).
    destruct (reply W h (mark_request x)) as [|r] eqn:Er.
    + right; split; [now destruct (Digest.markSeen fresh W _)|].
      exists [], x, fresh; split; [reflexivity|].
      cbn [map]; now rewrite app_nil_r.
    + destruct (IH (h ++ [mark_request x])%list)
        as [(oks & E & Hl & Hn) | (E & pre & it & post & Hf & Hr)];
        destruct (Digest.markSeen fresh W _) as [os h2]; cbn [fst] in E;
        subst os.
      * left; exists (ok r :: oks); split; [reflexivity|].
        split; [cbn [List.length]; now rewrite Hl|].
        intros [|y pre] it post Ef; cbn [app] in Ef; injection Ef as <- Ef.
        -- cbn [map]; rewrite app_nil_r, Er; discriminate.
        -- cbn [map]; specialize (Hn pre it post Ef).
           now rewrite <- app_assoc in Hn.
      * right; split; [reflexivity|].
        exists (x :: pre), it, post; split; [now rewrite Hf|].
        cbn [map]; now rewrite <- app_assoc in Hr.
Qed.

(** X20.  MarkSeen sends the write of every item, in the order of the
    digest, whether the writes succeed or not: a write that fails or is
    rejected does not keep the others from being sent.  It rejects exactly
    when one of the requests is rejected; otherwise it returns one status
    per item. *)
Theorem markSeen_sends_every_write :
  forall (fresh : list Fresh) (W : World) (h : History),
    snd (Digest.markSeen fresh W h) = (h ++ map mark_request fresh)%list
    /\ ((exists e, fst (Digest.markSeen fresh W h) = Threw e)
        <-> exists pre it post,
              fresh = (pre ++ it :: post)%list
              /\ reply W (h ++ map mark_request pre)%list (mark_request it)
                 = Rejected)
    /\ ((exists e, fst (Digest.markSeen fresh W h) = Threw e)
        \/ exists oks : list bool,
             fst (Digest.markSeen fresh W h) = Returned oks
             /\ List.length oks = List.length fresh).
Proof.
  intros fresh W h; split; [apply markSeen_history|].
  destruct (markSeen_outcome W fresh h)
    as [(oks & E & Hl & Hn) | (E & pre & it & post & Hf & Hr)].
  - split; [|right; exists oks; now split].
    split.
    + intros [e He]; rewrite E in He; discriminate.
    + intros (pre & it & post & Hf & Hr); now destruct (Hn pre it post Hf).
  - split; [|left; eexists; exact E].
    split; [intros _; exists pre, it, post; now split|].
    intros _; eexists; exact E.
Qed.

(** ** What the bullets keep of the summary *)

Lemma concat_firstn_prefix (sep : string) (n : nat) (l : list string) :
  exists rest : string,
    String.concat sep l = String.concat sep (firstn n l) ++ rest.
Proof.
  revert n; induction l as [|x l IH]; intros n.
  - exists ""; now rewrite firstn_nil.
  - destruct n as [|n]; [exists (String.concat sep (x :: l)); reflexivity|].
    cbn [firstn]; destruct (IH n) as [rest E].
    destruct l as [|y l]; [exists ""; rewrite firstn_nil; cbn;
                           now rewrite str_app_nil_r|].
    change (String.concat sep (x :: y :: l))
      with (x ++ sep ++ String.concat sep (y :: l)).
    destruct (firstn n (y :: l)) as [|z zs] eqn:Ef.
    + exists (sep ++ String.concat sep (y :: l)); reflexivity.
    + change (String.concat sep (x :: z :: zs))
        with (x ++ sep ++ String.concat sep (z :: zs)).
      exists rest; rewrite E; now rewrite !str_app_assoc.
Qed.

(** X21.  The bullets, joined by single spaces, always are the beginning
    of the cleaned summary; and when the cleaned summary has fewer
    sentences than [maxBullets] nothing is lost: joined, the bullets are
    the whole cleaned summary, bisected or not. *)
Theorem makeSummaryBullets_keeps_the_beginning :
  forall (summary : string) (maxBullets : nat),
    (exists rest : string,
        clean summary
        = String.concat " " (makeSummaryBullets summary maxBullets) ++ rest)
    /\ ((List.length (sentences_of (clean summary)) < maxBullets)%nat ->
        String.concat " " (makeSummaryBullets summary maxBullets)
        = clean summary).
Proof.
  intros s n.
  destruct (clean_tidy s) as [E|Ht].
  - rewrite (makeSummaryBullets_empty _ _ E), E; split; [now exists ""|].
    reflexivity.
  - assert (Hc : clean s <> "") by exact (proj1 (tidy_no_leading _ Ht)).
    destruct (sentences_of_tidy _ Ht) as (_ & _ & Hcat).
    rewrite (makeSummaryBullets_run _ _ Hc); cbv zeta.
    destruct (n <=? _)%nat eqn:E1.
    + split; [|intros Hlt; apply Nat.leb_le in E1; lia].
      destruct (concat_firstn_prefix " " n (sentences_of (clean s))) as [r Er].
      exists r; now rewrite <- Er.
    + assert (Hwhole : (exists rest, clean s
                                     = String.concat " " (sentences_of (clean s))
                                       ++ rest)
                       /\ (String.concat " " (sentences_of (clean s))
                           = clean s))
        by (split; [exists ""; now rewrite Hcat, str_app_nil_r | exact Hcat]).
      destruct ((_ =? 1)%nat && _)%bool;
        [|split; [apply Hwhole | intros _; apply Hwhole]].
      destruct (bisect_tidy (clean s) Ht)
        as [[E _] | (i & E & _ & _ & _ & Hb1 & Hb2 & _ & _ & Hcut)];
        cbv zeta in *.
      * rewrite E; split; [apply Hwhole | intros _; apply Hwhole].
      * rewrite Hb1, Hb2, E.
        replace (Z.of_nat i >? -1) with true by (symmetry; apply Z.gtb_lt; lia).
        change (String.concat " " [str_take i (clean s);
                                   str_drop (S i) (clean s)])
          with (str_take i (clean s) ++ " " ++ str_drop (S i) (clean s)).
        rewrite <- Hcut; split; [exists ""; now rewrite str_app_nil_r|].
        reflexivity.
Qed.

Lemma makeSummaryBullets_keeps_the_beginning_witness :
  String.concat " " (makeSummaryBullets long_summary 2) = clean long_summary.
Proof.
  refine (proj2 (makeSummaryBullets_keeps_the_beginning long_summary 2) _).
  vm_compute; lia.
Defined.
